(** * NeighborNexus: the match ranker and the notification hub

    A shallow embedding of
    - [backend/internal/services/matching.go] (ranking, geo scoring),
    - the embedding service's [CalculateSimilarity] and its private [sqrt],
    - [backend/internal/services/websocket.go] (the connection registry)
      and the registration step of [handlers/websocket.go],
    followed by the properties the specification states about them.

    Conventions.
    - Go's [float64] is Rocq's primitive binary64 [float]; every operation
      is the IEEE-754 one, rounded to nearest even, and is written where
      the source has it (Go on amd64 fuses no multiply-add).
    - Go's [float32] values are the binary64 values that [round32] leaves
      unchanged; a [float32] product is the binary64 product rounded once
      more to binary32 (the exact product of two binary32 numbers fits in
      binary64, so this is a single rounding).
    - Go's [error] is the type [error] below; a function returning
      [(T, error)] returns a [result T].
    - The packages [math], [sort], [time] and [encoding/json] are not part
      of the repository.  Their functions are parameters of the model. *)

From Stdlib Require Import ZArith List Floats Bool Lia.
From stdpp Require Import gmap strings list fin_maps.

(** ** Errors and results *)

(** [fmt.Errorf(msg)] builds [ErrorString msg]; [fmt.Errorf("msg: %w", err)]
    builds [Wrapped "msg" err]. *)
Inductive error : Type :=
  | ErrorString (msg : string)
  | Wrapped (msg : string) (cause : error).

Inductive result (A : Type) : Type :=
  | Ok (value : A)
  | Err (err : error).
Arguments Ok {A} value.
Arguments Err {A} err.

Definition is_Err {A} (r : result A) : bool :=
  match r with Err _ => true | Ok _ => false end.

(** ** Floating point *)

(** The nearest binary32 value (ties to even), as a binary64 value:
    overflow gives an infinity, underflow a subnormal or a signed zero. *)
Definition round32 (x : float) : float :=
  match Prim2SF x with
  | S754_finite s m e => SF2Prim (binary_round 24 128 s m e)
  | _ => x
  end.

(** [x * y] at type [float32]. *)
Definition mul32 (x y : float) : float := round32 (x * y)%float.

(** Go's [x > y] and [x == y] at type [float64]. *)
Definition gtb (x y : float) : bool := (y <? x)%float.
Definition is_nan (x : float) : bool := negb (x =? x)%float.

(** Where a number that is not a NaN lies on the line: its class first
    (negative infinity, negative, zero, positive, positive infinity), then
    exponent and mantissa. [SFcompare] compares these keys. *)
Definition SFkey (x : spec_float) : Z * Z * Z :=
  match x with
  | S754_zero _ => (0, 0, 0)
  | S754_infinity false => (2, 0, 0)
  | S754_infinity true => (-2, 0, 0)
  | S754_nan => (0, 0, 0)
  | S754_finite false m e => (1, e, Z.pos m)
  | S754_finite true m e => (-1, - e, Z.neg m)
  end%Z.

Definition key_compare (k1 k2 : Z * Z * Z) : comparison :=
  let '(a1, b1, c1) := k1 in
  let '(a2, b2, c2) := k2 in
  match (a1 ?= a2)%Z with
  | Eq => match (b1 ?= b2)%Z with Eq => (c1 ?= c2)%Z | r => r end
  | r => r
  end.

Definition SFis_nan (x : spec_float) : bool :=
  match x with S754_nan => true | _ => false end.

(** Finite: a zero, a subnormal or a normal number; neither an infinity
    nor a NaN. *)
Definition SFis_finite (x : spec_float) : bool :=
  match x with S754_zero _ | S754_finite _ _ _ => true | _ => false end.
Definition is_finite (x : float) : bool := SFis_finite (Prim2SF x).

(** A zero of either sign. *)
Definition is_zero (x : float) : Prop := x = 0%float ∨ x = (-0)%float.

(** The constant [0.3]: the binary64 value nearest to three tenths. *)
Definition threshold : float := 0x1.3333333333333p-2%float.

(** [math.Pi]. *)
Definition math_Pi : float := 0x1.921fb54442d18p+1%float.

(** ** The similarity scorer (embedding service) *)

Module Embedding.

(** [sqrt]: ten Newton steps from [z = x]. *)
Definition sqrt (x : float) : float :=
  if (x <=? 0)%float then 0%float
  else Nat.iter 10 (fun z => (z - (z * z - x) / (2 * z))%float) x.

(** The loop of [CalculateSimilarity]: one pass over both vectors,
    accumulating [(dotProduct, norm1, norm2)] in binary64 from binary32
    products. *)
Fixpoint accumulate (embedding1 embedding2 : list float)
    (acc : float * float * float) : float * float * float :=
  match embedding1, embedding2 with
  | x :: rest1, y :: rest2 =>
      let '(dotProduct, norm1, norm2) := acc in
      accumulate rest1 rest2
        ((dotProduct + mul32 x y)%float,
         (norm1 + mul32 x x)%float,
         (norm2 + mul32 y y)%float)
  | _, _ => acc
  end.

Definition CalculateSimilarity (embedding1 embedding2 : list float)
    : result float :=
  if negb (length embedding1 =? length embedding2)%nat then
    Err (ErrorString "embedding dimensions do not match")
  else if (length embedding1 =? 0)%nat then
    Err (ErrorString "embeddings cannot be empty")
  else
    let '(dotProduct, norm1, norm2) :=
      accumulate embedding1 embedding2 (0, 0, 0)%float in
    let norm1 := sqrt norm1 in
    let norm2 := sqrt norm2 in
    if (norm1 =? 0)%float || (norm2 =? 0)%float then Ok 0%float
    else Ok (dotProduct / (norm1 * norm2))%float.

(** The Euclidean norm of one vector as the loop computes it
    ([norm1] for the first argument, [norm2] for the second). *)
Definition sum_squares (v : list float) : float :=
  fold_left (fun acc x => (acc + mul32 x x)%float) v 0%float.
Definition norm (v : list float) : float := sqrt (sum_squares v).

End Embedding.

(** ** Domain records ([models])

    [Need] and [Volunteer] share field names in Go; here the fields of a
    [Need] that would clash carry the prefix [need_], those of a
    [Volunteer] the prefix [vol_]. *)

(** [primitive.ObjectID] is twelve bytes; it is kept as the 96-bit number
    those bytes spell, most significant first, so that the byte-wise order
    of identifiers is the order of [N]. *)
Definition ObjectID : Type := N.
Bind Scope N_scope with ObjectID.

(** [time.Time], as nanoseconds since the epoch. *)
Definition Time : Type := Z.
Bind Scope Z_scope with Time.

Record Location : Type := {
  Latitude : float;
  Longitude : float;
  H3Index : string;
  Address : string
}.

Record Need : Type := {
  need_ID : ObjectID;
  need_UserID : ObjectID;
  Title : string;
  need_Description : string;
  Category : string;
  Urgency : string;
  Duration : Z;
  need_Location : Location;
  Status : string;
  need_Embedding : list float;
  need_CreatedAt : Time;
  need_UpdatedAt : Time;
  ExpiresAt : option Time
}.

Record Availability : Type := {
  DayOfWeek : Z;
  StartTime : string;
  EndTime : string
}.

Record Volunteer : Type := {
  vol_ID : ObjectID;
  vol_UserID : ObjectID;
  Skills : list string;
  Interests : list string;
  vol_Description : string;
  vol_Availability : list Availability;
  vol_Location : Location;
  vol_Embedding : list float;
  Rating : float;
  TaskCount : Z;
  vol_CreatedAt : Time;
  vol_UpdatedAt : Time
}.

Record Match : Type := {
  NeedID : ObjectID;
  VolunteerID : ObjectID;
  Score : float;
  Distance : float;
  CreatedAt : Time
}.

(** ** External packages used by the ranker *)

(** The four functions of Go's [math] package that the geo scorer calls.
    ([math.Sqrt] is the correctly rounded IEEE square root, [PrimFloat.sqrt].) *)
Record MathLib : Type := {
  math_Sin : float -> float;
  math_Cos : float -> float;
  math_Atan2 : float -> float -> float;
  math_Exp : float -> float
}.

(** What the geo scorer relies on, each an instance of what Go's [math]
    documents or implements: [Sin] is odd (the implementation strips the
    sign and restores it) with [Sin(+0) = +0]; [Cos] of a finite number
    lies between -1 and 1; [Atan2(+0, x) = +0] for [x >= 0], here at
    [x = 1]. *)
Record MathLib_spec (math : MathLib) : Prop := {
  Sin_odd : ∀ x, math_Sin math (- x)%float = (- math_Sin math x)%float;
  Sin_zero : math_Sin math 0%float = 0%float;
  Cos_bounded : ∀ x, is_finite x = true → (abs (math_Cos math x) <=? 1)%float = true;
  Atan2_zero_one : math_Atan2 math 0%float 1%float = 0%float
}.

(** [sort.Slice(matches, less)], with [less] read on elements rather than
    on indices. *)
Definition sorter : Type := (Match -> Match -> bool) -> list Match -> list Match.

(** What [sort.Slice] runs on a short slice: [insertionSort_func].  The
    slice prefix [data[a:i]] is kept reversed, so that the element at
    [j-1] is the head; an element moves left while it is [less] than its
    left neighbour. *)
Fixpoint insert_left {A} (less : A -> A -> bool) (x : A) (rev_prefix : list A) : list A :=
  match rev_prefix with
  | [] => [x]
  | y :: rest => if less x y then y :: insert_left less x rest else x :: y :: rest
  end.

Definition insertionSort_func {A} (less : A -> A -> bool) (data : list A) : list A :=
  rev (fold_left (fun rev_prefix x => insert_left less x rev_prefix) data []).

(** The invariant of the insertion sort: the reversed prefix is in order,
    no element being less than one that stands to its left in the slice. *)
Fixpoint rsorted {A} (less : A → A → bool) (rev_prefix : list A) : Prop :=
  match rev_prefix with
  | [] => True
  | y :: rest => Forall (λ z, less y z = false) rest ∧ rsorted less rest
  end.

(** The contract of [sort.Slice]: the slice is permuted, and it ends up
    ordered by [less] whenever [less] is the transitive ordering that
    [sort.Interface] asks for ("if both Less(i, j) and Less(j, k) are
    true, then Less(i, k) must be true as well; if both are false, then
    Less(i, k) must be false as well"). Nothing is promised about the
    order of elements neither of which is less than the other. *)
Definition transitive_ordering (less : Match -> Match -> bool) (l : list Match) : Prop :=
  (∀ a, a ∈ l → less a a = false) ∧
  (∀ a b c, a ∈ l → b ∈ l → c ∈ l →
     less a b = true → less b c = true → less a c = true) ∧
  (∀ a b c, a ∈ l → b ∈ l → c ∈ l →
     less a b = false → less b c = false → less a c = false).

Definition sorted_by (less : Match -> Match -> bool) (l : list Match) : Prop :=
  ∀ i j a b, i < j → l !! i = Some a → l !! j = Some b → less b a = false.

Record sort_Slice_spec (srt : sorter) : Prop := {
  sort_Slice_perm : ∀ less l, srt less l ≡ₚ l;
  sort_Slice_sorted : ∀ less l, transitive_ordering less l → sorted_by less (srt less l)
}.

(** ** The match ranker ([MatchingService]) *)

Module Matching.
Section Ranker.

Variable math : MathLib.
Variable sort_Slice : sorter.
(** [time_Now k] is what the [k]-th call of [time.Now()] in a ranking
    pass returns (counting from zero). *)
Variable time_Now : nat -> Time.

Definition calculateDistance (loc1 loc2 : Location) : float :=
  let lat1 := (Latitude loc1 * math_Pi / 180)%float in
  let lon1 := (Longitude loc1 * math_Pi / 180)%float in
  let lat2 := (Latitude loc2 * math_Pi / 180)%float in
  let lon2 := (Longitude loc2 * math_Pi / 180)%float in
  let dlat := (lat2 - lat1)%float in
  let dlon := (lon2 - lon1)%float in
  let a :=
    (math_Sin math (dlat / 2) * math_Sin math (dlat / 2)
     + math_Cos math lat1 * math_Cos math lat2
       * math_Sin math (dlon / 2) * math_Sin math (dlon / 2))%float in
  let c := (2 * math_Atan2 math (PrimFloat.sqrt a) (PrimFloat.sqrt (1 - a)))%float in
  let earthRadius := 6371000%float in
  (earthRadius * c)%float.

Definition calculateDistanceScore (distance : float) : float :=
  let distanceKm := (distance / 1000)%float in
  math_Exp math (- distanceKm / 10)%float.

(** The less function both rankers hand to [sort.Slice]:
    [matches[i].Score > matches[j].Score]. *)
Definition byScoreDesc (mi mj : Match) : bool := gtb (Score mi) (Score mj).

(** One iteration of the loop of [FindMatchesForNeed]. Every appended
    Match reads the clock once, so the number of Matches so far is the
    number of clock readings so far. *)
Definition scoreVolunteer (need : Need) (matches : list Match)
    (volunteer : Volunteer) : list Match :=
  if (length (vol_Embedding volunteer) =? 0)%nat then matches
  else
    match Embedding.CalculateSimilarity (need_Embedding need) (vol_Embedding volunteer) with
    | Err _ => matches
    | Ok similarity =>
        let distance := calculateDistance (need_Location need) (vol_Location volunteer) in
        let distanceScore := calculateDistanceScore distance in
        let combinedScore := (similarity * distanceScore)%float in
        if gtb combinedScore threshold then
          matches ++ [ {| NeedID := need_ID need;
                          VolunteerID := vol_ID volunteer;
                          Score := combinedScore;
                          Distance := distance;
                          CreatedAt := time_Now (length matches) |} ]
        else matches
    end.

(** One iteration of the loop of [FindMatchesForVolunteer]. *)
Definition scoreNeed (volunteer : Volunteer) (matches : list Match)
    (need : Need) : list Match :=
  if (length (need_Embedding need) =? 0)%nat then matches
  else
    match Embedding.CalculateSimilarity (vol_Embedding volunteer) (need_Embedding need) with
    | Err _ => matches
    | Ok similarity =>
        let distance := calculateDistance (need_Location need) (vol_Location volunteer) in
        let distanceScore := calculateDistanceScore distance in
        let combinedScore := (similarity * distanceScore)%float in
        if gtb combinedScore threshold then
          matches ++ [ {| NeedID := need_ID need;
                          VolunteerID := vol_ID volunteer;
                          Score := combinedScore;
                          Distance := distance;
                          CreatedAt := time_Now (length matches) |} ]
        else matches
    end.

(** The slice [matches] when the loop ends: the kept candidates, in the
    order of the pool. *)
Definition keptVolunteers (need : Need) (volunteers : list Volunteer) : list Match :=
  fold_left (scoreVolunteer need) volunteers [].

Definition keptNeeds (volunteer : Volunteer) (needs : list Need) : list Match :=
  fold_left (scoreNeed volunteer) needs [].

(** [if limit <= 0 { limit = 10 }]. *)
Definition effectiveLimit (limit : Z) : Z :=
  if (limit <=? 0)%Z then 10%Z else limit.

(** [if len(matches) > limit { matches = matches[:limit] }]. *)
Definition topMatches (limit : Z) (matches : list Match) : list Match :=
  if (Z.of_nat (length matches) >? limit)%Z then firstn (Z.to_nat limit) matches
  else matches.

(** [fetched] is what [getActiveVolunteers] returned: the candidate pool
    read from persistence, or the error of the read. *)
Definition FindMatchesForNeed (fetched : result (list Volunteer))
    (need : Need) (limit : Z) : result (list Match) :=
  let limit := effectiveLimit limit in
  match fetched with
  | Err err => Err (Wrapped "failed to get volunteers" err)
  | Ok volunteers =>
      let matches := keptVolunteers need volunteers in
      let matches := sort_Slice byScoreDesc matches in
      Ok (topMatches limit matches)
  end.

(** [fetched] is what [getActiveNeeds] returned. *)
Definition FindMatchesForVolunteer (fetched : result (list Need))
    (volunteer : Volunteer) (limit : Z) : result (list Match) :=
  let limit := effectiveLimit limit in
  match fetched with
  | Err err => Err (Wrapped "failed to get needs" err)
  | Ok needs =>
      let matches := keptNeeds volunteer needs in
      let matches := sort_Slice byScoreDesc matches in
      Ok (topMatches limit matches)
  end.

End Ranker.
End Matching.


(** ** The notification hub ([WebSocketService]) *)

Module Hub.

(** [[]byte]. *)
Definition bytes : Type := list Byte.byte.

(** A value stored under a key of a payload [map[string]interface{}]. *)
Inductive payload_value : Type :=
  | PString (s : string)
  | PFloat (f : float).

Record WebSocketMessage : Type := {
  Type_ : string;
  Payload : gmap string payload_value;
  msg_UserID : string
}.

(** A buffered channel [make(chan []byte, capacity)]: the messages queued
    and not yet received, oldest first, and whether [close] was called. *)
Record channel : Type := {
  queue : list bytes;
  capacity : nat;
  closed : bool
}.

(** Channels are references; [chan_ref] names one in the store [chans]. *)
Definition chan_ref : Type := nat.

(** [WebSocketClient]. The fields [Conn] and [Service] (the transport and
    the back pointer) play no part in the registry and are left out. *)
Record WebSocketClient : Type := {
  ID : string;
  UserID : string;
  Send : chan_ref
}.

(** [WebSocketService]: the registry [clients], keyed by connection
    identity, and the store of the channels that clients point to. A
    channel outlives the registration of its client, so it is kept beside
    the registry and not inside it. *)
Record WebSocketService : Type := {
  clients : gmap string WebSocketClient;
  chans : gmap chan_ref channel
}.

(** A call either returns or panics. *)
Inductive outcome (A : Type) : Type :=
  | Done (a : A)
  | Panic (msg : string).
Arguments Done {A} a.
Arguments Panic {A} msg.

Definition bind {A B} (o : outcome A) (k : A -> outcome B) : outcome B :=
  match o with
  | Done a => k a
  | Panic msg => Panic msg
  end.

Definition enqueue (data : bytes) (ch : channel) : channel :=
  {| queue := queue ch ++ [data]; capacity := capacity ch; closed := closed ch |}.

Definition close (ch : channel) : channel :=
  {| queue := queue ch; capacity := capacity ch; closed := true |}.

(** The queue has no room: a send would block. *)
Definition full (ch : channel) : bool := (capacity ch <=? length (queue ch))%nat.

(** The statement
[[
      select {
      case client.Send <- data:
      default:
          close(client.Send)
          delete(ws.clients, client.ID)
      }
]]
    A send on a closed channel panics; a send on a channel with room
    enqueues; otherwise the default branch runs. (On a buffered channel a
    receiver waits only while the queue is empty, so the queue alone
    decides whether the send can proceed.) A reference that names no
    channel is the nil channel: the send can never proceed and [close]
    panics. *)
Definition trySend (data : bytes) (client : WebSocketClient)
    (ws : WebSocketService) : outcome WebSocketService :=
  match chans ws !! Send client with
  | None => Panic "close of nil channel"
  | Some ch =>
      if closed ch then Panic "send on closed channel"
      else if full ch then
        Done {| clients := delete (ID client) (clients ws);
                chans := <[Send client := close ch]> (chans ws) |}
      else
        Done {| clients := clients ws;
                chans := <[Send client := enqueue data ch]> (chans ws) |}
  end.

(** [for _, client := range ws.clients { body }]. Go visits the entries in
    an order of its choosing; [order] lists the keys in that order. An
    entry deleted before it is reached is not visited. *)
Fixpoint rangeClients (body : WebSocketClient -> WebSocketService -> outcome WebSocketService)
    (order : list string) (ws : WebSocketService) : outcome WebSocketService :=
  match order with
  | [] => Done ws
  | key :: rest =>
      match clients ws !! key with
      | None => rangeClients body rest ws
      | Some client => bind (body client ws) (rangeClients body rest)
      end
  end.

(** [order] is an order in which Go may visit the registry. *)
Definition iteration (ws : WebSocketService) (order : list string) : Prop :=
  order ≡ₚ (map_to_list (clients ws)).*1.

Section Service.

(** [json.Marshal] on a message: the bytes, or [None] for its error. *)
Variable json_Marshal : WebSocketMessage -> option bytes.

Definition NewWebSocketService : WebSocketService :=
  {| clients := ∅; chans := ∅ |}.

(** [Start], case [client := <-ws.register]. *)
Definition register (client : WebSocketClient) (ws : WebSocketService) : WebSocketService :=
  {| clients := <[ID client := client]> (clients ws); chans := chans ws |}.

(** [Start], case [client := <-ws.unregister]. *)
Definition unregister (client : WebSocketClient) (ws : WebSocketService)
    : outcome WebSocketService :=
  match clients ws !! ID client with
  | Some _ =>
      match chans ws !! Send client with
      | None => Panic "close of nil channel"
      | Some ch =>
          if closed ch then Panic "close of closed channel"
          else Done {| clients := delete (ID client) (clients ws);
                       chans := <[Send client := close ch]> (chans ws) |}
      end
  | None => Done ws
  end.

Definition broadcastMessage (order : list string) (message : WebSocketMessage)
    (ws : WebSocketService) : outcome WebSocketService :=
  match json_Marshal message with
  | None => Done ws
  | Some data => rangeClients (trySend data) order ws
  end.

Definition SendToUser (order : list string) (userID : string)
    (message : WebSocketMessage) (ws : WebSocketService) : outcome WebSocketService :=
  match json_Marshal message with
  | None => Done ws
  | Some data =>
      rangeClients
        (fun client ws =>
           if String.eqb (UserID client) userID then trySend data client ws
           else Done ws)
        order ws
  end.

Definition SendToMultipleUsers (order : list string) (userIDs : list string)
    (message : WebSocketMessage) (ws : WebSocketService) : outcome WebSocketService :=
  match json_Marshal message with
  | None => Done ws
  | Some data =>
      let userIDSet : gmap string bool :=
        fold_left (fun set id => <[id := true]> set) userIDs ∅ in
      rangeClients
        (fun client ws =>
           if default false (userIDSet !! UserID client) then trySend data client ws
           else Done ws)
        order ws
  end.

Definition NotifyNeedAccepted (order : list string)
    (needID volunteerID volunteerName : string) (ws : WebSocketService)
    : outcome WebSocketService :=
  let message :=
    {| Type_ := "need_accepted";
       Payload := <["need_id" := PString needID]>
                    (<["volunteer_id" := PString volunteerID]>
                       (<["volunteer_name" := PString volunteerName]> ∅));
       msg_UserID := "" |} in
  SendToUser order needID message ws.

(** [IsUserConnected]: the first registered client of the user ends the
    loop with [true]. *)
Definition IsUserConnected (order : list string) (userID : string)
    (ws : WebSocketService) : bool :=
  existsb
    (fun key =>
       match clients ws !! key with
       | Some client => String.eqb (UserID client) userID
       | None => false
       end)
    order.

(** [HandleWebSocket], once the request is authenticated and upgraded:
    a client with a new channel of capacity 256 is registered under the
    identifier [id] that [uuid.New] produced, and greeted. *)
Definition HandleWebSocket (id userID : string) (ws : WebSocketService)
    : WebSocketService :=
  let send := fresh (dom (chans ws)) in
  let client := {| ID := id; UserID := userID; Send := send |} in
  let ch := {| queue := []; capacity := 256; closed := false |} in
  let ws := register client
              {| clients := clients ws; chans := <[send := ch]> (chans ws) |} in
  let welcomeMessage :=
    {| Type_ := "connected";
       Payload := <["user_id" := PString userID]>
                    (<["message" := PString "Connected to NeighborNexus"]> ∅);
       msg_UserID := "" |} in
  match json_Marshal welcomeMessage with
  | Some data =>
      {| clients := clients ws; chans := <[send := enqueue data ch]> (chans ws) |}
  | None => ws
  end.

(** [primitive.ObjectID.Hex]: the identifier in hexadecimal. *)
Variable ObjectID_Hex : ObjectID -> string.

(** The message that [NotifyNewNeed] builds. *)
Definition newNeedMessage (need : Need) : WebSocketMessage :=
  {| Type_ := "new_need";
     Payload := <["need_id" := PString (ObjectID_Hex (need_ID need))]>
                  (<["title" := PString (Title need)]>
                     (<["urgency" := PString (Urgency need)]> ∅));
     msg_UserID := "" |}.

Definition NotifyNewNeed (order : list string) (need : Need)
    (volunteerIDs : list string) (ws : WebSocketService) : outcome WebSocketService :=
  let message := newNeedMessage need in
  SendToMultipleUsers order volunteerIDs message ws.

(** [GetConnectedUsers]: the loop appends the user of every registered
    client it visits. *)
Definition GetConnectedUsers (order : list string) (ws : WebSocketService)
    : list string :=
  fold_left
    (fun userIDs key =>
       match clients ws !! key with
       | Some client => userIDs ++ [UserID client]
       | None => userIDs
       end)
    order [].

(** The steps of [HandleWebSocket] one by one. The handler makes the
    client and its channel, hands the client to [Start] over
    [ws.register], and goes on to queue the greeting; [Start] puts the
    client in the registry when it takes it. Other calls on the hub can
    run between these steps. *)





End Service.

(** The registry invariant: a client is stored under its own identifier,
    its channel exists and is open, and no two registered clients share a
    channel. *)
Definition wf (ws : WebSocketService) : Prop :=
  (∀ key client, clients ws !! key = Some client →
     ID client = key ∧
     ∃ ch, chans ws !! Send client = Some ch ∧ closed ch = false) ∧
  (∀ key1 key2 client1 client2,
     clients ws !! key1 = Some client1 →
     clients ws !! key2 = Some client2 →
     Send client1 = Send client2 → key1 = key2).

(** The user owns a registered connection. *)
Definition connected (userID : string) (ws : WebSocketService) : Prop :=
  ∃ key client, clients ws !! key = Some client ∧ UserID client = userID.

(** What one pass of a send loop does to a registered client and its
    channel [ch], when [recipient] tells whether the loop sends to it: a
    recipient with room gets the message, a recipient without room is
    evicted and its channel closed, anyone else is left alone. The first
    component is the registry entry afterwards. *)
Definition after_send (data : bytes) (recipient : WebSocketClient → bool)
    (client : WebSocketClient) (ch : channel) : option WebSocketClient * channel :=
  if recipient client then
    if full ch then (None, close ch) else (Some client, enqueue data ch)
  else (Some client, ch).

(** [ws'] is [ws] after a send of [data] to the clients that [recipient]
    selects: every registered client and its channel are as [after_send]
    says, no client is added, and no other channel is touched. *)
Definition sent (data : bytes) (recipient : WebSocketClient → bool)
    (ws ws' : WebSocketService) : Prop :=
  (∀ key client ch,
     clients ws !! key = Some client → chans ws !! Send client = Some ch →
     clients ws' !! key = (after_send data recipient client ch).1 ∧
     chans ws' !! Send client = Some (after_send data recipient client ch).2) ∧
  (∀ key, clients ws !! key = None → clients ws' !! key = None) ∧
  (∀ ref, (∀ key client, clients ws !! key = Some client → Send client ≠ ref) →
     chans ws' !! ref = chans ws !! ref).


(** A check of the registry invariant that computes. *)
Definition wfb (ws : WebSocketService) : bool :=
  forallb
    (λ entry : string * WebSocketClient,
       String.eqb (ID entry.2) entry.1 &&
       match chans ws !! Send entry.2 with
       | Some ch => negb (closed ch)
       | None => false
       end)
    (map_to_list (clients ws))
  && bool_decide (NoDup ((λ entry : string * WebSocketClient, Send entry.2)
                           <$> map_to_list (clients ws))).

(** *** Concrete data for worked examples *)

(** A stand-in for [json.Marshal]: the bytes of the message type. What
    the hub does with a message does not depend on its bytes. *)
Definition sample_marshal (message : WebSocketMessage) : option bytes :=
  Some (String.list_byte_of_string (Type_ message)).

Definition sample_message : WebSocketMessage :=
  {| Type_ := "new_match"; Payload := ∅; msg_UserID := "" |}.

Definition backlog : list bytes := replicate 256 (String.list_byte_of_string "new_need").

(** Alice's only connection has a full queue, Bob's has room. *)
Definition sample_hub : WebSocketService :=
  {| clients :=
       <["conn-a" := {| ID := "conn-a"; UserID := "alice"; Send := 0 |}]>
         (<["conn-b" := {| ID := "conn-b"; UserID := "bob"; Send := 1 |}]> ∅);
     chans :=
       <[0 := {| queue := backlog; capacity := 256; closed := false |}]>
         (<[1 := {| queue := []; capacity := 256; closed := false |}]> ∅) |}.

End Hub.


(** ** The need handler ([NeedHandler]) *)

Module Handlers.
Section NeedHandler.

Variable math : MathLib.
Variable sort_Slice : sorter.
Variable time_Now : nat -> Time.
Variable json_Marshal : Hub.WebSocketMessage -> option Hub.bytes.
Variable ObjectID_Hex : ObjectID -> string.

(** The end of [CreateNeed], once the need is stored and its embedding is
    set, with the matching service and the hub configured: the need is
    ranked with limit 5, an error of the ranking is dropped (the matches
    are then nil), and if there are matches the hub is asked to notify
    the users named by the hexadecimal [VolunteerID] of each. The result
    is the matches put in the response and what the hub did. *)
Definition CreateNeed_notify (fetched : result (list Volunteer))
    (order : list string) (need : Need) (ws : Hub.WebSocketService)
    : list Match * Hub.outcome Hub.WebSocketService :=
  let matches :=
    match Matching.FindMatchesForNeed math sort_Slice time_Now fetched need 5 with
    | Ok matches => matches
    | Err _ => []
    end in
  if (0 <? length matches)%nat then
    let volunteerIDs := map (fun m => ObjectID_Hex (VolunteerID m)) matches in
    (matches, Hub.NotifyNewNeed json_Marshal ObjectID_Hex order need volunteerIDs ws)
  else (matches, Hub.Done ws).

End NeedHandler.
End Handlers.


(** ** The embedding service ([EmbeddingService]) *)

Module EmbeddingClient.

(** [client.CreateEmbeddings] with the model fixed: from the inputs of the
    request to the embeddings of [resp.Data], in order, or the error. *)
Definition provider : Type := list string -> result (list (list float)).

Section Service.

(** [strings.TrimSpace]. *)
Variable strings_TrimSpace : string -> string.

(** [if len(text) > 8000 { text = text[:8000] }], on bytes. *)
Definition truncate (text : string) : string :=
  if (8000 <? Z.of_nat (String.length text))%Z
  then String.substring 0 (Z.to_nat 8000) text else text.

(** [client] is [None] for the nil client of a service made without an
    API key. *)
Definition GenerateEmbedding (client : option provider) (text : string)
    : result (list float) :=
  match client with
  | None => Err (ErrorString "OpenAI client not initialized")
  | Some createEmbeddings =>
      let text := strings_TrimSpace text in
      if String.eqb text "" then Err (ErrorString "text cannot be empty")
      else
        let text := truncate text in
        match createEmbeddings [text] with
        | Err err => Err (Wrapped "failed to generate embedding" err)
        | Ok [] => Err (ErrorString "no embedding data returned")
        | Ok (embedding :: _) => Ok embedding
        end
  end.

Definition BatchGenerateEmbeddings (client : option provider) (texts : list string)
    : result (list (list float)) :=
  match client with
  | None => Err (ErrorString "OpenAI client not initialized")
  | Some createEmbeddings =>
      if (length texts =? 0)%nat then Err (ErrorString "no texts provided")
      else
        let cleanedTexts := map (fun text => truncate (strings_TrimSpace text)) texts in
        match createEmbeddings cleanedTexts with
        | Err err => Err (Wrapped "failed to generate batch embeddings" err)
        | Ok embeddings => Ok embeddings
        end
  end.

Definition IsAvailable (client : option provider) : bool :=
  match client with Some _ => true | None => false end.

(** [strings.Join]. *)
Fixpoint strings_Join (elems : list string) (sep : string) : string :=
  match elems with
  | [] => ""
  | [elem] => elem
  | elem :: rest => elem +:+ sep +:+ strings_Join rest sep
  end.

(** The line feed of the format strings. *)
Definition newline : string := String (Ascii.ascii_of_nat 10) "".

(** [fmt.Sprintf] with the format of [GenerateNeedEmbedding]; the verb
    [%s] puts a string in as it is. *)
Definition GenerateNeedEmbedding (client : option provider)
    (title description category : string) : result (list float) :=
  let text := "Title: " +:+ title +:+ newline
              +:+ "Description: " +:+ description +:+ newline
              +:+ "Category: " +:+ category in
  GenerateEmbedding client text.

Definition GenerateVolunteerEmbedding (client : option provider)
    (skills interests description : list string) : result (list float) :=
  let text := "Skills: " +:+ strings_Join skills ", " +:+ newline
              +:+ "Interests: " +:+ strings_Join interests ", " +:+ newline
              +:+ "Description: " +:+ strings_Join description " " in
  GenerateEmbedding client text.

End Service.
End EmbeddingClient.


(** ** Predicates of the specification *)

(** [combinedScore > 0.3]: the condition under which a candidate is
    materialized into a Match. *)
Definition above_threshold (m : Match) : Prop := gtb (Score m) threshold = true.

(** What the specification promises of a ranking returned for [limit]:
    every score exceeds the threshold, scores never increase along the
    list, and the list is no longer than the limit in force. *)
Definition ranked (limit : Z) (ms : list Match) : Prop :=
  (∀ m, m ∈ ms → above_threshold m) ∧
  (∀ i j a b, i < j → ms !! i = Some a → ms !! j = Some b →
     (Score b <=? Score a)%float = true) ∧
  (Z.of_nat (length ms) ≤ (if (limit <=? 0)%Z then 10 else limit))%Z.

(** The tie-break of the specification, for the candidate identity
    [candidate] ([VolunteerID] when ranking for a need, [NeedID] when
    ranking for a volunteer): of two Matches with equal Scores, the
    earlier has the smaller Distance or, at equal Distances, an identity
    that is not larger. *)
Definition tie_break_ordered (candidate : Match → ObjectID) (ms : list Match) : Prop :=
  ∀ i j a b, i < j → ms !! i = Some a → ms !! j = Some b →
    (Score a =? Score b)%float = true →
    (Distance a <? Distance b)%float = true ∨
    ((Distance a =? Distance b)%float = true ∧ (candidate a ≤ candidate b)%N).

(** The Matches of [ms] whose Score equals [s], in the order of [ms]. *)
Definition with_score (s : float) (ms : list Match) : list Match :=
  List.filter (λ m, (Score m =? s)%float) ms.

(** A zero vector: every component is a zero, of either sign. *)
Definition zero_vector (v : list float) : Prop :=
  Forall (λ x, x = 0%float ∨ x = (-0)%float) v.

(** A location's coordinates in radians, as [calculateDistance] computes
    them. *)
Definition radians (degrees : float) : float := (degrees * math_Pi / 180)%float.

(** ** Concrete data for worked examples *)

(** First-order approximations of the four [math] functions around the
    origin: [sin x ~ x], [cos x ~ 1], [atan2 y x ~ y / x], [exp x ~ 1 + x].
    They agree with Go's functions at the arguments the examples below
    reach ([Sin(0) = 0], [Cos(0) = 1], [Atan2(0, 1) = 0], [Exp(-0) = 1]). *)
Definition first_order_math : MathLib :=
  {| math_Sin := λ x, x;
     math_Cos := λ _, 1%float;
     math_Atan2 := λ y x, (y / x)%float;
     math_Exp := λ x, (1 + x)%float |}.

Definition origin : Location :=
  {| Latitude := 0%float; Longitude := 0%float; H3Index := ""; Address := "" |}.

Definition sample_need (id : ObjectID) (embedding : list float) : Need :=
  {| need_ID := id; need_UserID := 1%N; Title := "Groceries";
     need_Description := "Pick up groceries"; Category := "errands";
     Urgency := "low"; Duration := 30%Z; need_Location := origin;
     Status := "requested"; need_Embedding := embedding;
     need_CreatedAt := 0%Z; need_UpdatedAt := 0%Z; ExpiresAt := None |}.

Definition sample_volunteer (id : ObjectID) (embedding : list float) : Volunteer :=
  {| vol_ID := id; vol_UserID := id; Skills := ["driving"]; Interests := [];
     vol_Description := "Has a car"; vol_Availability := [];
     vol_Location := origin; vol_Embedding := embedding;
     Rating := 0%float; TaskCount := 0%Z; vol_CreatedAt := 0%Z; vol_UpdatedAt := 0%Z |}.

(** ** Further predicates *)

(** Whether the loop of [FindMatchesForNeed] appends a Match for the
    volunteer: it has an embedding, the scorer succeeds, and the combined
    score exceeds the threshold. *)
Definition qualifiesVolunteer (math : MathLib) (need : Need) (volunteer : Volunteer) : bool :=
  negb (length (vol_Embedding volunteer) =? 0)%nat &&
  match Embedding.CalculateSimilarity (need_Embedding need) (vol_Embedding volunteer) with
  | Err _ => false
  | Ok similarity =>
      gtb (similarity
           * Matching.calculateDistanceScore math
               (Matching.calculateDistance math (need_Location need) (vol_Location volunteer)))%float
          threshold
  end.

(** The same for the loop of [FindMatchesForVolunteer]. *)
Definition qualifiesNeed (math : MathLib) (volunteer : Volunteer) (need : Need) : bool :=
  negb (length (need_Embedding need) =? 0)%nat &&
  match Embedding.CalculateSimilarity (vol_Embedding volunteer) (need_Embedding need) with
  | Err _ => false
  | Ok similarity =>
      gtb (similarity
           * Matching.calculateDistanceScore math
               (Matching.calculateDistance math (need_Location need) (vol_Location volunteer)))%float
          threshold
  end.

(** A Match of a ranking for [need] is backed by the volunteer: the
    identifiers are theirs, the volunteer has an embedding on which the
    scorer succeeds, and Distance and Score are the ones the geo scorer
    and the scorer give. *)
Definition backed_by_volunteer (math : MathLib) (need : Need) (m : Match)
    (volunteer : Volunteer) : Prop :=
  NeedID m = need_ID need ∧ VolunteerID m = vol_ID volunteer ∧
  vol_Embedding volunteer ≠ [] ∧
  Distance m = Matching.calculateDistance math (need_Location need) (vol_Location volunteer) ∧
  ∃ similarity,
    Embedding.CalculateSimilarity (need_Embedding need) (vol_Embedding volunteer)
    = Ok similarity ∧
    Score m = (similarity * Matching.calculateDistanceScore math (Distance m))%float.

Definition backed_by_need (math : MathLib) (volunteer : Volunteer) (m : Match)
    (need : Need) : Prop :=
  NeedID m = need_ID need ∧ VolunteerID m = vol_ID volunteer ∧
  need_Embedding need ≠ [] ∧
  Distance m = Matching.calculateDistance math (need_Location need) (vol_Location volunteer) ∧
  ∃ similarity,
    Embedding.CalculateSimilarity (vol_Embedding volunteer) (need_Embedding need)
    = Ok similarity ∧
    Score m = (similarity * Matching.calculateDistanceScore math (Distance m))%float.

(** The ranking [ms] holds the best of the kept candidates: a kept
    candidate is in it, or the ranking is as long as the limit allows and
    none of its Matches scores less than the candidate. *)
Definition best_of (limit : Z) (kept ms : list Match) : Prop :=
  ∀ m, m ∈ kept →
    m ∈ ms ∨
    (Z.of_nat (length ms) = (if (limit <=? 0)%Z then 10 else limit)%Z ∧
     ∀ m', m' ∈ ms → (Score m <=? Score m')%float = true).

(** ** Messages, identifiers and texts *)

(** The greeting that [HandleWebSocket] builds. *)
Definition welcomeMessage (userID : string) : Hub.WebSocketMessage :=
  {| Hub.Type_ := "connected";
     Hub.Payload := <["user_id" := Hub.PString userID]>
                      (<["message" := Hub.PString "Connected to NeighborNexus"]> ∅);
     Hub.msg_UserID := "" |}.

(** The channel [make(chan []byte, 256)] with [greeting] queued. *)
Definition greeted (greeting : option Hub.bytes) : Hub.channel :=
  {| Hub.queue := match greeting with Some data => [data] | None => [] end;
     Hub.capacity := 256;
     Hub.closed := false |}.

(** [primitive.ObjectID.Hex] on identifiers kept as numbers: the twelve
    bytes in lower-case hexadecimal, most significant first. *)
Definition hex_digit (n : N) : Ascii.ascii :=
  default Ascii.zero (String.get (N.to_nat n) "0123456789abcdef").

Fixpoint hex_digits (count : nat) (n : N) (suffix : string) : string :=
  match count with
  | O => suffix
  | S count => hex_digits count (n / 16)%N (String (hex_digit (n mod 16)%N) suffix)
  end.

Definition ObjectID_Hex (id : ObjectID) : string := hex_digits 24 id "".

(** A volunteer whose profile identifier (2) and user identifier (7)
    differ, and a hub with two connections with room: [conn-u] is the
    one of the volunteer's user, [conn-p] is registered under the
    hexadecimal form of the profile identifier. *)
Definition profiled_volunteer : Volunteer :=
  {| vol_ID := 2%N; vol_UserID := 7%N; Skills := ["driving"]; Interests := [];
     vol_Description := "Has a car"; vol_Availability := [];
     vol_Location := origin; vol_Embedding := [1%float];
     Rating := 0%float; TaskCount := 0%Z; vol_CreatedAt := 0%Z; vol_UpdatedAt := 0%Z |}.

Definition volunteer_hub : Hub.WebSocketService :=
  {| Hub.clients :=
       <["conn-u" := {| Hub.ID := "conn-u";
                        Hub.UserID := ObjectID_Hex (vol_UserID profiled_volunteer);
                        Hub.Send := 0 |}]>
         (<["conn-p" := {| Hub.ID := "conn-p";
                           Hub.UserID := ObjectID_Hex (vol_ID profiled_volunteer);
                           Hub.Send := 1 |}]> ∅);
     Hub.chans :=
       <[0 := {| Hub.queue := []; Hub.capacity := 256; Hub.closed := false |}]>
         (<[1 := {| Hub.queue := []; Hub.capacity := 256; Hub.closed := false |}]> ∅) |}.


(** An ASCII letter. *)
Definition is_letter (a : Ascii.ascii) : bool :=
  let n := Ascii.nat_of_ascii a in
  ((65 <=? n) && (n <=? 90) || (97 <=? n) && (n <=? 122))%nat.

(** What is used of [strings.TrimSpace]: it removes white space only, so
    a text that starts with a letter keeps it and does not become
    empty. *)
Definition keeps_letters (trim : string → string) : Prop :=
  ∀ a text, is_letter a = true → trim (String a text) ≠ "".

(** * Properties *)

(** ** Comparison of binary64 numbers *)

Lemma SFcompare_key x y :
  SFis_nan x = false → SFis_nan y = false →
  SFcompare x y = Some (key_compare (SFkey x) (SFkey y)).
Proof.
  destruct x as [[]|[]| |[] m1 e1], y as [[]|[]| |[] m2 e2]; simpl; try done; intros _ _.
  destruct (Z.compare_spec e1 e2) as [->|H|H].
  - rewrite Z.compare_refl. reflexivity.
  - assert ((- e1 ?= - e2)%Z = Gt) as -> by (apply Z.compare_gt_iff; lia). done.
  - assert ((- e1 ?= - e2)%Z = Lt) as -> by (apply Z.compare_lt_iff; lia). done.
Qed.

Lemma key_compare_refl k : key_compare k k = Eq.
Proof. destruct k as [[a b] c]. simpl. by rewrite !Z.compare_refl. Qed.

Lemma key_compare_Lt_trans k1 k2 k3 :
  key_compare k1 k2 = Lt → key_compare k2 k3 = Lt → key_compare k1 k3 = Lt.
Proof.
  destruct k1 as [[a1 b1] c1], k2 as [[a2 b2] c2], k3 as [[a3 b3] c3]. simpl.
  destruct (Z.compare_spec a1 a2), (Z.compare_spec a2 a3), (Z.compare_spec a1 a3);
    try done; try lia;
  destruct (Z.compare_spec b1 b2), (Z.compare_spec b2 b3), (Z.compare_spec b1 b3);
    try done; try lia;
  rewrite ?Z.compare_lt_iff; lia.
Qed.

Lemma key_compare_nLt_trans k1 k2 k3 :
  key_compare k1 k2 ≠ Lt → key_compare k2 k3 ≠ Lt → key_compare k1 k3 ≠ Lt.
Proof.
  destruct k1 as [[a1 b1] c1], k2 as [[a2 b2] c2], k3 as [[a3 b3] c3]. simpl.
  destruct (Z.compare_spec a1 a2), (Z.compare_spec a2 a3), (Z.compare_spec a1 a3);
    try done; try lia;
  destruct (Z.compare_spec b1 b2), (Z.compare_spec b2 b3), (Z.compare_spec b1 b3);
    try done; try lia;
  rewrite ?Z.compare_lt_iff; lia.
Qed.

Lemma key_compare_antisym k1 k2 : key_compare k2 k1 = CompOpp (key_compare k1 k2).
Proof.
  destruct k1 as [[a1 b1] c1], k2 as [[a2 b2] c2]. simpl.
  rewrite (Z.compare_antisym a1 a2), (Z.compare_antisym b1 b2), (Z.compare_antisym c1 c2).
  by destruct (a1 ?= a2)%Z, (b1 ?= b2)%Z.
Qed.

Lemma is_nan_spec x : is_nan x = SFis_nan (Prim2SF x).
Proof.
  unfold is_nan. rewrite FloatAxioms.eqb_spec. unfold SFeqb.
  destruct (SFis_nan (Prim2SF x)) eqn:E.
  - destruct (Prim2SF x); try done.
  - rewrite SFcompare_key by done. by rewrite key_compare_refl.
Qed.

Lemma ltb_key x y :
  is_nan x = false → is_nan y = false →
  (x <? y)%float =
    match key_compare (SFkey (Prim2SF x)) (SFkey (Prim2SF y)) with
    | Lt => true
    | _ => false
    end.
Proof.
  rewrite !is_nan_spec. intros Hx Hy. rewrite FloatAxioms.ltb_spec. unfold SFltb.
  by rewrite SFcompare_key.
Qed.

Lemma leb_key x y :
  is_nan x = false → is_nan y = false →
  (x <=? y)%float =
    match key_compare (SFkey (Prim2SF x)) (SFkey (Prim2SF y)) with
    | Gt => false
    | _ => true
    end.
Proof.
  rewrite !is_nan_spec. intros Hx Hy. rewrite FloatAxioms.leb_spec. unfold SFleb.
  rewrite SFcompare_key by done. by destruct key_compare.
Qed.

Lemma eqb_key x y :
  is_nan x = false → is_nan y = false →
  (x =? y)%float =
    match key_compare (SFkey (Prim2SF x)) (SFkey (Prim2SF y)) with
    | Eq => true
    | _ => false
    end.
Proof.
  rewrite !is_nan_spec. intros Hx Hy. rewrite FloatAxioms.eqb_spec. unfold SFeqb.
  by rewrite SFcompare_key.
Qed.

Lemma ltb_not_nan x y : (x <? y)%float = true → is_nan x = false ∧ is_nan y = false.
Proof.
  rewrite FloatAxioms.ltb_spec, !is_nan_spec. unfold SFltb.
  destruct (Prim2SF x), (Prim2SF y); simpl; try done.
Qed.

Lemma eqb_not_nan x y : (x =? y)%float = true → is_nan x = false ∧ is_nan y = false.
Proof.
  rewrite FloatAxioms.eqb_spec, !is_nan_spec. unfold SFeqb.
  destruct (Prim2SF x), (Prim2SF y); simpl; try done.
Qed.

Lemma ltb_irrefl x : (x <? x)%float = false.
Proof.
  destruct (is_nan x) eqn:E.
  - destruct (x <? x)%float eqn:H; [|done]. apply ltb_not_nan in H. destruct H; congruence.
  - rewrite ltb_key by done. by rewrite key_compare_refl.
Qed.

Lemma ltb_trans x y z :
  (x <? y)%float = true → (y <? z)%float = true → (x <? z)%float = true.
Proof.
  intros H1 H2.
  destruct (ltb_not_nan _ _ H1) as [Hx Hy], (ltb_not_nan _ _ H2) as [_ Hz].
  rewrite ltb_key in * by done.
  destruct (key_compare (SFkey (Prim2SF x)) (SFkey (Prim2SF y))) eqn:E1; try done.
  destruct (key_compare (SFkey (Prim2SF y)) (SFkey (Prim2SF z))) eqn:E2; try done.
  by rewrite (key_compare_Lt_trans _ _ _ E1 E2).
Qed.

Lemma ltb_neg_trans x y z :
  is_nan x = false → is_nan y = false → is_nan z = false →
  (x <? y)%float = false → (y <? z)%float = false → (x <? z)%float = false.
Proof.
  intros Hx Hy Hz. rewrite !ltb_key by done. intros H1 H2.
  pose proof (key_compare_nLt_trans
    (SFkey (Prim2SF x)) (SFkey (Prim2SF y)) (SFkey (Prim2SF z))) as H.
  destruct (key_compare (SFkey (Prim2SF x)) (SFkey (Prim2SF y))); try done;
  destruct (key_compare (SFkey (Prim2SF y)) (SFkey (Prim2SF z))); try done;
  destruct (key_compare (SFkey (Prim2SF x)) (SFkey (Prim2SF z))); try done;
  exfalso; by apply H.
Qed.

Lemma not_ltb_leb x y :
  is_nan x = false → is_nan y = false → (x <? y)%float = false → (y <=? x)%float = true.
Proof.
  intros Hx Hy. rewrite ltb_key, leb_key by done.
  rewrite (key_compare_antisym (SFkey (Prim2SF x))).
  by destruct key_compare.
Qed.

Lemma eqb_not_ltb x y s :
  (x =? s)%float = true → (y =? s)%float = true → (x <? y)%float = false.
Proof.
  intros H1 H2.
  destruct (eqb_not_nan _ _ H1) as [Hx Hs], (eqb_not_nan _ _ H2) as [Hy _].
  rewrite eqb_key in H1, H2 by done. rewrite ltb_key by done.
  pose proof (key_compare_nLt_trans
    (SFkey (Prim2SF x)) (SFkey (Prim2SF s)) (SFkey (Prim2SF y))) as H.
  rewrite (key_compare_antisym (SFkey (Prim2SF y)) (SFkey (Prim2SF s))) in H.
  destruct (key_compare (SFkey (Prim2SF x)) (SFkey (Prim2SF s))); try done.
  destruct (key_compare (SFkey (Prim2SF y)) (SFkey (Prim2SF s))); try done.
  destruct (key_compare (SFkey (Prim2SF x)) (SFkey (Prim2SF y))); try done.
  exfalso. by apply H.
Qed.

(** ** Insertion sort meets the contract of [sort.Slice] *)

Section InsertionSort.

Context {A : Type}.
Variable less : A → A → bool.

Lemma insert_left_perm x rp : insert_left less x rp ≡ₚ x :: rp.
Proof.
  induction rp as [|y rest IH]; simpl; [done|].
  destruct (less x y); [|done].
  rewrite IH. apply Permutation_swap.
Qed.

Lemma insertion_fold_perm data rp :
  fold_left (λ rp x, insert_left less x rp) data rp ≡ₚ rev data ++ rp.
Proof.
  revert rp. induction data as [|x data IH]; intros rp; simpl; [done|].
  rewrite IH, insert_left_perm, <- app_assoc. done.
Qed.

Lemma insertionSort_func_perm data : insertionSort_func less data ≡ₚ data.
Proof.
  unfold insertionSort_func.
  rewrite <- Permutation_rev, insertion_fold_perm, app_nil_r.
  by rewrite <- Permutation_rev.
Qed.

Lemma insert_left_rsorted (ok : A → Prop) x rp :
  (∀ a, ok a → less a a = false) →
  (∀ a b c, ok a → ok b → ok c → less a b = true → less b c = true → less a c = true) →
  (∀ a b c, ok a → ok b → ok c → less a b = false → less b c = false → less a c = false) →
  ok x → Forall ok rp → rsorted less rp → rsorted less (insert_left less x rp).
Proof.
  intros Hirr Htr Hneg Hx. induction rp as [|y rest IH]; simpl; intros Hok Hs.
  { done. }
  destruct Hs as [Hy Hs].
  apply Forall_cons in Hok as [Hoky Hokr].
  destruct (less x y) eqn:Hxy; simpl.
  - split; [|by apply IH].
    rewrite insert_left_perm. constructor; [|done].
    destruct (less y x) eqn:Hyx; [|done].
    pose proof (Hirr x Hx) as Hxx. by rewrite (Htr x y x) in Hxx.
  - repeat split; [|done..]. constructor; [done|].
    rewrite Forall_forall in Hy, Hokr. apply Forall_forall. intros z Hz.
    apply (Hneg x y z); auto.
Qed.

Lemma insertion_fold_rsorted (ok : A → Prop) data rp :
  (∀ a, ok a → less a a = false) →
  (∀ a b c, ok a → ok b → ok c → less a b = true → less b c = true → less a c = true) →
  (∀ a b c, ok a → ok b → ok c → less a b = false → less b c = false → less a c = false) →
  Forall ok data → Forall ok rp → rsorted less rp →
  rsorted less (fold_left (λ rp x, insert_left less x rp) data rp).
Proof.
  intros Hirr Htr Hneg. revert rp.
  induction data as [|x data IH]; intros rp Hd Hrp Hs; simpl; [done|].
  apply Forall_cons in Hd as [Hx Hd].
  apply IH; [done| |by apply (insert_left_rsorted ok)].
  rewrite insert_left_perm. by constructor.
Qed.

Lemma rsorted_lookup rp i j a b :
  rsorted less rp → i < j → rp !! i = Some a → rp !! j = Some b → less a b = false.
Proof.
  revert i j. induction rp as [|y rest IH]; intros i j Hs Hij Hi Hj; [done|].
  destruct Hs as [Hy Hs].
  destruct i as [|i], j as [|j]; try lia; simpl in *.
  - injection Hi as ->. rewrite Forall_forall in Hy.
    apply Hy. by apply list_elem_of_lookup_2 in Hj.
  - apply (IH i j); auto with lia.
Qed.

(** An element never moves past one it is not less than: elements of a
    class in which nothing is less than anything keep their order. *)
Lemma insert_left_filter (P : A → bool) x rp :
  (∀ a b, P a = true → P b = true → less a b = false) →
  List.filter P (insert_left less x rp) = List.filter P (x :: rp).
Proof.
  intros HP. induction rp as [|y rest IH]; [done|].
  simpl. destruct (less x y) eqn:Hxy; [|done].
  simpl. rewrite IH. simpl.
  destruct (P x) eqn:Px, (P y) eqn:Py; try done.
  by rewrite (HP x y) in Hxy.
Qed.

Lemma insertion_fold_filter (P : A → bool) data rp :
  (∀ a b, P a = true → P b = true → less a b = false) →
  List.filter P (fold_left (λ rp x, insert_left less x rp) data rp)
  = rev (List.filter P data) ++ List.filter P rp.
Proof.
  intros HP. revert rp. induction data as [|x data IH]; intros rp; [done|].
  simpl. rewrite IH, insert_left_filter by done. simpl.
  destruct (P x); simpl; [|done]. by rewrite <- app_assoc.
Qed.

Lemma insertionSort_func_stable (P : A → bool) data :
  (∀ a b, P a = true → P b = true → less a b = false) →
  List.filter P (insertionSort_func less data) = List.filter P data.
Proof.
  intros HP. unfold insertionSort_func.
  rewrite <- (rev_involutive (List.filter P (rev _))).
  rewrite <- (List.filter_rev P), rev_involutive.
  rewrite insertion_fold_filter by done.
  by rewrite app_nil_r, rev_involutive.
Qed.

End InsertionSort.

Lemma insertionSort_func_spec : sort_Slice_spec insertionSort_func.
Proof.
  split.
  - intros less l. apply insertionSort_func_perm.
  - intros less l (Hirr & Htr & Hneg) i j a b Hij Hi Hj.
    unfold insertionSort_func in Hi, Hj.
    set (rp := fold_left _ l []) in *.
    assert (rsorted less rp) as Hs.
    { apply (insertion_fold_rsorted less (λ a, a ∈ l)); auto; [|done].
      by apply Forall_forall. }
    assert (length rp = length l) as Hlen.
    { unfold rp. by rewrite insertion_fold_perm, app_nil_r, length_rev. }
    rewrite rev_alt in Hi, Hj.
    apply (reverse_lookup_Some rp) in Hi as [Hi Hi'], Hj as [Hj Hj'].
    apply (rsorted_lookup less rp (length rp - S j) (length rp - S i)); auto with lia.
Qed.

(** ** The match ranker: threshold, order, length *)

Section RankerFacts.

Variable math : MathLib.
Variable srt : sorter.
Variable now : nat → Time.
Hypothesis srt_spec : sort_Slice_spec srt.

Lemma scoreVolunteer_above need matches volunteer :
  Forall above_threshold matches →
  Forall above_threshold (Matching.scoreVolunteer math now need matches volunteer).
Proof.
  intros H. unfold Matching.scoreVolunteer.
  destruct (_ =? 0)%nat; [done|].
  destruct (Embedding.CalculateSimilarity _ _) as [similarity|]; [|done].
  destruct (gtb _ threshold) eqn:Hgt; [|done].
  apply Forall_app. split; [done|]. by constructor.
Qed.

Lemma scoreNeed_above volunteer matches need :
  Forall above_threshold matches →
  Forall above_threshold (Matching.scoreNeed math now volunteer matches need).
Proof.
  intros H. unfold Matching.scoreNeed.
  destruct (_ =? 0)%nat; [done|].
  destruct (Embedding.CalculateSimilarity _ _) as [similarity|]; [|done].
  destruct (gtb _ threshold) eqn:Hgt; [|done].
  apply Forall_app. split; [done|]. by constructor.
Qed.

Lemma fold_above {C} (step : list Match → C → list Match) pool matches :
  (∀ ms c, Forall above_threshold ms → Forall above_threshold (step ms c)) →
  Forall above_threshold matches →
  Forall above_threshold (fold_left step pool matches).
Proof.
  intros Hstep. revert matches.
  induction pool as [|c pool IH]; intros matches H; simpl; auto.
Qed.

Lemma above_threshold_not_nan m : above_threshold m → is_nan (Score m) = false.
Proof. intros H. by apply ltb_not_nan in H as [_ ?]. Qed.

(** On matches above the threshold no score is a NaN, and comparing
    scores is the transitive ordering that [sort.Slice] requires. *)
Lemma byScoreDesc_ordering l :
  Forall above_threshold l → transitive_ordering Matching.byScoreDesc l.
Proof.
  rewrite Forall_forall. intros H. unfold Matching.byScoreDesc, gtb.
  repeat split.
  - intros a _. apply ltb_irrefl.
  - intros a b c _ _ _ Hab Hbc. by apply (ltb_trans _ (Score b)).
  - intros a b c Ha Hb Hc Hab Hbc.
    apply (ltb_neg_trans _ (Score b)); auto using above_threshold_not_nan.
Qed.

Lemma topMatches_ranked limit kept :
  Forall above_threshold kept →
  ranked limit (Matching.topMatches (Matching.effectiveLimit limit)
                  (srt Matching.byScoreDesc kept)).
Proof.
  intros Hkept.
  set (sorted := srt Matching.byScoreDesc kept).
  assert (Forall above_threshold sorted) as Habove.
  { unfold sorted. by rewrite (sort_Slice_perm _ srt_spec). }
  assert (sorted_by Matching.byScoreDesc sorted) as Hsorted.
  { apply (sort_Slice_sorted _ srt_spec). by apply byScoreDesc_ordering. }
  assert (∀ i j a b, i < j → sorted !! i = Some a → sorted !! j = Some b →
            (Score b <=? Score a)%float = true) as Hdesc.
  { intros i j a b Hij Hi Hj.
    rewrite Forall_forall in Habove.
    apply not_ltb_leb.
    - apply above_threshold_not_nan, Habove. by apply list_elem_of_lookup_2 in Hi.
    - apply above_threshold_not_nan, Habove. by apply list_elem_of_lookup_2 in Hj.
    - exact (Hsorted i j a b Hij Hi Hj). }
  unfold ranked, Matching.topMatches, Matching.effectiveLimit.
  destruct (Z.of_nat (length sorted) >? _)%Z eqn:Hlen.
  - repeat split.
    + intros m Hm. rewrite Forall_forall in Habove. apply Habove.
      apply list_elem_of_lookup in Hm as [i Hi].
      apply lookup_take_Some in Hi as [Hi _]. by apply list_elem_of_lookup_2 in Hi.
    + intros i j a b Hij Hi Hj.
      apply lookup_take_Some in Hi as [Hi _], Hj as [Hj _]. eauto.
    + rewrite length_take. destruct (limit <=? 0)%Z eqn:Hl; lia.
  - repeat split.
    + intros m Hm. rewrite Forall_forall in Habove. by apply Habove.
    + done.
    + lia.
Qed.

End RankerFacts.

(** C1. For every need (and, symmetrically, volunteer), candidate pool
    and limit, and for every [sort.Slice] that keeps its contract: the
    ranking is returned, every Match in it has a Score strictly greater
    than 0.3, Scores never increase along the list, and the list has at
    most [limit] entries, where [limit] counts as 10 when the caller
    passes a value that is zero or negative. *)
Theorem ranking_above_threshold_sorted_bounded :
  ∀ (math : MathLib) (srt : sorter) (now : nat → Time),
    sort_Slice_spec srt →
    (∀ need volunteers limit, ∃ ms,
        Matching.FindMatchesForNeed math srt now (Ok volunteers) need limit = Ok ms
        ∧ ranked limit ms) ∧
    (∀ volunteer needs limit, ∃ ms,
        Matching.FindMatchesForVolunteer math srt now (Ok needs) volunteer limit = Ok ms
        ∧ ranked limit ms).
Proof.
  intros math srt now Hsrt. split.
  - intros need volunteers limit. eexists. split; [reflexivity|].
    apply topMatches_ranked; [done|].
    apply fold_above; [|constructor].
    intros. by apply scoreVolunteer_above.
  - intros volunteer needs limit. eexists. split; [reflexivity|].
    apply topMatches_ranked; [done|].
    apply fold_above; [|constructor].
    intros. by apply scoreNeed_above.
Qed.

(** The theorem above at a pool of four volunteers (two of them
    matchable) and limit 1, with insertion sort for [sort.Slice]. *)
Lemma ranking_above_threshold_sorted_bounded_witness :
  sort_Slice_spec insertionSort_func ∧
  ∃ ms,
    Matching.FindMatchesForNeed first_order_math insertionSort_func Z.of_nat
      (Ok [sample_volunteer 2 [1%float]; sample_volunteer 1 [1%float];
           sample_volunteer 3 []; sample_volunteer 4 [1%float; 0%float]])
      (sample_need 100 [1%float]) 1 = Ok ms
    ∧ ranked 1 ms.
Proof.
  split; [exact insertionSort_func_spec|].
  exact (proj1 (ranking_above_threshold_sorted_bounded
                  first_order_math insertionSort_func Z.of_nat insertionSort_func_spec)
               (sample_need 100 [1%float]) _ 1%Z).
Defined.

(** ** The match ranker: ties *)

(** C4, as stated, fails. Two volunteers with the same embedding at the
    same place get the same Score and the same Distance; the ranker
    returns them in the order of the pool, here the larger identity
    first, and swapping them in the pool swaps them in the ranking. *)
Lemma tie_break_counterexample :
  let need := sample_need 100 [1%float] in
  let pool := [sample_volunteer 2 [1%float]; sample_volunteer 1 [1%float]] in
  let ranking :=
    [ {| NeedID := 100; VolunteerID := 2; Score := 1; Distance := 0; CreatedAt := 0 |};
      {| NeedID := 100; VolunteerID := 1; Score := 1; Distance := 0; CreatedAt := 1 |} ] in
  Matching.FindMatchesForNeed first_order_math insertionSort_func Z.of_nat
    (Ok pool) need 10 = Ok ranking
  ∧ ¬ tie_break_ordered VolunteerID ranking
  ∧ (∃ ranking',
       Matching.FindMatchesForNeed first_order_math insertionSort_func Z.of_nat
         (Ok (rev pool)) need 10 = Ok ranking'
       ∧ VolunteerID <$> ranking' = [1%N; 2%N]).
Proof.
  cbv zeta. split; [by vm_compute|]. split.
  - intros H.
    destruct (H 0 1 _ _ ltac:(lia) eq_refl eq_refl eq_refl) as [H1|[_ H2]].
    + by vm_compute in H1.
    + simpl in H2. lia.
  - eexists. split; by vm_compute.
Qed.

Lemma with_score_take s n ms : with_score s (take n ms) `prefix_of` with_score s ms.
Proof.
  exists (with_score s (drop n ms)). unfold with_score.
  by rewrite <- List.filter_app, take_drop.
Qed.

Lemma with_score_topMatches s limit ms :
  with_score s (Matching.topMatches limit ms) `prefix_of` with_score s ms.
Proof.
  unfold Matching.topMatches. destruct (_ >? _)%Z; [apply with_score_take|done].
Qed.

Lemma with_score_insertionSort s ms :
  with_score s (insertionSort_func Matching.byScoreDesc ms) = with_score s ms.
Proof.
  apply insertionSort_func_stable. intros a b Ha Hb.
  unfold Matching.byScoreDesc, gtb. by apply (eqb_not_ltb _ _ s).
Qed.

Lemma scoreVolunteer_ids math now need matches volunteer :
  ∃ new, Matching.scoreVolunteer math now need matches volunteer = matches ++ new
         ∧ VolunteerID <$> new `sublist_of` [vol_ID volunteer].
Proof.
  unfold Matching.scoreVolunteer.
  destruct (_ =? 0)%nat;
    [exists []; split; [by rewrite app_nil_r|apply sublist_nil_l]|].
  destruct (Embedding.CalculateSimilarity _ _);
    [|exists []; split; [by rewrite app_nil_r|apply sublist_nil_l]].
  destruct (gtb _ _);
    [|exists []; split; [by rewrite app_nil_r|apply sublist_nil_l]].
  eexists [_]. split; [done|]. done.
Qed.

Lemma scoreNeed_ids math now volunteer matches need :
  ∃ new, Matching.scoreNeed math now volunteer matches need = matches ++ new
         ∧ NeedID <$> new `sublist_of` [need_ID need].
Proof.
  unfold Matching.scoreNeed.
  destruct (_ =? 0)%nat;
    [exists []; split; [by rewrite app_nil_r|apply sublist_nil_l]|].
  destruct (Embedding.CalculateSimilarity _ _);
    [|exists []; split; [by rewrite app_nil_r|apply sublist_nil_l]].
  destruct (gtb _ _);
    [|exists []; split; [by rewrite app_nil_r|apply sublist_nil_l]].
  eexists [_]. split; [done|]. done.
Qed.

Lemma fold_ids {C} (step : list Match → C → list Match)
    (candidate : Match → ObjectID) (id : C → ObjectID) pool matches :
  (∀ ms c, ∃ new, step ms c = ms ++ new ∧ candidate <$> new `sublist_of` [id c]) →
  ∃ new, fold_left step pool matches = matches ++ new
         ∧ candidate <$> new `sublist_of` id <$> pool.
Proof.
  intros Hstep. revert matches.
  induction pool as [|c pool IH]; intros matches; simpl.
  - exists []. by rewrite app_nil_r.
  - destruct (Hstep matches c) as (new1 & -> & H1).
    destruct (IH (matches ++ new1)) as (new2 & -> & H2).
    exists (new1 ++ new2). rewrite <- app_assoc. split; [done|].
    rewrite fmap_app. by apply (sublist_app _ [id c]).
Qed.

(** C4, amended. The ranker orders Matches by Score alone. Where
    [sort.Slice] runs its insertion sort (the path it takes for a short
    slice), Matches with equal Scores stay in the order in which the
    candidate pool listed them: for every score [s], the Matches of the
    ranking with Score [s] are the first of the kept candidates with Score
    [s], in pool order; neither Distance nor identity plays a part. *)
Theorem equal_scores_keep_pool_order :
  ∀ (math : MathLib) (now : nat → Time),
    (∀ need volunteers limit, ∃ ms,
        Matching.FindMatchesForNeed math insertionSort_func now
          (Ok volunteers) need limit = Ok ms
        ∧ (∀ s, with_score s ms
                `prefix_of` with_score s (Matching.keptVolunteers math now need volunteers))
        ∧ VolunteerID <$> Matching.keptVolunteers math now need volunteers
            `sublist_of` vol_ID <$> volunteers) ∧
    (∀ volunteer needs limit, ∃ ms,
        Matching.FindMatchesForVolunteer math insertionSort_func now
          (Ok needs) volunteer limit = Ok ms
        ∧ (∀ s, with_score s ms
                `prefix_of` with_score s (Matching.keptNeeds math now volunteer needs))
        ∧ NeedID <$> Matching.keptNeeds math now volunteer needs
            `sublist_of` need_ID <$> needs).
Proof.
  intros math now. split.
  - intros need volunteers limit. eexists. split; [reflexivity|]. split.
    + intros s. rewrite <- (with_score_insertionSort s (Matching.keptVolunteers _ _ _ _)).
      apply with_score_topMatches.
    + destruct (fold_ids (Matching.scoreVolunteer math now need) VolunteerID vol_ID
                  volunteers []) as (new & Hnew & Hsub).
      { apply scoreVolunteer_ids. }
      unfold Matching.keptVolunteers. by rewrite Hnew.
  - intros volunteer needs limit. eexists. split; [reflexivity|]. split.
    + intros s. rewrite <- (with_score_insertionSort s (Matching.keptNeeds _ _ _ _)).
      apply with_score_topMatches.
    + destruct (fold_ids (Matching.scoreNeed math now volunteer) NeedID need_ID
                  needs []) as (new & Hnew & Hsub).
      { apply scoreNeed_ids. }
      unfold Matching.keptNeeds. by rewrite Hnew.
Qed.

(** ** The match ranker: failures *)

Lemma scoreVolunteer_skip math now need matches volunteer :
  is_Err (Embedding.CalculateSimilarity (need_Embedding need) (vol_Embedding volunteer)) = true →
  Matching.scoreVolunteer math now need matches volunteer = matches.
Proof.
  intros H. unfold Matching.scoreVolunteer.
  destruct (_ =? 0)%nat; [done|]. by destruct (Embedding.CalculateSimilarity _ _).
Qed.

Lemma scoreNeed_skip math now volunteer matches need :
  is_Err (Embedding.CalculateSimilarity (vol_Embedding volunteer) (need_Embedding need)) = true →
  Matching.scoreNeed math now volunteer matches need = matches.
Proof.
  intros H. unfold Matching.scoreNeed.
  destruct (_ =? 0)%nat; [done|]. by destruct (Embedding.CalculateSimilarity _ _).
Qed.

Lemma scoreVolunteer_empty_need math now need matches volunteer :
  need_Embedding need = [] →
  Matching.scoreVolunteer math now need matches volunteer = matches.
Proof.
  intros Hneed. unfold Matching.scoreVolunteer.
  destruct (_ =? 0)%nat eqn:Hlen; [done|].
  unfold Embedding.CalculateSimilarity. rewrite Hneed. simpl.
  apply Nat.eqb_neq in Hlen.
  destruct (vol_Embedding volunteer); [done|]. done.
Qed.

Lemma scoreNeed_empty_volunteer math now volunteer matches need :
  vol_Embedding volunteer = [] →
  Matching.scoreNeed math now volunteer matches need = matches.
Proof.
  intros Hvol. unfold Matching.scoreNeed.
  destruct (_ =? 0)%nat eqn:Hlen; [done|].
  unfold Embedding.CalculateSimilarity. rewrite Hvol. simpl.
  apply Nat.eqb_neq in Hlen.
  destruct (need_Embedding need); [done|]. done.
Qed.

Lemma fold_skip {C} (step : list Match → C → list Match) pool matches :
  (∀ ms c, step ms c = ms) → fold_left step pool matches = matches.
Proof.
  intros Hstep. induction pool as [|c pool IH]; simpl; [done|]. by rewrite Hstep.
Qed.

Lemma topMatches_nil limit : Matching.topMatches limit [] = [].
Proof. unfold Matching.topMatches. destruct (_ >? _)%Z; [apply firstn_nil|done]. Qed.

(** C10. When the entity ranked for has no embedding and the pool is
    fetched, every candidate is skipped (it has no embedding itself, or
    the scorer fails on the empty or mismatched subject embedding) and the
    ranking returned is empty, with no error. *)
Theorem ranking_without_subject_embedding_is_empty :
  ∀ (math : MathLib) (srt : sorter) (now : nat → Time),
    sort_Slice_spec srt →
    (∀ need volunteers limit,
        need_Embedding need = [] →
        (∀ matches volunteer,
            Matching.scoreVolunteer math now need matches volunteer = matches) ∧
        Matching.FindMatchesForNeed math srt now (Ok volunteers) need limit = Ok []) ∧
    (∀ volunteer needs limit,
        vol_Embedding volunteer = [] →
        (∀ matches need,
            Matching.scoreNeed math now volunteer matches need = matches) ∧
        Matching.FindMatchesForVolunteer math srt now (Ok needs) volunteer limit = Ok []).
Proof.
  intros math srt now Hsrt.
  assert (srt Matching.byScoreDesc [] = []) as Hnil.
  { apply Permutation_nil_r. by rewrite (sort_Slice_perm _ Hsrt). }
  split.
  - intros need volunteers limit Hneed. split.
    + intros. by apply scoreVolunteer_empty_need.
    + unfold Matching.FindMatchesForNeed, Matching.keptVolunteers.
      rewrite fold_skip by (intros; by apply scoreVolunteer_empty_need).
      by rewrite Hnil, topMatches_nil.
  - intros volunteer needs limit Hvol. split.
    + intros. by apply scoreNeed_empty_volunteer.
    + unfold Matching.FindMatchesForVolunteer, Matching.keptNeeds.
      rewrite fold_skip by (intros; by apply scoreNeed_empty_volunteer).
      by rewrite Hnil, topMatches_nil.
Qed.

(** The theorem above for a need without embedding and a pool of three. *)
Lemma ranking_without_subject_embedding_is_empty_witness :
  sort_Slice_spec insertionSort_func ∧
  need_Embedding (sample_need 100 []) = [] ∧
  Matching.FindMatchesForNeed first_order_math insertionSort_func Z.of_nat
    (Ok [sample_volunteer 2 [1%float]; sample_volunteer 3 [];
         sample_volunteer 4 [1%float; 0%float]])
    (sample_need 100 []) 5 = Ok [].
Proof.
  split; [exact insertionSort_func_spec|]. split; [reflexivity|].
  exact (proj2 (proj1 (ranking_without_subject_embedding_is_empty
                         first_order_math insertionSort_func Z.of_nat
                         insertionSort_func_spec)
                      (sample_need 100 []) _ 5%Z eq_refl)).
Defined.

(** ** The similarity scorer *)

Lemma accumulate_norms a b dot n1 n2 :
  length a = length b →
  Embedding.accumulate a b (dot, n1, n2)
  = (fold_left (λ acc xy, (acc + mul32 xy.1 xy.2)%float) (zip a b) dot,
     fold_left (λ acc x, (acc + mul32 x x)%float) a n1,
     fold_left (λ acc x, (acc + mul32 x x)%float) b n2).
Proof.
  revert b dot n1 n2. induction a as [|x a IH]; intros [|y b] dot n1 n2 Hlen;
    simpl in *; try done.
  apply IH. lia.
Qed.

Lemma sum_squares_zero v : zero_vector v → Embedding.sum_squares v = 0%float.
Proof.
  unfold Embedding.sum_squares. induction 1 as [|x v [->| ->] _ IH]; [done|..]; apply IH.
Qed.

(** C5. [CalculateSimilarity] fails with the dimension-mismatch error
    whenever the two vectors differ in length. On two non-empty vectors of
    one length it returns 0 and no error whenever the norm of either, as
    the function computes it, is zero; and the norm of a zero vector is
    zero. *)
Theorem similarity_dimension_mismatch_and_zero_norm :
  (∀ a b, length a ≠ length b →
     Embedding.CalculateSimilarity a b
     = Err (ErrorString "embedding dimensions do not match")) ∧
  (∀ a b, length a = length b → a ≠ [] →
     (Embedding.norm a =? 0)%float = true ∨ (Embedding.norm b =? 0)%float = true →
     Embedding.CalculateSimilarity a b = Ok 0%float) ∧
  (∀ v, zero_vector v → (Embedding.norm v =? 0)%float = true).
Proof.
  repeat split.
  - intros a b Hlen. unfold Embedding.CalculateSimilarity.
    apply Nat.eqb_neq in Hlen. by rewrite Hlen.
  - intros a b Hlen Ha Hzero. unfold Embedding.CalculateSimilarity.
    rewrite Hlen, Nat.eqb_refl. simpl.
    destruct (length b =? 0)%nat eqn:Hb.
    { apply Nat.eqb_eq in Hb. rewrite <- Hlen in Hb. by destruct a. }
    rewrite accumulate_norms by done.
    fold (Embedding.sum_squares a) (Embedding.sum_squares b).
    fold (Embedding.norm a) (Embedding.norm b).
    by destruct Hzero as [-> | ->]; [|rewrite orb_true_r].
  - intros v Hv. unfold Embedding.norm. by rewrite sum_squares_zero.
Qed.

(** The theorem above at vectors of lengths 2 and 3, and at a zero vector
    against a non-zero one. *)
Lemma similarity_dimension_mismatch_and_zero_norm_witness :
  Embedding.CalculateSimilarity [1; 2]%float [1; 2; 3]%float
  = Err (ErrorString "embedding dimensions do not match") ∧
  Embedding.CalculateSimilarity [0; -0]%float [3; 4]%float = Ok 0%float.
Proof.
  split.
  - apply (proj1 similarity_dimension_mismatch_and_zero_norm). simpl. lia.
  - apply (proj1 (proj2 similarity_dimension_mismatch_and_zero_norm)); [done..|].
    left. apply (proj2 (proj2 similarity_dimension_mismatch_and_zero_norm)).
    apply Forall_cons. split; [by left|].
    apply Forall_cons. split; [by right|]. apply Forall_nil_2.
Defined.

(** C2 does not hold of the code. The private [sqrt] stops after ten
    Newton steps from [z = x], which is far from the root unless [x] is
    near 1; the similarity of a vector with itself then falls short of 1.
    For the one-component vector [2000] the norm comes out as 4241.76...
    and the similarity as 0.2223...; for [2^-12] the similarity is
    0.0599.... A vector of norm 1 does give 1. *)
Theorem self_similarity_off_unit_norm :
  round32 2000 = 2000%float ∧
  Embedding.norm [2000%float] = 0x1.091c34f3a259dp+12%float ∧
  Embedding.CalculateSimilarity [2000%float] [2000%float]
  = Ok 0x1.c74cab1246f74p-3%float ∧
  (0x1.c74cab1246f74p-3 <? 0x1p-2)%float = true ∧
  Embedding.CalculateSimilarity [0x1p-12%float] [0x1p-12%float]
  = Ok 0x1.eb65fc0e3f7a8p-5%float ∧
  Embedding.CalculateSimilarity [1%float] [1%float] = Ok 1%float.
Proof. repeat split; by vm_compute. Qed.

(** ** The notification hub *)

Section HubFacts.

Import Hub.

Lemma wf_empty : wf NewWebSocketService.
Proof.
  split; simpl; [intros key client H|intros key1 key2 client1 client2 H];
    by rewrite lookup_empty in H.
Qed.

Lemma wf_evict ws key client ch :
  wf ws → clients ws !! key = Some client → chans ws !! Send client = Some ch →
  wf {| clients := delete key (clients ws);
        chans := <[Send client := close ch]> (chans ws) |}.
Proof.
  intros [Hreg Hinj] Hkey Hch. split; simpl.
  - intros key' client' Hk'.
    apply lookup_delete_Some in Hk' as [Hne Hk'].
    destruct (Hreg _ _ Hk') as [Hid (ch' & Hch' & Hopen)].
    split; [done|]. exists ch'. split; [|done].
    rewrite lookup_insert_ne; [done|].
    intros Heq. by apply Hne, (Hinj key key' client client').
  - intros key1 key2 client1 client2 H1 H2.
    apply lookup_delete_Some in H1 as [_ H1], H2 as [_ H2]. by apply Hinj.
Qed.

Lemma wf_enqueue ws key client ch data :
  wf ws → clients ws !! key = Some client → chans ws !! Send client = Some ch →
  closed ch = false →
  wf {| clients := clients ws;
        chans := <[Send client := enqueue data ch]> (chans ws) |}.
Proof.
  intros [Hreg Hinj] Hkey Hch Hopen. split; simpl; [|done].
  intros key' client' Hk'.
  destruct (Hreg _ _ Hk') as [Hid (ch' & Hch' & Hopen')].
  split; [done|].
  destruct (decide (Send client = Send client')) as [Heq|Hne].
  - rewrite <- Heq, lookup_insert_eq. by exists (enqueue data ch).
  - rewrite lookup_insert_ne by done. by exists ch'.
Qed.

Lemma trySend_Done ws key client ch data :
  clients ws !! key = Some client → chans ws !! Send client = Some ch →
  closed ch = false →
  trySend data client ws =
    Done (if full ch then
            {| clients := delete (ID client) (clients ws);
               chans := <[Send client := close ch]> (chans ws) |}
          else
            {| clients := clients ws;
               chans := <[Send client := enqueue data ch]> (chans ws) |}).
Proof.
  intros Hkey Hch Hopen. unfold trySend. rewrite Hch, Hopen. by destruct (full ch).
Qed.

(** The loop over the keys [ks], none of them repeated: the clients
    stored under these keys are served, the others are not. *)
Lemma rangeClients_sent data (recipient : WebSocketClient → bool) ks ws :
  wf ws → NoDup ks →
  ∃ ws',
    rangeClients (λ client ws, if recipient client then trySend data client ws else Done ws)
      ks ws = Done ws'
    ∧ wf ws'
    ∧ sent data (λ client, recipient client && bool_decide (ID client ∈ ks)) ws ws'.
Proof.
  revert ws. induction ks as [|k ks IH]; intros ws Hwf Hnodup.
  { exists ws. split; [done|]. split; [done|]. split; [|done].
    intros key client ch Hkey Hch. unfold after_send.
    rewrite bool_decide_eq_false_2, andb_false_r by apply not_elem_of_nil. done. }
  apply NoDup_cons in Hnodup as [Hk Hnodup]. simpl.
  destruct (clients ws !! k) as [c|] eqn:Hc.
  - (* the entry under [k] is visited *)
    destruct Hwf as [Hreg Hinj].
    destruct (Hreg _ _ Hc) as [Hid (chc & Hchc & Hopen)].
    assert (wf ws) as Hwf by done.
    set (ws1 := if recipient c then
                  if full chc then
                    {| clients := delete (ID c) (clients ws);
                       chans := <[Send c := close chc]> (chans ws) |}
                  else
                    {| clients := clients ws;
                       chans := <[Send c := enqueue data chc]> (chans ws) |}
                else ws).
    assert ((if recipient c then trySend data c ws else Done ws) = Done ws1) as ->.
    { unfold ws1. destruct (recipient c); [|done]. by apply (trySend_Done ws k). }
    assert (wf ws1) as Hwf1.
    { unfold ws1. destruct (recipient c); [|done]. destruct (full chc).
      - rewrite Hid. by apply wf_evict.
      - by apply (wf_enqueue ws k). }
    simpl. destruct (IH ws1 Hwf1 Hnodup) as (ws' & Hrun & Hwf' & Hsent1 & Hnone1 & Hother1).
    exists ws'. split; [done|]. split; [done|].
    (* the state after serving [c] *)
    assert (clients ws1 !! k = (after_send data recipient c chc).1
            ∧ chans ws1 !! Send c = Some (after_send data recipient c chc).2) as [Hk1 Hch1].
    { unfold ws1, after_send. destruct (recipient c); [|done]. destruct (full chc); simpl.
      - by rewrite Hid, lookup_delete_eq, lookup_insert_eq.
      - by rewrite lookup_insert_eq. }
    assert (∀ key client, key ≠ k → clients ws !! key = Some client →
              clients ws1 !! key = Some client ∧ chans ws1 !! Send client = chans ws !! Send client)
      as Hrest1.
    { intros key client Hne Hkey.
      assert (Send c ≠ Send client) as Hsend.
      { intros Heq. by apply Hne, (Hinj key k client c). }
      unfold ws1. destruct (recipient c); [|done]. destruct (full chc); simpl.
      - by rewrite Hid, lookup_delete_ne, lookup_insert_ne.
      - by rewrite lookup_insert_ne. }
    assert (∀ key, clients ws1 !! key = None ∨ clients ws1 !! key = clients ws !! key) as Hsub1.
    { intros key. unfold ws1. destruct (recipient c); [|by right].
      destruct (full chc); simpl; [|by right].
      rewrite Hid. destruct (decide (k = key)) as [->|Hne].
      - left. apply lookup_delete_eq.
      - right. by apply lookup_delete_ne. }
    assert (∀ ref, ref ≠ Send c → chans ws1 !! ref = chans ws !! ref) as Hchan1.
    { intros ref Hne. unfold ws1. destruct (recipient c); [|done].
      destruct (full chc); simpl; by rewrite lookup_insert_ne. }
    split; [|split].
    + intros key client ch Hkey Hch.
      destruct (decide (key = k)) as [->|Hne].
      * (* the client just served: the rest of the loop leaves it alone *)
        rewrite Hc in Hkey. injection Hkey as <-. rewrite Hchc in Hch. injection Hch as <-.
        assert (after_send data (λ client, recipient client && bool_decide (ID client ∈ k :: ks)) c chc
                = after_send data recipient c chc) as ->.
        { unfold after_send. rewrite Hid, bool_decide_eq_true_2, andb_true_r by apply list_elem_of_here.
          done. }
        destruct (clients ws1 !! k) as [c1|] eqn:Hk1'.
        -- (* still registered, and not among the keys left *)
           assert (c1 = c) as ->.
           { destruct (Hsub1 k) as [H|H]; congruence. }
           destruct (Hsent1 k c _ Hk1' Hch1) as [H1 H2].
           revert H1 H2. unfold after_send at 1 3.
           rewrite Hid, (bool_decide_eq_false_2 (k ∈ ks)), andb_false_r by done.
           simpl. intros -> ->. by rewrite <- Hk1.
        -- rewrite <- Hk1. split; [by apply Hnone1|].
           rewrite Hother1; [done|].
           intros key client Hkey Heq.
           destruct (decide (key = k)) as [->|Hne]; [congruence|].
           destruct (Hsub1 key) as [H|H]; [congruence|].
           rewrite H in Hkey. by apply Hne, (Hinj key k client c).
      * (* another client: served by the rest of the loop, if at all *)
        destruct (Hrest1 key client Hne Hkey) as [Hkey1 Hch1'].
        rewrite Hch in Hch1'.
        destruct (Hsent1 key client ch Hkey1 Hch1') as [H1 H2].
        assert (ID client ≠ k) as Hidne.
        { destruct (Hreg _ _ Hkey) as [-> _]. done. }
        assert (bool_decide (ID client ∈ k :: ks) = bool_decide (ID client ∈ ks)) as Hdec.
        { apply bool_decide_ext. rewrite elem_of_cons. by split; [intros [?|?]|right]. }
        unfold after_send in *. by rewrite Hdec.
    + intros key Hkey. apply Hnone1. destruct (Hsub1 key) as [H|H]; congruence.
    + intros ref Href. rewrite Hother1.
      * apply Hchan1. intros ->. by apply (Href k c).
      * intros key client Hkey. destruct (Hsub1 key) as [H|H]; [congruence|].
        rewrite H in Hkey. by apply (Href key).
  - (* no entry under [k] *)
    destruct (IH ws Hwf Hnodup) as (ws' & Hrun & Hwf' & Hsent & Hnone & Hother).
    exists ws'. split; [done|]. split; [done|]. split; [|done].
    intros key client ch Hkey Hch.
    assert (ID client ≠ k) as Hidne.
    { destruct Hwf as [Hreg _]. destruct (Hreg _ _ Hkey) as [-> _]. congruence. }
    assert (bool_decide (ID client ∈ k :: ks) = bool_decide (ID client ∈ ks)) as Hdec.
    { apply bool_decide_ext. rewrite elem_of_cons. by split; [intros [?|?]|right]. }
    destruct (Hsent key client ch Hkey Hch) as [H1 H2].
    unfold after_send in *. by rewrite Hdec.
Qed.

Lemma iteration_NoDup ws order : iteration ws order → NoDup order.
Proof. intros ->. apply NoDup_fst_map_to_list. Qed.

Lemma iteration_elem ws order key :
  iteration ws order → key ∈ order ↔ is_Some (clients ws !! key).
Proof.
  intros ->. rewrite list_elem_of_fmap. split.
  - intros ([k c] & -> & H). apply elem_of_map_to_list in H. by exists c.
  - intros [c H]. exists (key, c). split; [done|]. by apply elem_of_map_to_list.
Qed.

Lemma sent_ext data (r1 r2 : WebSocketClient → bool) ws ws' :
  (∀ key client, clients ws !! key = Some client → r1 client = r2 client) →
  sent data r1 ws ws' → sent data r2 ws ws'.
Proof.
  intros Hext (Hsent & Hnone & Hother). split; [|done].
  intros key client ch Hkey Hch. destruct (Hsent key client ch Hkey Hch) as [H1 H2].
  unfold after_send in *. by rewrite <- (Hext key client Hkey).
Qed.

(** A send loop over the whole registry, in any order Go may choose. *)
Lemma send_loop_sent data (recipient : WebSocketClient → bool) order ws :
  wf ws → iteration ws order →
  ∃ ws',
    rangeClients (λ client ws, if recipient client then trySend data client ws else Done ws)
      order ws = Done ws'
    ∧ wf ws' ∧ sent data recipient ws ws'.
Proof.
  intros Hwf Hiter.
  destruct (rangeClients_sent data recipient order ws Hwf (iteration_NoDup _ _ Hiter))
    as (ws' & Hrun & Hwf' & Hsent).
  exists ws'. split; [done|]. split; [done|].
  apply (sent_ext data (λ client, recipient client && bool_decide (ID client ∈ order)));
    [|done].
  intros key client Hkey. destruct Hwf as [Hreg _]. destruct (Hreg _ _ Hkey) as [-> _].
  rewrite bool_decide_eq_true_2, andb_true_r; [done|].
  by apply (iteration_elem ws).
Qed.

(** A send that selects no registered client changes nothing. *)
Lemma sent_nobody data recipient ws ws' :
  wf ws → sent data recipient ws ws' →
  (∀ key client, clients ws !! key = Some client → recipient client = false) →
  ws' = ws.
Proof.
  intros [Hreg Hinj] (Hsent & Hnone & Hother) Hnobody.
  assert (clients ws' = clients ws) as Hclients.
  { apply map_eq. intros key. destruct (clients ws !! key) as [client|] eqn:Hkey.
    - destruct (Hreg _ _ Hkey) as [_ (ch & Hch & _)].
      destruct (Hsent key client ch Hkey Hch) as [H _].
      unfold after_send in H. by rewrite (Hnobody key client Hkey) in H.
    - by apply Hnone. }
  assert (chans ws' = chans ws) as Hchans.
  { apply map_eq. intros ref.
    destruct (decide (map_Forall (λ _ client, Send client ≠ ref) (clients ws))) as [Hall|Hsome].
    - apply Hother. intros key client Hkey. by apply (Hall key).
    - apply map_not_Forall in Hsome as (key & client & Hkey & Href); [|apply _].
      apply dec_stable in Href. subst ref.
      destruct (Hreg _ _ Hkey) as [_ (ch & Hch & _)].
      destruct (Hsent key client ch Hkey Hch) as [_ H].
      unfold after_send in H. rewrite (Hnobody key client Hkey) in H. by rewrite Hch. }
  destruct ws, ws'. simpl in *. by subst.
Qed.

Lemma IsUserConnected_spec order userID ws :
  iteration ws order →
  IsUserConnected order userID ws = true ↔ connected userID ws.
Proof.
  intros Hiter. unfold IsUserConnected, connected. rewrite existsb_exists. split.
  - intros (key & _ & H). destruct (clients ws !! key) as [client|] eqn:Hkey; [|done].
    apply String.eqb_eq in H. by exists key, client.
  - intros (key & client & Hkey & Huser). exists key. split.
    + apply list_elem_of_In, (iteration_elem ws); [done|]. by exists client.
    + rewrite Hkey. by apply String.eqb_eq.
Qed.

Lemma not_connected_no_recipient userID ws :
  ¬ connected userID ws →
  ∀ key client, clients ws !! key = Some client →
    String.eqb (UserID client) userID = false.
Proof.
  intros Hnot key client Hkey. apply String.eqb_neq. intros Huser.
  apply Hnot. by exists key, client.
Qed.

End HubFacts.

(** C7, amended. On a registry that keeps its invariant, whatever order
    Go visits it in, [SendToUser(U, m)] returns without a panic. If [m]
    serialises to [data], then every registered connection of [U] whose
    queue has room gets [data] appended to its queue, every registered
    connection of [U] whose queue is full is removed from the registry and
    its queue closed instead, and every other connection and queue is left
    as it was. If [m] does not serialise, or [U] owns no registered
    connection, nothing changes at all. *)
Theorem SendToUser_delivers_or_evicts :
  ∀ (json_Marshal : Hub.WebSocketMessage → option Hub.bytes)
    (order : list string) (userID : string)
    (message : Hub.WebSocketMessage) (ws : Hub.WebSocketService),
    Hub.wf ws → Hub.iteration ws order →
    ∃ ws',
      Hub.SendToUser json_Marshal order userID message ws = Hub.Done ws'
      ∧ Hub.wf ws'
      ∧ match json_Marshal message with
        | Some data =>
            Hub.sent data (λ client, String.eqb (Hub.UserID client) userID) ws ws'
        | None => ws' = ws
        end
      ∧ (¬ Hub.connected userID ws → ws' = ws).
Proof.
  intros json_Marshal order userID message ws Hwf Hiter.
  unfold Hub.SendToUser. destruct (json_Marshal message) as [data|].
  - destruct (send_loop_sent data (λ client, String.eqb (Hub.UserID client) userID)
                order ws Hwf Hiter) as (ws' & Hrun & Hwf' & Hsent).
    exists ws'. split; [done|]. split; [done|]. split; [done|].
    intros Hnot. apply (sent_nobody data _ ws ws' Hwf Hsent).
    by apply not_connected_no_recipient.
  - by exists ws.
Qed.

(** ** The notification hub: the invariant, and a check of it *)

Section HubInvariant.

Import Hub.

Lemma NoDup_fmap_inj_on {A B} (f : A → B) (l : list A) x y :
  NoDup (f <$> l) → x ∈ l → y ∈ l → f x = f y → x = y.
Proof.
  induction l as [|a l IH]; intros Hnd Hx Hy Hf; [by apply elem_of_nil in Hx|].
  rewrite fmap_cons in Hnd. apply NoDup_cons in Hnd as [Ha Hnd].
  apply elem_of_cons in Hx as [->|Hx], Hy as [->|Hy]; try done.
  - exfalso. apply Ha. rewrite Hf. by apply list_elem_of_fmap_2.
  - exfalso. apply Ha. rewrite <- Hf. by apply list_elem_of_fmap_2.
  - by apply IH.
Qed.

Lemma wfb_wf ws : wfb ws = true → wf ws.
Proof.
  unfold wfb. intros H. apply andb_true_iff in H as [Hall Hnd].
  rewrite forallb_forall in Hall. apply bool_decide_eq_true in Hnd. split.
  - intros key client Hkey.
    apply elem_of_map_to_list, list_elem_of_In, Hall in Hkey. simpl in Hkey.
    apply andb_true_iff in Hkey as [Hid Hch]. apply String.eqb_eq in Hid.
    split; [done|]. destruct (chans ws !! Send client) as [ch|]; [|done].
    exists ch. split; [done|]. by apply negb_true_iff.
  - intros key1 key2 client1 client2 H1 H2 Hsend.
    apply elem_of_map_to_list in H1, H2.
    by injection (NoDup_fmap_inj_on _ _ (key1, client1) (key2, client2) Hnd H1 H2 Hsend).
Qed.

(** Connecting keeps the invariant, whatever [json.Marshal] does with the
    greeting, provided [uuid.New] gave an identifier not in use. *)
Lemma wf_HandleWebSocket json_Marshal id userID ws :
  wf ws → clients ws !! id = None → wf (HandleWebSocket json_Marshal id userID ws).
Proof.
  intros [Hreg Hinj] Hnew. unfold HandleWebSocket, register.
  set (send := fresh (dom (chans ws))).
  assert (chans ws !! send = None) as Hfresh.
  { apply not_elem_of_dom. apply is_fresh. }
  assert (∀ key client, clients ws !! key = Some client → Send client ≠ send) as Hold.
  { intros key client Hkey Heq. destruct (Hreg _ _ Hkey) as [_ (ch & Hch & _)]. congruence. }
  set (ch0 := {| queue := []; capacity := 256; closed := false |}).
  assert (∀ ch1, closed ch1 = false →
            wf {| clients := <[id := {| ID := id; UserID := userID; Send := send |}]> (clients ws);
                  chans := <[send := ch1]> (chans ws) |}) as Hwf.
  { intros ch1 Hopen. split; simpl.
    - intros key client Hkey. apply lookup_insert_Some in Hkey as [[<- <-]|[Hne Hkey]]; simpl.
      + split; [done|]. exists ch1. by rewrite lookup_insert_eq.
      + destruct (Hreg _ _ Hkey) as [Hid (ch & Hch & Hopen')]. split; [done|].
        exists ch. rewrite lookup_insert_ne; [done|]. intros Heq. by apply (Hold key client).
    - intros key1 key2 client1 client2 H1 H2 Hsend.
      apply lookup_insert_Some in H1 as [[<- <-]|[Hne1 H1]],
                                  H2 as [[<- <-]|[Hne2 H2]]; simpl in *; try done.
      + exfalso. by apply (Hold key2 client2).
      + exfalso. by apply (Hold key1 client1).
      + by apply (Hinj key1 key2 client1 client2). }
  simpl. destruct (json_Marshal _) as [data|]; simpl.
  - rewrite insert_insert_eq. by apply Hwf.
  - by apply Hwf.
Qed.

(** Unregistering a registered client keeps the invariant. *)
Lemma wf_unregister client ws :
  wf ws → clients ws !! ID client = Some client →
  ∃ ws', unregister client ws = Done ws' ∧ wf ws' ∧ clients ws' !! ID client = None.
Proof.
  intros Hwf Hkey. unfold unregister. rewrite Hkey.
  destruct Hwf as [Hreg Hinj]. destruct (Hreg _ _ Hkey) as [_ (ch & Hch & Hopen)].
  rewrite Hch, Hopen. eexists. split; [done|]. split.
  - by apply wf_evict.
  - simpl. apply lookup_delete_eq.
Qed.

End HubInvariant.

(** ** The notification hub: targeted sends *)

Lemma sample_hub_wf : Hub.wf Hub.sample_hub.
Proof. apply wfb_wf. by vm_compute. Qed.

Lemma sample_hub_iteration : Hub.iteration Hub.sample_hub ["conn-a"; "conn-b"].
Proof. unfold Hub.iteration. by vm_compute. Qed.

(** The theorem above at the sample registry, for Bob, whose queue has
    room. *)
Lemma SendToUser_delivers_or_evicts_witness :
  Hub.wf Hub.sample_hub ∧ Hub.iteration Hub.sample_hub ["conn-a"; "conn-b"] ∧
  ∃ ws',
    Hub.SendToUser Hub.sample_marshal ["conn-a"; "conn-b"] "bob"
      Hub.sample_message Hub.sample_hub = Hub.Done ws'
    ∧ Hub.wf ws'
    ∧ match Hub.sample_marshal Hub.sample_message with
      | Some data => Hub.sent data (λ client, String.eqb (Hub.UserID client) "bob")
                       Hub.sample_hub ws'
      | None => ws' = Hub.sample_hub
      end
    ∧ (¬ Hub.connected "bob" Hub.sample_hub → ws' = Hub.sample_hub).
Proof.
  split; [exact sample_hub_wf|]. split; [exact sample_hub_iteration|].
  exact (SendToUser_delivers_or_evicts Hub.sample_marshal ["conn-a"; "conn-b"] "bob"
           Hub.sample_message Hub.sample_hub sample_hub_wf sample_hub_iteration).
Defined.

(** C7, as stated, fails. Alice owns the registered connection [conn-a],
    whose queue holds 256 messages, its capacity. [SendToUser] for Alice
    does not enqueue the message on it: the queue keeps its 256 messages,
    is closed, and the connection leaves the registry. *)
Lemma SendToUser_full_queue_counterexample :
  Hub.clients Hub.sample_hub !! "conn-a"
  = Some {| Hub.ID := "conn-a"; Hub.UserID := "alice"; Hub.Send := 0 |}
  ∧ Hub.SendToUser Hub.sample_marshal ["conn-a"; "conn-b"] "alice"
      Hub.sample_message Hub.sample_hub
    = Hub.Done
        {| Hub.clients :=
             <["conn-b" := {| Hub.ID := "conn-b"; Hub.UserID := "bob"; Hub.Send := 1 |}]> ∅;
           Hub.chans :=
             <[0 := {| Hub.queue := Hub.backlog; Hub.capacity := 256; Hub.closed := true |}]>
               (<[1 := {| Hub.queue := []; Hub.capacity := 256; Hub.closed := false |}]> ∅) |}.
Proof. split; by vm_compute. Qed.

(** ** The notification hub: [need_accepted] *)

(** C3 does not hold of the code. [NotifyNeedAccepted] hands the
    identifier of the need to [SendToUser], where the identifier of the
    need's creator belongs. With the creator connected, the notification
    reaches nobody: the registry and the creator's queue, which holds the
    greeting only, are unchanged. A [SendToUser] to the creator would have
    appended the message. And a connection whose user identifier equals
    the need's identifier would receive it. *)
Theorem need_accepted_misses_the_creator :
  let creator := "650000000000000000000001" in
  let volunteer := "650000000000000000000002" in
  let needID := "65000000000000000000000a" in
  let ws := Hub.HandleWebSocket Hub.sample_marshal "conn-1" creator
              Hub.NewWebSocketService in
  let greeting := String.list_byte_of_string "connected" in
  let notice := String.list_byte_of_string "need_accepted" in
  Hub.wf ws
  ∧ Hub.chans ws !! 0
    = Some {| Hub.queue := [greeting]; Hub.capacity := 256; Hub.closed := false |}
  ∧ Hub.NotifyNeedAccepted Hub.sample_marshal ["conn-1"] needID volunteer "Volunteer" ws
    = Hub.Done ws
  ∧ (∃ ws', Hub.SendToUser Hub.sample_marshal ["conn-1"] creator
              {| Hub.Type_ := "need_accepted"; Hub.Payload := ∅; Hub.msg_UserID := "" |} ws
            = Hub.Done ws'
          ∧ Hub.chans ws' !! 0
            = Some {| Hub.queue := [greeting; notice]; Hub.capacity := 256;
                      Hub.closed := false |})
  ∧ (∃ ws', Hub.NotifyNeedAccepted Hub.sample_marshal ["conn-1"; "conn-2"]
              needID volunteer "Volunteer"
              (Hub.HandleWebSocket Hub.sample_marshal "conn-2" needID ws)
            = Hub.Done ws'
          ∧ Hub.chans ws' !! 0
            = Some {| Hub.queue := [greeting]; Hub.capacity := 256; Hub.closed := false |}
          ∧ Hub.chans ws' !! 1
            = Some {| Hub.queue := [greeting; notice]; Hub.capacity := 256;
                      Hub.closed := false |}).
Proof.
  cbv zeta. split; [apply wfb_wf; by vm_compute|].
  split; [by vm_compute|]. split; [by vm_compute|].
  split; eexists; (split; [by vm_compute|]); [|split]; by vm_compute.
Qed.

(** ** The notification hub: eviction on a full queue *)

Section Eviction.

Import Hub.

Variable json_Marshal : WebSocketMessage → option bytes.

Lemma broadcastMessage_sent order message data ws :
  wf ws → iteration ws order → json_Marshal message = Some data →
  ∃ ws', broadcastMessage json_Marshal order message ws = Done ws'
         ∧ wf ws' ∧ sent data (λ _, true) ws ws'.
Proof.
  intros Hwf Hiter Hdata. unfold broadcastMessage. rewrite Hdata.
  exact (send_loop_sent data (λ _, true) order ws Hwf Hiter).
Qed.

Lemma SendToUser_sent order userID message data ws :
  wf ws → iteration ws order → json_Marshal message = Some data →
  ∃ ws', SendToUser json_Marshal order userID message ws = Done ws'
         ∧ wf ws' ∧ sent data (λ client, String.eqb (UserID client) userID) ws ws'.
Proof.
  intros Hwf Hiter Hdata. unfold SendToUser. rewrite Hdata.
  exact (send_loop_sent data (λ client, String.eqb (UserID client) userID)
           order ws Hwf Hiter).
Qed.

Lemma sent_registered data recipient ws ws' key client :
  wf ws → sent data recipient ws ws' →
  clients ws' !! key = Some client → clients ws !! key = Some client.
Proof.
  intros [Hreg _] (Hsent & Hnone & _) Hkey'.
  destruct (clients ws !! key) as [client0|] eqn:Hkey.
  - destruct (Hreg _ _ Hkey) as [_ (ch & Hch & _)].
    destruct (Hsent key client0 ch Hkey Hch) as [H _]. rewrite Hkey' in H.
    unfold after_send in H. destruct (recipient client0); [|by simplify_eq/=].
    destruct (full ch); by simplify_eq/=.
  - rewrite (Hnone key Hkey) in Hkey'. done.
Qed.


End Eviction.



(** ** Binary64 arithmetic: signs and magnitudes *)

(** *** Signs *)

Lemma binary_round_aux_opp prec emax s m e l :
  binary_round_aux prec emax (negb s) m e l = SFopp (binary_round_aux prec emax s m e l).
Proof.
  unfold binary_round_aux.
  destruct (shr_fexp prec emax m e l) as [mrs' e'].
  destruct (shr_fexp prec emax _ e' loc_Exact) as [mrs'' e''].
  destruct (shr_m mrs''); [done| |done]. by destruct (e'' <=? emax - prec)%Z.
Qed.

Lemma binary_round_opp prec emax s m e :
  binary_round prec emax (negb s) m e = SFopp (binary_round prec emax s m e).
Proof.
  unfold binary_round. destruct (shl_align _ _ _) as [mz ez].
  apply binary_round_aux_opp.
Qed.

Lemma binary_normalize_opp prec emax m e :
  m ≠ 0%Z →
  binary_normalize prec emax (- m) e false = SFopp (binary_normalize prec emax m e false).
Proof.
  destruct m as [|p|p]; [done|..]; intros _; simpl.
  - apply (binary_round_opp prec emax false).
  - apply (binary_round_opp prec emax true).
Qed.

Lemma SFopp_involutive x : SFopp (SFopp x) = x.
Proof. destruct x as [s|s| |s m e]; simpl; by rewrite ?negb_involutive. Qed.

Lemma SFsub_swap prec emax x y :
  SFsub prec emax x y = SFopp (SFsub prec emax y x)
  ∨ (SFsub prec emax x y = S754_zero false ∧ SFsub prec emax y x = S754_zero false).
Proof.
  destruct x as [sx|sx| |sx mx ex], y as [sy|sy| |sy my ey]; simpl;
    try (by left); try (destruct sx, sy; simpl; by auto).
  rewrite (Z.min_comm ey ex).
  set (a := cond_Zopp sx _). set (b := cond_Zopp sy _).
  destruct (decide (a - b = 0)%Z) as [Hz|Hnz].
  - right. assert (b - a = 0)%Z as -> by lia. by rewrite Hz.
  - left. assert (a - b = - (b - a))%Z as -> by lia.
    apply binary_normalize_opp. lia.
Qed.

Lemma SFsub_diag prec emax x :
  SFis_finite x = true → SFsub prec emax x x = S754_zero false.
Proof.
  destruct x as [[]| | |s m e]; try done. intros _. simpl.
  by rewrite Z.sub_diag.
Qed.

Lemma SFdiv_opp_l prec emax x y :
  SFdiv prec emax (SFopp x) y = SFopp (SFdiv prec emax x y).
Proof.
  destruct x as [sx|sx| |sx mx ex], y as [sy|sy| |sy my ey]; simpl; try done;
    try (by destruct sx, sy).
  destruct (SFdiv_core_binary _ _ _ _ _ _) as [[mz ez] lz].
  rewrite <- binary_round_aux_opp. by destruct sx, sy.
Qed.

Lemma SFmul_opp_opp prec emax x y :
  SFmul prec emax (SFopp x) (SFopp y) = SFmul prec emax x y.
Proof.
  destruct x as [sx|sx| |sx mx ex], y as [sy|sy| |sy my ey]; simpl; try done;
    by destruct sx, sy.
Qed.

Lemma SFmul_opp_r prec emax x y :
  SFmul prec emax x (SFopp y) = SFopp (SFmul prec emax x y).
Proof.
  destruct x as [sx|sx| |sx mx ex], y as [sy|sy| |sy my ey]; simpl; try done;
    try (by destruct sx, sy).
  rewrite <- binary_round_aux_opp. by destruct sx, sy.
Qed.

Lemma SFmul_comm prec emax x y : SFmul prec emax x y = SFmul prec emax y x.
Proof.
  destruct x as [sx|sx| |sx mx ex], y as [sy|sy| |sy my ey]; simpl; try done;
    try (by destruct sx, sy).
  by rewrite xorb_comm, Pos.mul_comm, Z.add_comm.
Qed.

(** The same facts on binary64 values. *)

Lemma sub_swap x y :
  (x - y)%float = (- (y - x))%float ∨ ((x - y)%float = 0%float ∧ (y - x)%float = 0%float).
Proof.
  destruct (SFsub_swap prec emax (Prim2SF x) (Prim2SF y)) as [H|[H1 H2]].
  - left. apply Prim2SF_inj. by rewrite opp_spec, !sub_spec.
  - right. split; apply Prim2SF_inj; by rewrite sub_spec.
Qed.

Lemma sub_diag x : is_finite x = true → (x - x)%float = 0%float.
Proof.
  intros H. apply Prim2SF_inj. rewrite sub_spec. by apply SFsub_diag.
Qed.

Lemma div_opp_l x y : (- x / y)%float = (- (x / y))%float.
Proof. apply Prim2SF_inj. rewrite opp_spec, !div_spec, opp_spec. apply SFdiv_opp_l. Qed.

Lemma mul_opp_opp x y : (- x * - y)%float = (x * y)%float.
Proof. apply Prim2SF_inj. rewrite !mul_spec, !opp_spec. apply SFmul_opp_opp. Qed.

Lemma mul_opp_r x y : (x * - y)%float = (- (x * y))%float.
Proof. apply Prim2SF_inj. rewrite opp_spec, !mul_spec, opp_spec. apply SFmul_opp_r. Qed.

Lemma mul_comm x y : (x * y)%float = (y * x)%float.
Proof. apply Prim2SF_inj. rewrite !mul_spec. apply SFmul_comm. Qed.

Lemma Prim2SF_zero x s : Prim2SF x = S754_zero s → is_zero x.
Proof.
  intros H. rewrite <- (SF2Prim_Prim2SF x), H. destruct s; [by right|by left].
Qed.

Lemma is_zero_Prim2SF x : is_zero x → ∃ s, Prim2SF x = S754_zero s.
Proof. intros [->| ->]; [by exists false|by exists true]. Qed.

Lemma mul_zero_r x z : is_finite x = true → is_zero z → is_zero (x * z)%float.
Proof.
  unfold is_finite. intros Hx Hz. apply is_zero_Prim2SF in Hz as [s Hz].
  apply (Prim2SF_zero _ (xorb (match Prim2SF x with S754_zero sx | S754_finite sx _ _ => sx | _ => false end) s)).
  rewrite mul_spec, Hz. by destruct (Prim2SF x).
Qed.

Lemma is_zero_finite z : is_zero z → is_finite z = true.
Proof. by intros [->| ->]. Qed.

Lemma add_zero_l z : is_zero z → (0 + z)%float = 0%float.
Proof. by intros [->| ->]. Qed.

(** *** Magnitudes: a product of two numbers of magnitude at most 1 is finite *)

Lemma digits2_pos_size p : digits2_pos p = Pos.size p.
Proof. induction p; simpl; by rewrite ?IHp. Qed.

Lemma Zdigits2_le m k :
  (0 ≤ m)%Z → (0 ≤ k)%Z → (m < 2 ^ k)%Z → (Zdigits2 m ≤ k)%Z.
Proof.
  intros Hm Hk Hlt. destruct m as [|p|p]; [done| |lia]. simpl.
  rewrite digits2_pos_size.
  destruct (decide (Z.pos (Pos.size p) ≤ k)%Z) as [|Hgt]; [done|exfalso].
  pose proof (Pos.size_le p) as Hle.
  apply Pos2Z.pos_le_pos in Hle. rewrite Pos2Z.inj_pow in Hle.
  change (Z.pos p~0) with (2 * Z.pos p)%Z in Hle.
  assert (2 ^ (k + 1) ≤ 2 ^ Z.pos (Pos.size p))%Z as Hpow
    by (apply Z.pow_le_mono_r; lia).
  rewrite Z.pow_add_r, Z.pow_1_r in Hpow by lia. lia.
Qed.

Lemma Zdigits2_lt m : (0 ≤ m)%Z → (m < 2 ^ Zdigits2 m)%Z.
Proof.
  intros Hm. destruct m as [|p|p]; [done| |lia]. simpl.
  rewrite digits2_pos_size, <- Pos2Z.inj_pow. apply Pos2Z.pos_lt_pos, Pos.size_gt.
Qed.

Lemma Zdigits2_nonneg m : (0 ≤ Zdigits2 m)%Z.
Proof. by destruct m. Qed.

(** Shifting right keeps a mantissa between zero and where it was. *)
Lemma shr_1_bound mrs M :
  (0 ≤ shr_m mrs ≤ M)%Z → (0 ≤ shr_m (shr_1 mrs) ≤ M)%Z.
Proof.
  destruct mrs as [m r s]. simpl. intros H.
  destruct m as [|[p|p|]|[p|p|]]; simpl; lia.
Qed.

Lemma iter_pos_invariant {A} (P : A → Prop) (f : A → A) n x :
  (∀ a, P a → P (f a)) → P x → P (SpecFloat.iter_pos f n x).
Proof.
  intros Hf. revert x. induction n as [n IH|n IH|]; intros x Hx; simpl; auto.
Qed.

Lemma shr_bound mrs e n M :
  (0 ≤ shr_m mrs ≤ M)%Z →
  (0 ≤ shr_m (shr mrs e n).1 ≤ M)%Z ∧ (shr mrs e n).2 = (e `max` (e + n))%Z.
Proof.
  intros H. unfold shr. destruct n as [|p|p]; simpl; [split; [done|lia]| |split; [done|lia]].
  split; [|lia].
  apply (iter_pos_invariant (λ mrs, (0 ≤ shr_m mrs ≤ M)%Z)); [|done].
  intros a. apply shr_1_bound.
Qed.

Lemma shr_fexp_bound prec emax m e l :
  (0 ≤ m)%Z →
  (0 ≤ shr_m (shr_fexp prec emax m e l).1 ≤ m)%Z ∧
  (shr_fexp prec emax m e l).2 = (e `max` fexp prec emax (Zdigits2 m + e))%Z.
Proof.
  intros Hm. unfold shr_fexp.
  destruct (shr_bound (shr_record_of_loc m l) e
              (fexp prec emax (Zdigits2 m + e) - e) m) as [H1 H2].
  { by destruct l as [|[]]; simpl; lia. }
  split; [done|]. rewrite H2. f_equal. lia.
Qed.

Lemma round_nearest_even_bound m l :
  (0 ≤ m)%Z → (0 ≤ round_nearest_even m l ≤ m + 1)%Z.
Proof.
  intros Hm. destruct l as [|[]]; simpl; try lia. destruct (Z.even m); lia.
Qed.

Lemma binary_round_aux_finite s m e :
  (0 ≤ m)%Z → (m < 2 ^ 106)%Z → (e ≤ -104)%Z →
  SFis_finite (binary_round_aux prec emax s m e loc_Exact) = true.
Proof.
  intros Hm Hlt He. unfold binary_round_aux.
  destruct (shr_fexp_bound prec emax m e loc_Exact Hm) as [Hm1 He1].
  destruct (shr_fexp prec emax m e loc_Exact) as [mrs1 e1]. simpl in Hm1, He1.
  set (m2 := round_nearest_even (shr_m mrs1) (loc_of_shr_record mrs1)).
  assert (0 ≤ m2 ≤ m + 1)%Z as Hm2.
  { pose proof (round_nearest_even_bound (shr_m mrs1) (loc_of_shr_record mrs1)). lia. }
  destruct (shr_fexp_bound prec emax m2 e1 loc_Exact) as [Hm3 He3]; [lia|].
  destruct (shr_fexp prec emax m2 e1 loc_Exact) as [mrs3 e3]. simpl in Hm3, He3.
  assert (Zdigits2 m ≤ 106)%Z as Hd by (apply Zdigits2_le; lia).
  assert (Zdigits2 m2 ≤ 107)%Z as Hd2.
  { apply Zdigits2_le; lia. }
  pose proof (Zdigits2_nonneg m). pose proof (Zdigits2_nonneg m2).
  assert (e3 ≤ 3)%Z as He3'.
  { subst e3 e1. unfold fexp, emin, prec, emax. lia. }
  destruct (shr_m mrs3) as [|p|p]; [done| |lia].
  assert ((e3 <=? emax - prec)%Z = true) as ->; [|done].
  apply Z.leb_le. unfold emax, prec. lia.
Qed.

(** A valid number of magnitude at most 1. *)
Lemma SFleb_abs_one x :
  valid_binary (Prim2SF x) = true → (abs x <=? 1)%float = true →
  match Prim2SF x with
  | S754_zero _ => True
  | S754_finite _ m e => (Z.pos m < 2 ^ 53)%Z ∧ (e ≤ -52)%Z
  | _ => False
  end.
Proof.
  rewrite FloatAxioms.leb_spec, abs_spec.
  replace (Prim2SF 1) with (S754_finite false 4503599627370496 (-52)) by done.
  destruct (Prim2SF x) as [s|s| |s m e]; try done.
  unfold valid_binary, bounded, canonical_mantissa, SFleb, SFabs, SFcompare.
  intros Hvalid Hle.
  apply andb_true_iff in Hvalid as [Hcan _]. apply Z.eqb_eq in Hcan.
  split.
  - pose proof (Zdigits2_lt (Z.pos m) (Pos2Z.is_nonneg m)) as Hlt.
    change (Zdigits2 (Z.pos m)) with (Z.pos (digits2_pos m)) in Hlt.
    assert (Z.pos (digits2_pos m) ≤ 53)%Z as Hd.
    { revert Hcan. unfold fexp, emin, prec, emax. lia. }
    assert (2 ^ Z.pos (digits2_pos m) ≤ 2 ^ 53)%Z by (apply Z.pow_le_mono_r; lia).
    lia.
  - destruct (Z.compare_spec e (-52)); [lia|lia|done].
Qed.

Lemma mul_bounded_finite x y :
  (abs x <=? 1)%float = true → (abs y <=? 1)%float = true →
  is_finite (x * y)%float = true.
Proof.
  intros Hx Hy. unfold is_finite. rewrite mul_spec.
  pose proof (SFleb_abs_one x (Prim2SF_valid x) Hx) as Hx'.
  pose proof (SFleb_abs_one y (Prim2SF_valid y) Hy) as Hy'.
  destruct (Prim2SF x) as [sx|sx| |sx mx ex], (Prim2SF y) as [sy|sy| |sy my ey];
    try done.
  destruct Hx' as [Hmx Hex], Hy' as [Hmy Hey].
  apply binary_round_aux_finite; try lia.
  assert (2 ^ 106 = 2 ^ 53 * 2 ^ 53)%Z as -> by done. nia.
Qed.

(** ** The geo scorer *)

Section GeoFacts.

Variable math : MathLib.

Lemma sin_sq_swap (x y : float) :
  (∀ t, math_Sin math (- t)%float = (- math_Sin math t)%float) →
  (math_Sin math ((x - y) / 2) * math_Sin math ((x - y) / 2))%float
  = (math_Sin math ((y - x) / 2) * math_Sin math ((y - x) / 2))%float.
Proof.
  intros Hodd. destruct (sub_swap x y) as [->|[-> ->]]; [|done].
  by rewrite div_opp_l, Hodd, mul_opp_opp.
Qed.

Lemma sin_term_swap (c x y : float) :
  (∀ t, math_Sin math (- t)%float = (- math_Sin math t)%float) →
  (c * math_Sin math ((x - y) / 2) * math_Sin math ((x - y) / 2))%float
  = (c * math_Sin math ((y - x) / 2) * math_Sin math ((y - x) / 2))%float.
Proof.
  intros Hodd. destruct (sub_swap x y) as [->|[-> ->]]; [|done].
  by rewrite div_opp_l, Hodd, (mul_opp_r c), mul_opp_opp.
Qed.

Lemma calculateDistance_swap a b :
  (∀ t, math_Sin math (- t)%float = (- math_Sin math t)%float) →
  Matching.calculateDistance math a b = Matching.calculateDistance math b a.
Proof.
  intros Hodd. unfold Matching.calculateDistance. cbv zeta.
  rewrite (sin_sq_swap (Latitude b * math_Pi / 180) (Latitude a * math_Pi / 180)) by done.
  rewrite (sin_term_swap _ (Longitude b * math_Pi / 180) (Longitude a * math_Pi / 180))
    by done.
  by rewrite (mul_comm (math_Cos math (Latitude a * math_Pi / 180))).
Qed.

Lemma calculateDistance_self p :
  MathLib_spec math →
  is_finite (radians (Latitude p)) = true → is_finite (radians (Longitude p)) = true →
  Matching.calculateDistance math p p = 0%float.
Proof.
  intros Hmath Hlat Hlon. unfold radians in Hlat, Hlon.
  unfold Matching.calculateDistance. cbv zeta.
  rewrite !sub_diag by done.
  replace (0 / 2)%float with 0%float by done.
  rewrite (Sin_zero _ Hmath).
  set (lat := (Latitude p * math_Pi / 180)%float) in *.
  assert (is_zero (math_Cos math lat * math_Cos math lat * 0 * 0)%float) as Hz.
  { apply mul_zero_r; [|by left]. apply is_zero_finite.
    apply mul_zero_r; [|by left].
    apply mul_bounded_finite; by apply (Cos_bounded _ Hmath). }
  replace (0 * 0)%float with 0%float by done.
  rewrite (add_zero_l _ Hz).
  replace (PrimFloat.sqrt 0) with 0%float by done.
  replace (PrimFloat.sqrt (1 - 0)) with 1%float by done.
  by rewrite (Atan2_zero_one _ Hmath).
Qed.

(** Where the conversion to radians overflows, the distance of a point
    to itself is not a number, whatever [math] computes elsewhere. *)
Lemma calculateDistance_overflow p :
  math_Sin math nan = nan → (∀ x, math_Atan2 math nan x = nan) →
  radians (Latitude p) = infinity →
  Matching.calculateDistance math p p = nan.
Proof.
  intros Hsin Hatan Hlat. unfold radians in Hlat.
  unfold Matching.calculateDistance. cbv zeta. rewrite Hlat.
  replace (infinity - infinity)%float with nan by done.
  replace (nan / 2)%float with nan by done. rewrite Hsin.
  replace (nan * nan)%float with nan by done.
  set (rest := (_ * _ * _ * _)%float).
  assert (nan + rest = nan)%float as ->.
  { apply Prim2SF_inj. rewrite add_spec. done. }
  replace (PrimFloat.sqrt nan) with nan by done.
  rewrite Hatan. done.
Qed.

End GeoFacts.

Lemma first_order_math_spec : MathLib_spec first_order_math.
Proof. split; try done. Qed.

(** C9, amended. Provided [math.Sin] is odd, swapping the two locations
    gives the same binary64 value, which [==] confirms unless the value
    is a NaN. Provided also that [Sin(0) = 0], [Atan2(0, 1) = 0] and
    [|Cos x| <= 1], the distance from a location to itself is 0 whenever
    its latitude and longitude in radians are finite. *)
Theorem calculateDistance_symmetric_and_zero_on_finite :
  ∀ math : MathLib, MathLib_spec math →
    (∀ a b,
        Matching.calculateDistance math a b = Matching.calculateDistance math b a
        ∧ (is_nan (Matching.calculateDistance math a b) = false →
           (Matching.calculateDistance math a b
            =? Matching.calculateDistance math b a)%float = true)) ∧
    (∀ p,
        is_finite (radians (Latitude p)) = true →
        is_finite (radians (Longitude p)) = true →
        Matching.calculateDistance math p p = 0%float
        ∧ (Matching.calculateDistance math p p =? 0)%float = true).
Proof.
  intros math Hmath. split.
  - intros a b.
    assert (Matching.calculateDistance math a b = Matching.calculateDistance math b a) as Heq
      by (apply calculateDistance_swap, Hmath).
    split; [done|]. rewrite <- Heq. unfold is_nan. by intros ->%negb_false_iff.
  - intros p Hlat Hlon. rewrite (calculateDistance_self math p) by done. done.
Qed.

(** The theorem above at two points with exactly representable
    coordinates. *)
Lemma calculateDistance_symmetric_and_zero_on_finite_witness :
  let a := {| Latitude := 40.75; Longitude := -74; H3Index := ""; Address := "" |} in
  let b := {| Latitude := 51.5; Longitude := -0.125; H3Index := ""; Address := "" |} in
  MathLib_spec first_order_math ∧
  is_finite (radians (Latitude a)) = true ∧
  is_finite (radians (Longitude a)) = true ∧
  Matching.calculateDistance first_order_math a b
  = Matching.calculateDistance first_order_math b a ∧
  Matching.calculateDistance first_order_math a a = 0%float.
Proof.
  cbv zeta. split; [exact first_order_math_spec|].
  split; [by vm_compute|]. split; [by vm_compute|]. split.
  - exact (proj1 (proj1 (calculateDistance_symmetric_and_zero_on_finite
                           first_order_math first_order_math_spec) _ _)).
  - refine (proj1 (proj2 (calculateDistance_symmetric_and_zero_on_finite
                            first_order_math first_order_math_spec) _ _ _));
      by vm_compute.
Defined.

(** C9, as stated, fails. A latitude of 1e308 degrees is a float64 that
    leaves the range on conversion to radians: the latitude in radians is
    an infinity, the difference of the two latitudes is not a number, and
    neither is the distance from the location to itself, which therefore
    equals neither 0 nor itself under [==]. By [calculateDistance_overflow]
    the result is the same for every [math] with [Sin(NaN) = NaN] and
    [Atan2(NaN, x) = NaN], the special cases Go documents. *)
Lemma calculateDistance_counterexample :
  let p := {| Latitude := 0x1.1ccf385ebc8ap+1023; Longitude := 0;
              H3Index := ""; Address := "" |} in
  radians (Latitude p) = infinity
  ∧ Matching.calculateDistance first_order_math p p = nan
  ∧ (Matching.calculateDistance first_order_math p p =? 0)%float = false
  ∧ (Matching.calculateDistance first_order_math p p
     =? Matching.calculateDistance first_order_math p p)%float = false.
Proof. cbv zeta. repeat split; by vm_compute. Qed.

(** * Further properties *)

(** ** The similarity scorer *)

Lemma mul32_comm x y : mul32 x y = mul32 y x.
Proof. unfold mul32. by rewrite mul_comm. Qed.

Lemma dot_product_comm a b dot :
  fold_left (λ acc xy, (acc + mul32 xy.1 xy.2)%float) (zip a b) dot
  = fold_left (λ acc xy, (acc + mul32 xy.1 xy.2)%float) (zip b a) dot.
Proof.
  revert b dot. induction a as [|x a IH]; intros [|y b] dot; simpl; try done.
  by rewrite mul32_comm, IH.
Qed.

Lemma CalculateSimilarity_comm a b :
  Embedding.CalculateSimilarity a b = Embedding.CalculateSimilarity b a.
Proof.
  unfold Embedding.CalculateSimilarity.
  rewrite (Nat.eqb_sym (length b)).
  destruct (length a =? length b)%nat eqn:Hlen; simpl; [|done].
  apply Nat.eqb_eq in Hlen. rewrite <- Hlen.
  destruct (length a =? 0)%nat; [done|].
  rewrite !accumulate_norms by done.
  rewrite (dot_product_comm b a), orb_comm.
  by rewrite (mul_comm (Embedding.sqrt (fold_left _ b _))).
Qed.

(** X1. The similarity scorer is symmetric: swapping the two embeddings
    gives the same error or the same binary64 value. *)
Theorem CalculateSimilarity_symmetric :
  ∀ a b, Embedding.CalculateSimilarity a b = Embedding.CalculateSimilarity b a.
Proof. exact CalculateSimilarity_comm. Qed.

(** X2. The scorer returns a value exactly on two non-empty embeddings of
    one length. On embeddings of different lengths it fails with the
    dimension error, also when one of them is empty; on two empty
    embeddings it fails with the emptiness error. *)
Theorem CalculateSimilarity_error_cases :
  ∀ a b,
    (length a ≠ length b ↔
       Embedding.CalculateSimilarity a b
       = Err (ErrorString "embedding dimensions do not match")) ∧
    (a = [] ∧ b = [] ↔
       Embedding.CalculateSimilarity a b
       = Err (ErrorString "embeddings cannot be empty")) ∧
    (length a = length b ∧ a ≠ [] ↔
       ∃ similarity, Embedding.CalculateSimilarity a b = Ok similarity).
Proof.
  intros a b. unfold Embedding.CalculateSimilarity.
  destruct (length a =? length b)%nat eqn:Hlen; simpl.
  - apply Nat.eqb_eq in Hlen.
    destruct a as [|x a].
    + destruct b as [|y b]; [|done]. simpl.
      split; [|split]; split; intros H; try done; by destruct H.
    + change (length (x :: a) =? 0)%nat with false. cbv iota.
      destruct (Embedding.accumulate (x :: a) b _) as [[dot n1] n2].
      split; [|split]; split; intros H; try done;
        try (by destruct H); destruct (_ || _); try done; eauto.
  - apply Nat.eqb_neq in Hlen.
    split; [|split]; split; intros H; try done.
    + destruct H as [-> ->]. done.
    + by destruct H.
    + by destruct H.
Qed.

(** ** The match ranker: which candidates are kept *)

Lemma similarity_zero_vector a b similarity :
  zero_vector a ∨ zero_vector b →
  Embedding.CalculateSimilarity a b = Ok similarity → similarity = 0%float.
Proof.
  intros Hzero. unfold Embedding.CalculateSimilarity.
  destruct (length a =? length b)%nat eqn:Hlen; [|done].
  apply Nat.eqb_eq in Hlen. cbn [negb].
  destruct (length a =? 0)%nat; [done|].
  rewrite accumulate_norms by done.
  fold (Embedding.sum_squares a) (Embedding.sum_squares b).
  destruct Hzero as [H|H]; rewrite (sum_squares_zero _ H).
  - change (Embedding.sqrt 0 =? 0)%float with true. cbn [orb]. congruence.
  - change (Embedding.sqrt 0 =? 0)%float with true. rewrite orb_true_r. congruence.
Qed.

Lemma zero_times_below z x : is_zero z → gtb (z * x) threshold = false.
Proof.
  intros Hz. apply is_zero_Prim2SF in Hz as [s Hz].
  unfold gtb. rewrite FloatAxioms.ltb_spec, mul_spec, Hz.
  destruct (Prim2SF x) as [sx|sx| |sx mx ex]; destruct s; try destruct sx; by vm_compute.
Qed.

Section RankerSteps.

Variable math : MathLib.
Variable now : nat → Time.

Lemma scoreVolunteer_unqualified need matches volunteer :
  qualifiesVolunteer math need volunteer = false →
  Matching.scoreVolunteer math now need matches volunteer = matches.
Proof.
  unfold qualifiesVolunteer, Matching.scoreVolunteer.
  destruct (_ =? 0)%nat; [done|]. cbn [negb andb].
  destruct (Embedding.CalculateSimilarity _ _); [|done].
  by intros ->.
Qed.

Lemma scoreNeed_unqualified volunteer matches need :
  qualifiesNeed math volunteer need = false →
  Matching.scoreNeed math now volunteer matches need = matches.
Proof.
  unfold qualifiesNeed, Matching.scoreNeed.
  destruct (_ =? 0)%nat; [done|]. cbn [negb andb].
  destruct (Embedding.CalculateSimilarity _ _); [|done].
  by intros ->.
Qed.

Lemma scoreVolunteer_qualified need matches volunteer :
  qualifiesVolunteer math need volunteer = true →
  ∃ m, Matching.scoreVolunteer math now need matches volunteer = matches ++ [m]
       ∧ backed_by_volunteer math need m volunteer.
Proof.
  unfold qualifiesVolunteer, Matching.scoreVolunteer.
  destruct (_ =? 0)%nat eqn:Hemb; [done|]. cbn [negb andb].
  destruct (Embedding.CalculateSimilarity _ _) as [similarity|] eqn:Hsim; [|done].
  intros ->. eexists. split; [done|].
  split; [done|]. split; [done|]. split.
  { intros Hnil. by rewrite Hnil in Hemb. }
  split; [done|]. by exists similarity.
Qed.

Lemma scoreNeed_qualified volunteer matches need :
  qualifiesNeed math volunteer need = true →
  ∃ m, Matching.scoreNeed math now volunteer matches need = matches ++ [m]
       ∧ backed_by_need math volunteer m need.
Proof.
  unfold qualifiesNeed, Matching.scoreNeed.
  destruct (_ =? 0)%nat eqn:Hemb; [done|]. cbn [negb andb].
  destruct (Embedding.CalculateSimilarity _ _) as [similarity|] eqn:Hsim; [|done].
  intros ->. eexists. split; [done|].
  split; [done|]. split; [done|]. split.
  { intros Hnil. by rewrite Hnil in Hemb. }
  split; [done|]. by exists similarity.
Qed.

Lemma qualifiesVolunteer_zero need volunteer :
  zero_vector (need_Embedding need) ∨ zero_vector (vol_Embedding volunteer) →
  qualifiesVolunteer math need volunteer = false.
Proof.
  intros Hzero. unfold qualifiesVolunteer.
  destruct (Embedding.CalculateSimilarity _ _) as [similarity|] eqn:Hsim;
    [|apply andb_false_r].
  rewrite (similarity_zero_vector _ _ _ Hzero Hsim), zero_times_below by (by left).
  apply andb_false_r.
Qed.

Lemma qualifiesNeed_zero volunteer need :
  zero_vector (need_Embedding need) ∨ zero_vector (vol_Embedding volunteer) →
  qualifiesNeed math volunteer need = false.
Proof.
  intros Hzero. unfold qualifiesNeed.
  destruct (Embedding.CalculateSimilarity _ _) as [similarity|] eqn:Hsim;
    [|apply andb_false_r].
  apply or_comm in Hzero.
  rewrite (similarity_zero_vector _ _ _ Hzero Hsim).
  rewrite zero_times_below by (by left). apply andb_false_r.
Qed.

End RankerSteps.

(** The loop over the pool, for a step that appends one Match for a
    candidate that qualifies and nothing for one that does not. *)
Lemma fold_kept {C} (step : list Match → C → list Match) (q : C → bool)
    (P : Match → C → Prop) :
  (∀ ms c, q c = false → step ms c = ms) →
  (∀ ms c, q c = true → ∃ m, step ms c = ms ++ [m] ∧ P m c) →
  ∀ pool matches, ∃ new,
    fold_left step pool matches = matches ++ new ∧ Forall2 P new (List.filter q pool).
Proof.
  intros Hskip Hkeep pool.
  induction pool as [|c pool IH]; intros matches; simpl.
  - exists []. by rewrite app_nil_r.
  - destruct (q c) eqn:Hq.
    + destruct (Hkeep matches c Hq) as (m & -> & Hm).
      destruct (IH (matches ++ [m])) as (new & -> & Hnew).
      exists (m :: new). rewrite <- app_assoc. split; [done|]. by constructor.
    + rewrite (Hskip _ _ Hq). apply IH.
Qed.

Lemma fold_filter {C} (step : list Match → C → list Match) (q : C → bool) :
  (∀ ms c, q c = false → step ms c = ms) →
  ∀ pool matches,
    fold_left step pool matches = fold_left step (List.filter q pool) matches.
Proof.
  intros Hskip pool.
  induction pool as [|c pool IH]; intros matches; simpl; [done|].
  destruct (q c) eqn:Hq; simpl; [apply IH|].
  rewrite (Hskip _ _ Hq). apply IH.
Qed.

Lemma keptVolunteers_backed math now need volunteers :
  Forall2 (backed_by_volunteer math need)
    (Matching.keptVolunteers math now need volunteers)
    (List.filter (qualifiesVolunteer math need) volunteers).
Proof.
  destruct (fold_kept (Matching.scoreVolunteer math now need)
              (qualifiesVolunteer math need) (backed_by_volunteer math need)
              (λ ms c, scoreVolunteer_unqualified math now need ms c)
              (λ ms c, scoreVolunteer_qualified math now need ms c)
              volunteers []) as (new & Hnew & H).
  unfold Matching.keptVolunteers. by rewrite Hnew.
Qed.

Lemma keptNeeds_backed math now volunteer needs :
  Forall2 (backed_by_need math volunteer)
    (Matching.keptNeeds math now volunteer needs)
    (List.filter (qualifiesNeed math volunteer) needs).
Proof.
  destruct (fold_kept (Matching.scoreNeed math now volunteer)
              (qualifiesNeed math volunteer) (backed_by_need math volunteer)
              (λ ms c, scoreNeed_unqualified math now volunteer ms c)
              (λ ms c, scoreNeed_qualified math now volunteer ms c)
              needs []) as (new & Hnew & H).
  unfold Matching.keptNeeds. by rewrite Hnew.
Qed.

Lemma keptVolunteers_above math now need volunteers :
  Forall above_threshold (Matching.keptVolunteers math now need volunteers).
Proof. apply fold_above; [|constructor]. intros. by apply scoreVolunteer_above. Qed.

Lemma keptNeeds_above math now volunteer needs :
  Forall above_threshold (Matching.keptNeeds math now volunteer needs).
Proof. apply fold_above; [|constructor]. intros. by apply scoreNeed_above. Qed.

Lemma topMatches_sublist limit ms : Matching.topMatches limit ms `sublist_of` ms.
Proof.
  unfold Matching.topMatches. destruct (_ >? _)%Z; [apply sublist_take|done].
Qed.

Lemma topMatches_prefix limit1 limit2 ms :
  (0 < limit1 ≤ limit2)%Z →
  Matching.topMatches limit1 ms `prefix_of` Matching.topMatches limit2 ms.
Proof.
  intros Hle. unfold Matching.topMatches.
  destruct (_ >? limit1)%Z eqn:H1, (_ >? limit2)%Z eqn:H2; try lia.
  - replace (firstn (Z.to_nat limit1) ms)
      with (take (Z.to_nat limit1) (take (Z.to_nat limit2) ms)).
    + apply prefix_take.
    + rewrite take_take. f_equal. lia.
  - apply prefix_take.
  - done.
Qed.

Lemma effectiveLimit_pos limit : (0 < Matching.effectiveLimit limit)%Z.
Proof. unfold Matching.effectiveLimit. destruct (limit <=? 0)%Z eqn:H; lia. Qed.

Section RankerTop.

Variable srt : sorter.
Hypothesis srt_spec : sort_Slice_spec srt.

Lemma topMatches_best limit kept :
  Forall above_threshold kept →
  best_of limit kept
    (Matching.topMatches (Matching.effectiveLimit limit) (srt Matching.byScoreDesc kept)).
Proof.
  intros Hkept m Hm.
  set (sorted := srt Matching.byScoreDesc kept).
  assert (Forall above_threshold sorted) as Habove.
  { unfold sorted. by rewrite (sort_Slice_perm _ srt_spec). }
  assert (sorted_by Matching.byScoreDesc sorted) as Hsorted.
  { apply (sort_Slice_sorted _ srt_spec). by apply byScoreDesc_ordering. }
  assert (m ∈ sorted) as Hin.
  { unfold sorted. by rewrite (sort_Slice_perm _ srt_spec). }
  apply list_elem_of_lookup in Hin as [i Hi].
  pose proof (effectiveLimit_pos limit) as Hpos.
  unfold best_of, Matching.topMatches.
  change (if (limit <=? 0)%Z then 10%Z else limit) with (Matching.effectiveLimit limit).
  fold sorted. set (lim := Matching.effectiveLimit limit) in *.
  destruct (Z.of_nat (length sorted) >? lim)%Z eqn:Hlen;
    [|left; by eapply list_elem_of_lookup_2].
  set (n := Z.to_nat lim).
  destruct (decide (i < n)) as [Hlt|Hge].
  - left. apply list_elem_of_lookup. exists i. by apply lookup_take_Some.
  - right. split.
    + rewrite length_take. lia.
    + intros m' Hm'. apply list_elem_of_lookup in Hm' as [j Hj].
      apply lookup_take_Some in Hj as [Hj Hjn].
      rewrite Forall_forall in Habove. apply not_ltb_leb.
      * apply above_threshold_not_nan, Habove. by eapply list_elem_of_lookup_2.
      * apply above_threshold_not_nan, Habove. by eapply list_elem_of_lookup_2.
      * refine (Hsorted j i m' m _ Hj Hi). fold n in Hjn. lia.
Qed.

Lemma topMatches_submseteq limit kept :
  Matching.topMatches limit (srt Matching.byScoreDesc kept) ⊆+ kept.
Proof.
  rewrite <- (sort_Slice_perm _ srt_spec Matching.byScoreDesc kept) at 2.
  apply sublist_submseteq, topMatches_sublist.
Qed.

Lemma topMatches_all limit kept :
  (Z.of_nat (length kept) ≤ limit)%Z →
  Matching.topMatches limit (srt Matching.byScoreDesc kept) ≡ₚ kept.
Proof.
  intros Hle. unfold Matching.topMatches.
  rewrite (Permutation_length (sort_Slice_perm _ srt_spec Matching.byScoreDesc kept)).
  destruct (_ >? _)%Z eqn:H; [lia|]. apply (sort_Slice_perm _ srt_spec).
Qed.

Lemma topMatches_length limit kept :
  (0 ≤ limit)%Z →
  Z.of_nat (length (Matching.topMatches limit (srt Matching.byScoreDesc kept)))
  = Z.min limit (Z.of_nat (length kept)).
Proof.
  intros Hpos. unfold Matching.topMatches.
  pose proof (Permutation_length (sort_Slice_perm _ srt_spec Matching.byScoreDesc kept)) as Hlen.
  destruct (_ >? _)%Z eqn:H; [rewrite length_take|]; lia.
Qed.

End RankerTop.

(** ** The match ranker: failures, and what is kept *)

Lemma keptVolunteers_skip math now need before bad after :
  is_Err (Embedding.CalculateSimilarity (need_Embedding need) (vol_Embedding bad)) = true →
  Matching.keptVolunteers math now need (before ++ bad :: after)
  = Matching.keptVolunteers math now need (before ++ after).
Proof.
  intros Hbad. unfold Matching.keptVolunteers.
  rewrite !fold_left_app. simpl. by rewrite scoreVolunteer_skip.
Qed.

Lemma keptNeeds_skip math now volunteer before bad after :
  is_Err (Embedding.CalculateSimilarity (vol_Embedding volunteer) (need_Embedding bad)) = true →
  Matching.keptNeeds math now volunteer (before ++ bad :: after)
  = Matching.keptNeeds math now volunteer (before ++ after).
Proof.
  intros Hbad. unfold Matching.keptNeeds.
  rewrite !fold_left_app. simpl. by rewrite scoreNeed_skip.
Qed.

(** C8. A ranking pass returns an error exactly when the fetch of the
    candidate pool did. A candidate on which the similarity scorer fails
    is skipped, and the pass goes on to score the others. The ranking is
    the one of the pool without that candidate. The loop keeps one Match,
    in the order of the pool, for each of the other candidates that
    qualifies (embedding present, scorer succeeds, combined score above
    0.3), and none besides; each carries the identifiers, the Distance
    and the Score of its candidate. For a [sort.Slice] that keeps its
    contract, the ranking returned is made of these Matches and has as
    many entries as there are such candidates, or as the limit in force
    allows if that is less. *)
Theorem ranking_aborts_only_on_fetch_failure :
  ∀ (math : MathLib) (srt : sorter) (now : nat → Time),
    (∀ fetched need limit,
        is_Err (Matching.FindMatchesForNeed math srt now fetched need limit)
        = is_Err fetched) ∧
    (∀ fetched volunteer limit,
        is_Err (Matching.FindMatchesForVolunteer math srt now fetched volunteer limit)
        = is_Err fetched) ∧
    (∀ need before bad after limit,
        is_Err (Embedding.CalculateSimilarity (need_Embedding need) (vol_Embedding bad)) = true →
        Matching.FindMatchesForNeed math srt now (Ok (before ++ bad :: after)) need limit
        = Matching.FindMatchesForNeed math srt now (Ok (before ++ after)) need limit ∧
        Forall2 (backed_by_volunteer math need)
          (Matching.keptVolunteers math now need (before ++ bad :: after))
          (List.filter (qualifiesVolunteer math need) (before ++ after)) ∧
        (sort_Slice_spec srt →
         ∃ ms,
           Matching.FindMatchesForNeed math srt now (Ok (before ++ bad :: after)) need limit
           = Ok ms ∧
           ms ⊆+ Matching.keptVolunteers math now need (before ++ bad :: after) ∧
           Z.of_nat (length ms)
           = Z.min (Matching.effectiveLimit limit)
               (Z.of_nat (length (List.filter (qualifiesVolunteer math need)
                                    (before ++ after)))))) ∧
    (∀ volunteer before bad after limit,
        is_Err (Embedding.CalculateSimilarity (vol_Embedding volunteer) (need_Embedding bad)) = true →
        Matching.FindMatchesForVolunteer math srt now (Ok (before ++ bad :: after)) volunteer limit
        = Matching.FindMatchesForVolunteer math srt now (Ok (before ++ after)) volunteer limit ∧
        Forall2 (backed_by_need math volunteer)
          (Matching.keptNeeds math now volunteer (before ++ bad :: after))
          (List.filter (qualifiesNeed math volunteer) (before ++ after)) ∧
        (sort_Slice_spec srt →
         ∃ ms,
           Matching.FindMatchesForVolunteer math srt now (Ok (before ++ bad :: after))
             volunteer limit = Ok ms ∧
           ms ⊆+ Matching.keptNeeds math now volunteer (before ++ bad :: after) ∧
           Z.of_nat (length ms)
           = Z.min (Matching.effectiveLimit limit)
               (Z.of_nat (length (List.filter (qualifiesNeed math volunteer)
                                    (before ++ after)))))).
Proof.
  intros math srt now. split; [|split; [|split]].
  - intros [pool|err] need limit; reflexivity.
  - intros [pool|err] volunteer limit; reflexivity.
  - intros need before bad after limit Hbad.
    pose proof (keptVolunteers_skip math now need before bad after Hbad) as Hskip.
    pose proof (keptVolunteers_backed math now need (before ++ after)) as Hkept.
    split; [|split].
    + unfold Matching.FindMatchesForNeed. by rewrite Hskip.
    + by rewrite Hskip.
    + intros Hsrt. eexists. split; [reflexivity|]. split.
      * apply (topMatches_submseteq _ Hsrt).
      * rewrite (topMatches_length _ Hsrt)
          by (pose proof (effectiveLimit_pos limit); lia).
        by rewrite Hskip, (Forall2_length _ _ _ Hkept).
  - intros volunteer before bad after limit Hbad.
    pose proof (keptNeeds_skip math now volunteer before bad after Hbad) as Hskip.
    pose proof (keptNeeds_backed math now volunteer (before ++ after)) as Hkept.
    split; [|split].
    + unfold Matching.FindMatchesForVolunteer. by rewrite Hskip.
    + by rewrite Hskip.
    + intros Hsrt. eexists. split; [reflexivity|]. split.
      * apply (topMatches_submseteq _ Hsrt).
      * rewrite (topMatches_length _ Hsrt)
          by (pose proof (effectiveLimit_pos limit); lia).
        by rewrite Hskip, (Forall2_length _ _ _ Hkept).
Qed.

(** The theorem above at a pool whose second volunteer has an embedding
    of the wrong dimension, between two volunteers that qualify: both
    are kept and returned. *)
Lemma ranking_aborts_only_on_fetch_failure_witness :
  let need := sample_need 100 [1%float] in
  let first := sample_volunteer 2 [1%float] in
  let bad := sample_volunteer 4 [1%float; 0%float] in
  let last := sample_volunteer 1 [1%float] in
  is_Err (Embedding.CalculateSimilarity (need_Embedding need) (vol_Embedding bad)) = true ∧
  sort_Slice_spec insertionSort_func ∧
  List.filter (qualifiesVolunteer first_order_math need) ([first] ++ [last]) = [first; last] ∧
  Matching.FindMatchesForNeed first_order_math insertionSort_func Z.of_nat
    (Ok ([first] ++ bad :: [last])) need 5
  = Matching.FindMatchesForNeed first_order_math insertionSort_func Z.of_nat
      (Ok ([first] ++ [last])) need 5 ∧
  Forall2 (backed_by_volunteer first_order_math need)
    (Matching.keptVolunteers first_order_math Z.of_nat need ([first] ++ bad :: [last]))
    (List.filter (qualifiesVolunteer first_order_math need) ([first] ++ [last])) ∧
  ∃ ms,
    Matching.FindMatchesForNeed first_order_math insertionSort_func Z.of_nat
      (Ok ([first] ++ bad :: [last])) need 5 = Ok ms ∧
    ms ⊆+ Matching.keptVolunteers first_order_math Z.of_nat need ([first] ++ bad :: [last]) ∧
    Z.of_nat (length ms)
    = Z.min (Matching.effectiveLimit 5)
        (Z.of_nat (length (List.filter (qualifiesVolunteer first_order_math need)
                             ([first] ++ [last])))).
Proof.
  cbv zeta.
  pose proof (proj1 (proj2 (proj2 (ranking_aborts_only_on_fetch_failure
                                     first_order_math insertionSort_func Z.of_nat)))
                (sample_need 100 [1%float]) [sample_volunteer 2 [1%float]]
                (sample_volunteer 4 [1%float; 0%float]) [sample_volunteer 1 [1%float]]
                5%Z eq_refl) as H.
  split; [reflexivity|]. split; [exact insertionSort_func_spec|].
  split; [by vm_compute|]. split; [exact (proj1 H)|].
  split; [exact (proj1 (proj2 H))|].
  exact (proj2 (proj2 H) insertionSort_func_spec).
Defined.

Lemma NoDup_submseteq_inv {A} (l k : list A) : l ⊆+ k → NoDup k → NoDup l.
Proof.
  intros Hsub Hk. apply submseteq_Permutation in Hsub as [k' Hk'].
  rewrite Hk' in Hk. by apply NoDup_app in Hk as [? _].
Qed.

Lemma filter_sublist {A} (q : A → bool) l : List.filter q l `sublist_of` l.
Proof.
  induction l as [|x l IH]; simpl; [done|].
  destruct (q x); [by apply sublist_skip|by apply sublist_cons].
Qed.

Lemma backed_by_volunteer_ids math need ms vs :
  Forall2 (backed_by_volunteer math need) ms vs → VolunteerID <$> ms = vol_ID <$> vs.
Proof.
  induction 1 as [|m v ms vs (_ & Hid & _) _ IH]; [done|].
  rewrite !fmap_cons. by f_equal.
Qed.

Lemma backed_by_need_ids math volunteer ms ns :
  Forall2 (backed_by_need math volunteer) ms ns → NeedID <$> ms = need_ID <$> ns.
Proof.
  induction 1 as [|m n ms ns (Hid & _) _ IH]; [done|].
  rewrite !fmap_cons. by f_equal.
Qed.

(** X3. An embedding that is a zero vector never matches. A candidate
    whose embedding is all zeros (of either sign), or any candidate when
    the subject's embedding is all zeros, adds no Match in either ranker:
    the scorer gives 0 or fails, and 0 times any distance score, also an
    infinite one or a NaN, is not above the threshold. A subject whose
    embedding is a zero vector therefore gets the empty ranking. *)
Theorem zero_embedding_never_matches :
  ∀ (math : MathLib) (srt : sorter) (now : nat → Time),
    sort_Slice_spec srt →
    (∀ need volunteer matches,
        zero_vector (need_Embedding need) ∨ zero_vector (vol_Embedding volunteer) →
        Matching.scoreVolunteer math now need matches volunteer = matches ∧
        Matching.scoreNeed math now volunteer matches need = matches) ∧
    (∀ need volunteers limit,
        zero_vector (need_Embedding need) →
        Matching.FindMatchesForNeed math srt now (Ok volunteers) need limit = Ok []) ∧
    (∀ volunteer needs limit,
        zero_vector (vol_Embedding volunteer) →
        Matching.FindMatchesForVolunteer math srt now (Ok needs) volunteer limit = Ok []).
Proof.
  intros math srt now Hsrt.
  assert (srt Matching.byScoreDesc [] = []) as Hnil.
  { apply Permutation_nil_r. by rewrite (sort_Slice_perm _ Hsrt). }
  split; [|split].
  - intros need volunteer matches Hzero. split.
    + by apply scoreVolunteer_unqualified, qualifiesVolunteer_zero.
    + by apply scoreNeed_unqualified, qualifiesNeed_zero.
  - intros need volunteers limit Hzero.
    unfold Matching.FindMatchesForNeed, Matching.keptVolunteers.
    rewrite fold_skip; [by rewrite Hnil, topMatches_nil|].
    intros ms v. apply scoreVolunteer_unqualified, qualifiesVolunteer_zero. by left.
  - intros volunteer needs limit Hzero.
    unfold Matching.FindMatchesForVolunteer, Matching.keptNeeds.
    rewrite fold_skip; [by rewrite Hnil, topMatches_nil|].
    intros ms n. apply scoreNeed_unqualified, qualifiesNeed_zero. by right.
Qed.

(** The theorem above for a need whose embedding is [0, -0] and a pool of
    two volunteers with embeddings of that length. *)
Lemma zero_embedding_never_matches_witness :
  sort_Slice_spec insertionSort_func ∧
  zero_vector (need_Embedding (sample_need 100 [0; -0]%float)) ∧
  Matching.FindMatchesForNeed first_order_math insertionSort_func Z.of_nat
    (Ok [sample_volunteer 1 [1; 2]%float; sample_volunteer 2 [3; 4]%float])
    (sample_need 100 [0; -0]%float) 5 = Ok [].
Proof.
  assert (zero_vector (need_Embedding (sample_need 100 [0; -0]%float))) as Hzero.
  { apply Forall_cons. split; [by left|].
    apply Forall_cons. split; [by right|]. apply Forall_nil_2. }
  split; [exact insertionSort_func_spec|]. split; [exact Hzero|].
  exact (proj1 (proj2 (zero_embedding_never_matches
                         first_order_math insertionSort_func Z.of_nat
                         insertionSort_func_spec))
               (sample_need 100 [0; -0]%float) _ 5%Z Hzero).
Defined.

(** X4. The two rankers score a pair alike. For a need and a volunteer,
    the loop of the ranker for needs and the loop of the ranker for
    volunteers append the same Match or both append nothing, so ranking
    the one volunteer for the need and ranking the one need for the
    volunteer give the same result. *)
Theorem rankers_agree_on_a_pair :
  ∀ (math : MathLib) (srt : sorter) (now : nat → Time) need volunteer,
    (∀ matches,
        Matching.scoreVolunteer math now need matches volunteer
        = Matching.scoreNeed math now volunteer matches need) ∧
    (∀ limit,
        Matching.FindMatchesForNeed math srt now (Ok [volunteer]) need limit
        = Matching.FindMatchesForVolunteer math srt now (Ok [need]) volunteer limit).
Proof.
  intros math srt now need volunteer.
  assert (∀ matches,
            Matching.scoreVolunteer math now need matches volunteer
            = Matching.scoreNeed math now volunteer matches need) as Hstep.
  { intros matches.
    destruct (need_Embedding need) as [|x e1] eqn:Hn.
    { rewrite scoreVolunteer_empty_need by done.
      unfold Matching.scoreNeed. by rewrite Hn. }
    destruct (vol_Embedding volunteer) as [|y e2] eqn:Hv.
    { rewrite scoreNeed_empty_volunteer by done.
      unfold Matching.scoreVolunteer. by rewrite Hv. }
    unfold Matching.scoreVolunteer, Matching.scoreNeed.
    by rewrite Hn, Hv, (CalculateSimilarity_comm (x :: e1)). }
  split; [done|]. intros limit.
  unfold Matching.FindMatchesForNeed, Matching.FindMatchesForVolunteer,
    Matching.keptVolunteers, Matching.keptNeeds. simpl. by rewrite Hstep.
Qed.

(** X5. Every Match of a ranking comes from the pool. For a
    [sort.Slice] that keeps its contract, each Match returned for a need
    is backed by a volunteer of the fetched pool: it carries the need's
    and that volunteer's identifiers, the volunteer has an embedding on
    which the scorer succeeds, Distance is the geo scorer's distance
    between the two locations and Score is the similarity times the
    distance score of that Distance. The same holds of the needs when
    ranking for a volunteer. *)
Theorem matches_come_from_the_pool :
  ∀ (math : MathLib) (srt : sorter) (now : nat → Time),
    sort_Slice_spec srt →
    (∀ need volunteers limit, ∃ ms,
        Matching.FindMatchesForNeed math srt now (Ok volunteers) need limit = Ok ms
        ∧ ∀ m, m ∈ ms →
            ∃ volunteer, volunteer ∈ volunteers ∧ backed_by_volunteer math need m volunteer) ∧
    (∀ volunteer needs limit, ∃ ms,
        Matching.FindMatchesForVolunteer math srt now (Ok needs) volunteer limit = Ok ms
        ∧ ∀ m, m ∈ ms →
            ∃ need, need ∈ needs ∧ backed_by_need math volunteer m need).
Proof.
  intros math srt now Hsrt. split.
  - intros need volunteers limit. eexists. split; [reflexivity|].
    intros m Hm.
    pose proof (elem_of_submseteq _ _ _ Hm (topMatches_submseteq _ Hsrt _ _)) as Hkept.
    apply list_elem_of_lookup in Hkept as [i Hi].
    destruct (Forall2_lookup_l _ _ _ _ _ (keptVolunteers_backed math now need volunteers) Hi)
      as (v & Hv & Hbacked).
    exists v. split; [|done].
    apply list_elem_of_lookup_2 in Hv.
    apply (elem_of_submseteq _ _ _ Hv), sublist_submseteq, filter_sublist.
  - intros volunteer needs limit. eexists. split; [reflexivity|].
    intros m Hm.
    pose proof (elem_of_submseteq _ _ _ Hm (topMatches_submseteq _ Hsrt _ _)) as Hkept.
    apply list_elem_of_lookup in Hkept as [i Hi].
    destruct (Forall2_lookup_l _ _ _ _ _ (keptNeeds_backed math now volunteer needs) Hi)
      as (n & Hn & Hbacked).
    exists n. split; [|done].
    apply list_elem_of_lookup_2 in Hn.
    apply (elem_of_submseteq _ _ _ Hn), sublist_submseteq, filter_sublist.
Qed.

(** The theorem above at a pool of four volunteers and limit 5. *)
Lemma matches_come_from_the_pool_witness :
  sort_Slice_spec insertionSort_func ∧
  let need := sample_need 100 [1%float] in
  let pool := [sample_volunteer 2 [1%float]; sample_volunteer 1 [1%float];
               sample_volunteer 3 []; sample_volunteer 4 [1%float; 0%float]] in
  ∃ ms,
    Matching.FindMatchesForNeed first_order_math insertionSort_func Z.of_nat
      (Ok pool) need 5 = Ok ms
    ∧ ∀ m, m ∈ ms →
        ∃ volunteer, volunteer ∈ pool ∧ backed_by_volunteer first_order_math need m volunteer.
Proof.
  split; [exact insertionSort_func_spec|].
  exact (proj1 (matches_come_from_the_pool
                  first_order_math insertionSort_func Z.of_nat insertionSort_func_spec)
               (sample_need 100 [1%float]) _ 5%Z).
Defined.

(** X6. A ranking lists qualifying candidates, each at most once per
    entry of the pool. For a [sort.Slice] that keeps its contract, the
    volunteer identifiers of the ranking for a need are, as a multiset,
    among those of the pool's volunteers that qualify (embedding present,
    scorer succeeds, combined score above 0.3); the ranking has exactly
    as many entries as there are such volunteers, or as the limit in
    force allows if that is less; and a pool without repeated identifiers
    gives a ranking without repeated identifiers. The same holds when
    ranking needs for a volunteer. *)
Theorem ranking_lists_qualifying_candidates :
  ∀ (math : MathLib) (srt : sorter) (now : nat → Time),
    sort_Slice_spec srt →
    (∀ need volunteers limit, ∃ ms,
        Matching.FindMatchesForNeed math srt now (Ok volunteers) need limit = Ok ms
        ∧ VolunteerID <$> ms
            ⊆+ vol_ID <$> List.filter (qualifiesVolunteer math need) volunteers
        ∧ Z.of_nat (length ms)
          = Z.min (Matching.effectiveLimit limit)
              (Z.of_nat (length (List.filter (qualifiesVolunteer math need) volunteers)))
        ∧ (NoDup (vol_ID <$> volunteers) → NoDup (VolunteerID <$> ms))) ∧
    (∀ volunteer needs limit, ∃ ms,
        Matching.FindMatchesForVolunteer math srt now (Ok needs) volunteer limit = Ok ms
        ∧ NeedID <$> ms
            ⊆+ need_ID <$> List.filter (qualifiesNeed math volunteer) needs
        ∧ Z.of_nat (length ms)
          = Z.min (Matching.effectiveLimit limit)
              (Z.of_nat (length (List.filter (qualifiesNeed math volunteer) needs)))
        ∧ (NoDup (need_ID <$> needs) → NoDup (NeedID <$> ms))).
Proof.
  intros math srt now Hsrt. split.
  - intros need volunteers limit. eexists. split; [reflexivity|].
    pose proof (keptVolunteers_backed math now need volunteers) as Hkept.
    assert (VolunteerID <$> Matching.topMatches (Matching.effectiveLimit limit)
              (srt Matching.byScoreDesc (Matching.keptVolunteers math now need volunteers))
            ⊆+ vol_ID <$> List.filter (qualifiesVolunteer math need) volunteers) as Hsub.
    { rewrite <- (backed_by_volunteer_ids _ _ _ _ Hkept).
      apply fmap_submseteq, (topMatches_submseteq _ Hsrt). }
    split; [done|]. split.
    + rewrite (topMatches_length _ Hsrt) by (pose proof (effectiveLimit_pos limit); lia).
      by rewrite (Forall2_length _ _ _ Hkept).
    + intros Hnodup. apply (NoDup_submseteq_inv _ _ Hsub).
      apply (sublist_NoDup _ _ Hnodup), fmap_sublist, filter_sublist.
  - intros volunteer needs limit. eexists. split; [reflexivity|].
    pose proof (keptNeeds_backed math now volunteer needs) as Hkept.
    assert (NeedID <$> Matching.topMatches (Matching.effectiveLimit limit)
              (srt Matching.byScoreDesc (Matching.keptNeeds math now volunteer needs))
            ⊆+ need_ID <$> List.filter (qualifiesNeed math volunteer) needs) as Hsub.
    { rewrite <- (backed_by_need_ids _ _ _ _ Hkept).
      apply fmap_submseteq, (topMatches_submseteq _ Hsrt). }
    split; [done|]. split.
    + rewrite (topMatches_length _ Hsrt) by (pose proof (effectiveLimit_pos limit); lia).
      by rewrite (Forall2_length _ _ _ Hkept).
    + intros Hnodup. apply (NoDup_submseteq_inv _ _ Hsub).
      apply (sublist_NoDup _ _ Hnodup), fmap_sublist, filter_sublist.
Qed.

(** The theorem above at a pool of four volunteers, two of which
    qualify, and limit 1. *)
Lemma ranking_lists_qualifying_candidates_witness :
  sort_Slice_spec insertionSort_func ∧
  let need := sample_need 100 [1%float] in
  let pool := [sample_volunteer 2 [1%float]; sample_volunteer 1 [1%float];
               sample_volunteer 3 []; sample_volunteer 4 [1%float; 0%float]] in
  ∃ ms,
    Matching.FindMatchesForNeed first_order_math insertionSort_func Z.of_nat
      (Ok pool) need 1 = Ok ms
    ∧ VolunteerID <$> ms
        ⊆+ vol_ID <$> List.filter (qualifiesVolunteer first_order_math need) pool
    ∧ Z.of_nat (length ms)
      = Z.min (Matching.effectiveLimit 1)
          (Z.of_nat (length (List.filter (qualifiesVolunteer first_order_math need) pool)))
    ∧ (NoDup (vol_ID <$> pool) → NoDup (VolunteerID <$> ms)).
Proof.
  split; [exact insertionSort_func_spec|].
  exact (proj1 (ranking_lists_qualifying_candidates
                  first_order_math insertionSort_func Z.of_nat insertionSort_func_spec)
               (sample_need 100 [1%float]) _ 1%Z).
Defined.

(** X7. A ranking holds the best. For a [sort.Slice] that keeps its
    contract, a candidate the loop kept is in the ranking returned, or
    the ranking has as many entries as the limit in force (10 for a limit
    that is zero or negative) and every Match in it has a Score at least
    that of the candidate: truncation drops only candidates that score no
    higher than all that are returned. *)
Theorem ranking_holds_the_best :
  ∀ (math : MathLib) (srt : sorter) (now : nat → Time),
    sort_Slice_spec srt →
    (∀ need volunteers limit, ∃ ms,
        Matching.FindMatchesForNeed math srt now (Ok volunteers) need limit = Ok ms
        ∧ best_of limit (Matching.keptVolunteers math now need volunteers) ms) ∧
    (∀ volunteer needs limit, ∃ ms,
        Matching.FindMatchesForVolunteer math srt now (Ok needs) volunteer limit = Ok ms
        ∧ best_of limit (Matching.keptNeeds math now volunteer needs) ms).
Proof.
  intros math srt now Hsrt. split.
  - intros need volunteers limit. eexists. split; [reflexivity|].
    apply (topMatches_best _ Hsrt), keptVolunteers_above.
  - intros volunteer needs limit. eexists. split; [reflexivity|].
    apply (topMatches_best _ Hsrt), keptNeeds_above.
Qed.

(** The theorem above at a pool of four volunteers, two of which are
    kept, and limit 1. *)
Lemma ranking_holds_the_best_witness :
  sort_Slice_spec insertionSort_func ∧
  let need := sample_need 100 [1%float] in
  let pool := [sample_volunteer 2 [1%float]; sample_volunteer 1 [1%float];
               sample_volunteer 3 []; sample_volunteer 4 [1%float; 0%float]] in
  ∃ ms,
    Matching.FindMatchesForNeed first_order_math insertionSort_func Z.of_nat
      (Ok pool) need 1 = Ok ms
    ∧ best_of 1 (Matching.keptVolunteers first_order_math Z.of_nat need pool) ms.
Proof.
  split; [exact insertionSort_func_spec|].
  exact (proj1 (ranking_holds_the_best
                  first_order_math insertionSort_func Z.of_nat insertionSort_func_spec)
               (sample_need 100 [1%float]) _ 1%Z).
Defined.

(** X8. A smaller limit gives a prefix. For one pool and one subject,
    the ranking returned for a limit is a prefix of the ranking returned
    for any limit that is at least as large, where a limit that is zero
    or negative counts as 10. *)
Theorem smaller_limit_gives_a_prefix :
  ∀ (math : MathLib) (srt : sorter) (now : nat → Time),
    (∀ need volunteers limit1 limit2,
        (Matching.effectiveLimit limit1 ≤ Matching.effectiveLimit limit2)%Z →
        ∃ ms1 ms2,
          Matching.FindMatchesForNeed math srt now (Ok volunteers) need limit1 = Ok ms1
          ∧ Matching.FindMatchesForNeed math srt now (Ok volunteers) need limit2 = Ok ms2
          ∧ ms1 `prefix_of` ms2) ∧
    (∀ volunteer needs limit1 limit2,
        (Matching.effectiveLimit limit1 ≤ Matching.effectiveLimit limit2)%Z →
        ∃ ms1 ms2,
          Matching.FindMatchesForVolunteer math srt now (Ok needs) volunteer limit1 = Ok ms1
          ∧ Matching.FindMatchesForVolunteer math srt now (Ok needs) volunteer limit2 = Ok ms2
          ∧ ms1 `prefix_of` ms2).
Proof.
  intros math srt now. split.
  - intros need volunteers limit1 limit2 Hle. eexists _, _.
    split; [reflexivity|]. split; [reflexivity|].
    apply topMatches_prefix. pose proof (effectiveLimit_pos limit1). lia.
  - intros volunteer needs limit1 limit2 Hle. eexists _, _.
    split; [reflexivity|]. split; [reflexivity|].
    apply topMatches_prefix. pose proof (effectiveLimit_pos limit1). lia.
Qed.

(** The theorem above at limits 1 and 0 (which counts as 10). *)
Lemma smaller_limit_gives_a_prefix_witness :
  (Matching.effectiveLimit 1 ≤ Matching.effectiveLimit 0)%Z ∧
  let need := sample_need 100 [1%float] in
  let pool := [sample_volunteer 2 [1%float]; sample_volunteer 1 [1%float]] in
  ∃ ms1 ms2,
    Matching.FindMatchesForNeed first_order_math insertionSort_func Z.of_nat
      (Ok pool) need 1 = Ok ms1
    ∧ Matching.FindMatchesForNeed first_order_math insertionSort_func Z.of_nat
        (Ok pool) need 0 = Ok ms2
    ∧ ms1 `prefix_of` ms2.
Proof.
  assert (Matching.effectiveLimit 1 ≤ Matching.effectiveLimit 0)%Z as Hle.
  { unfold Matching.effectiveLimit. simpl. lia. }
  split; [exact Hle|].
  exact (proj1 (smaller_limit_gives_a_prefix first_order_math insertionSort_func Z.of_nat)
               (sample_need 100 [1%float]) _ 1%Z 0%Z Hle).
Defined.

(** X9. Candidates that do not qualify do not matter. Ranking a pool
    gives the same result, timestamps included, as ranking the pool
    without the candidates that have no embedding, on which the scorer
    fails, or whose combined score is not above 0.3. *)
Theorem unqualified_candidates_do_not_matter :
  ∀ (math : MathLib) (srt : sorter) (now : nat → Time),
    (∀ need volunteers limit,
        Matching.FindMatchesForNeed math srt now (Ok volunteers) need limit
        = Matching.FindMatchesForNeed math srt now
            (Ok (List.filter (qualifiesVolunteer math need) volunteers)) need limit) ∧
    (∀ volunteer needs limit,
        Matching.FindMatchesForVolunteer math srt now (Ok needs) volunteer limit
        = Matching.FindMatchesForVolunteer math srt now
            (Ok (List.filter (qualifiesNeed math volunteer) needs)) volunteer limit).
Proof.
  intros math srt now. split.
  - intros need volunteers limit.
    unfold Matching.FindMatchesForNeed, Matching.keptVolunteers.
    by rewrite (fold_filter _ (qualifiesVolunteer math need)
                  (λ ms c, scoreVolunteer_unqualified math now need ms c)).
  - intros volunteer needs limit.
    unfold Matching.FindMatchesForVolunteer, Matching.keptNeeds.
    by rewrite (fold_filter _ (qualifiesNeed math volunteer)
                  (λ ms c, scoreNeed_unqualified math now volunteer ms c)).
Qed.

(** ** The notification hub: who is connected *)

Section HubQueries.

Import Hub.

Lemma GetConnectedUsers_fold ws order userIDs :
  fold_left
    (λ userIDs key,
       match clients ws !! key with
       | Some client => userIDs ++ [UserID client]
       | None => userIDs
       end)
    order userIDs
  = userIDs ++ omap (λ key, UserID <$> clients ws !! key) order.
Proof.
  revert userIDs. induction order as [|key order IH]; intros userIDs; simpl.
  - by rewrite app_nil_r.
  - rewrite IH. destruct (clients ws !! key) as [client|]; simpl; [|done].
    by rewrite <- app_assoc.
Qed.

Lemma omap_lookup_entries (m : gmap string WebSocketClient)
    (entries : list (string * WebSocketClient)) :
  (∀ key client, (key, client) ∈ entries → m !! key = Some client) →
  omap (λ key, UserID <$> m !! key) entries.*1 = (λ entry, UserID entry.2) <$> entries.
Proof.
  induction entries as [|[key client] entries IH]; intros Hm; [done|].
  rewrite !fmap_cons, <- IH by (intros k c Hkc; apply Hm; by right).
  simpl. by rewrite (Hm key client) by left.
Qed.

Lemma GetConnectedUsers_entries ws order :
  iteration ws order →
  GetConnectedUsers order ws ≡ₚ (λ entry, UserID entry.2) <$> map_to_list (clients ws).
Proof.
  intros Hiter. unfold GetConnectedUsers. rewrite GetConnectedUsers_fold. simpl.
  rewrite Hiter. rewrite omap_lookup_entries; [done|].
  intros key client. apply elem_of_map_to_list.
Qed.

Lemma connected_entries userID ws :
  connected userID ws ↔
  userID ∈ (λ entry : string * WebSocketClient, UserID entry.2) <$> map_to_list (clients ws).
Proof.
  rewrite list_elem_of_fmap. split.
  - intros (key & client & Hkey & Huser). exists (key, client). split; [done|].
    by apply elem_of_map_to_list.
  - intros ([key client] & Huser & Hin). apply elem_of_map_to_list in Hin.
    by exists key, client.
Qed.

End HubQueries.

(** X10. [IsUserConnected] answers true exactly for the users that own a
    registered connection, in whatever order Go visits the registry; so
    its answer does not depend on that order. *)
Theorem IsUserConnected_iff_connected :
  ∀ (order : list string) (userID : string) (ws : Hub.WebSocketService),
    Hub.iteration ws order →
    (Hub.IsUserConnected order userID ws = true ↔ Hub.connected userID ws) ∧
    (∀ order', Hub.iteration ws order' →
       Hub.IsUserConnected order' userID ws = Hub.IsUserConnected order userID ws).
Proof.
  intros order userID ws Hiter. split; [by apply IsUserConnected_spec|].
  intros order' Hiter'. apply eq_true_iff_eq.
  by rewrite !IsUserConnected_spec.
Qed.

(** The theorem above at the sample registry, for Bob. *)
Lemma IsUserConnected_iff_connected_witness :
  Hub.iteration Hub.sample_hub ["conn-a"; "conn-b"] ∧
  (Hub.IsUserConnected ["conn-a"; "conn-b"] "bob" Hub.sample_hub = true
   ↔ Hub.connected "bob" Hub.sample_hub).
Proof.
  split; [exact sample_hub_iteration|].
  exact (proj1 (IsUserConnected_iff_connected ["conn-a"; "conn-b"] "bob" Hub.sample_hub
                  sample_hub_iteration)).
Defined.

(** X11. [GetConnectedUsers] returns one entry per registered connection:
    in whatever order Go visits the registry, the list is a permutation
    of the users of the registered connections, so it is as long as the
    registry is large, a user with several connections is listed once
    for each, and a user is in the list exactly when [IsUserConnected]
    answers true for them. *)
Theorem GetConnectedUsers_lists_every_connection :
  ∀ (order : list string) (ws : Hub.WebSocketService),
    Hub.iteration ws order →
    Hub.GetConnectedUsers order ws
      ≡ₚ (λ entry, Hub.UserID entry.2) <$> map_to_list (Hub.clients ws) ∧
    length (Hub.GetConnectedUsers order ws) = size (Hub.clients ws) ∧
    (∀ userID,
       userID ∈ Hub.GetConnectedUsers order ws
       ↔ Hub.IsUserConnected order userID ws = true).
Proof.
  intros order ws Hiter.
  pose proof (GetConnectedUsers_entries ws order Hiter) as Hperm.
  split; [done|]. split.
  - by rewrite Hperm, length_fmap, length_map_to_list.
  - intros userID. rewrite Hperm, IsUserConnected_spec by done.
    symmetry. apply connected_entries.
Qed.

(** The theorem above at the sample registry. *)
Lemma GetConnectedUsers_lists_every_connection_witness :
  Hub.iteration Hub.sample_hub ["conn-a"; "conn-b"] ∧
  length (Hub.GetConnectedUsers ["conn-a"; "conn-b"] Hub.sample_hub)
  = size (Hub.clients Hub.sample_hub).
Proof.
  split; [exact sample_hub_iteration|].
  exact (proj1 (proj2 (GetConnectedUsers_lists_every_connection
                         ["conn-a"; "conn-b"] Hub.sample_hub sample_hub_iteration))).
Defined.

(** ** The notification hub: connecting and disconnecting *)

Section HubLifecycle.

Import Hub.

Lemma HandleWebSocket_eq json_Marshal id userID ws :
  HandleWebSocket json_Marshal id userID ws
  = {| clients := <[id := {| ID := id; UserID := userID;
                             Send := fresh (dom (chans ws)) |}]> (clients ws);
       chans := <[fresh (dom (chans ws)) := greeted (json_Marshal (welcomeMessage userID))]>
                  (chans ws) |}.
Proof.
  unfold HandleWebSocket, register, greeted, welcomeMessage. simpl.
  destruct (json_Marshal _) as [data|]; simpl; [|done].
  by rewrite insert_insert_eq.
Qed.

Lemma fresh_channel ws : chans ws !! fresh (dom (chans ws)) = None.
Proof. apply not_elem_of_dom, is_fresh. Qed.

Lemma registered_channel_not_fresh ws key client :
  wf ws → clients ws !! key = Some client → Send client ≠ fresh (dom (chans ws)).
Proof.
  intros [Hreg _] Hkey Heq. destruct (Hreg _ _ Hkey) as [_ (ch & Hch & _)].
  rewrite Heq, fresh_channel in Hch. done.
Qed.

Lemma unregister_unregistered client ws :
  clients ws !! ID client = None → unregister client ws = Done ws.
Proof. intros H. unfold unregister. by rewrite H. Qed.

Lemma unregister_after_sent data recipient ws ws' client :
  wf ws → wf ws' → sent data recipient ws ws' →
  clients ws !! ID client = Some client →
  ∃ ws'', unregister client ws' = Done ws'' ∧ wf ws'' ∧ clients ws'' !! ID client = None.
Proof.
  intros Hwf Hwf' Hsent Hkey.
  destruct (clients ws' !! ID client) as [client'|] eqn:Hkey'.
  - pose proof (sent_registered _ _ _ _ _ _ Hwf Hsent Hkey') as H.
    assert (client' = client) as -> by congruence.
    by apply wf_unregister.
  - exists ws'. split; [by apply unregister_unregistered|]. done.
Qed.

End HubLifecycle.

(** X12. [HandleWebSocket] for an identifier that is not in use, on a
    registry that keeps its invariant: the invariant still holds; the new
    client is registered under the identifier for the user, on a channel
    that no one had, of capacity 256, open, holding the greeting alone
    (or nothing if the greeting does not serialise); every client that
    was registered still is, with its queue as it was; no other
    identifier becomes registered; and the user now counts as connected,
    as does every user who did. *)
Theorem HandleWebSocket_registers_and_greets :
  ∀ (json_Marshal : Hub.WebSocketMessage → option Hub.bytes)
    (id userID : string) (ws : Hub.WebSocketService),
    Hub.wf ws → Hub.clients ws !! id = None →
    let ws' := Hub.HandleWebSocket json_Marshal id userID ws in
    Hub.wf ws' ∧
    (∃ client,
        Hub.clients ws' !! id = Some client ∧
        Hub.ID client = id ∧ Hub.UserID client = userID ∧
        Hub.chans ws !! Hub.Send client = None ∧
        Hub.chans ws' !! Hub.Send client
        = Some (greeted (json_Marshal (welcomeMessage userID)))) ∧
    (∀ key client,
        Hub.clients ws !! key = Some client →
        Hub.clients ws' !! key = Some client ∧
        Hub.chans ws' !! Hub.Send client = Hub.chans ws !! Hub.Send client) ∧
    (∀ key, key ≠ id → Hub.clients ws !! key = None → Hub.clients ws' !! key = None) ∧
    Hub.connected userID ws' ∧
    (∀ other, Hub.connected other ws → Hub.connected other ws').
Proof.
  intros json_Marshal id userID ws Hwf Hnew ws'.
  assert (∀ key client,
            Hub.clients ws !! key = Some client →
            Hub.clients ws' !! key = Some client ∧
            Hub.chans ws' !! Hub.Send client = Hub.chans ws !! Hub.Send client) as Hold.
  { intros key client Hkey. unfold ws'. rewrite HandleWebSocket_eq. simpl. split.
    - rewrite lookup_insert_ne; [done|]. intros <-. congruence.
    - rewrite lookup_insert_ne; [done|].
      intros Heq. by apply (registered_channel_not_fresh ws key client). }
  split; [by apply wf_HandleWebSocket|]. split; [|split; [done|split; [|split]]].
  - eexists. unfold ws'. rewrite HandleWebSocket_eq. simpl.
    split; [apply lookup_insert_eq|]. simpl.
    split; [done|]. split; [done|]. split; [apply fresh_channel|].
    apply lookup_insert_eq.
  - intros key Hne Hkey. unfold ws'. rewrite HandleWebSocket_eq. simpl.
    by rewrite lookup_insert_ne.
  - exists id. eexists. unfold ws'. rewrite HandleWebSocket_eq. simpl.
    split; [apply lookup_insert_eq|done].
  - intros other (key & client & Hkey & Huser). exists key, client.
    split; [|done]. by apply Hold.
Qed.

(** The theorem above for the first connection of a hub. *)
Lemma HandleWebSocket_registers_and_greets_witness :
  Hub.wf Hub.NewWebSocketService ∧
  Hub.clients Hub.NewWebSocketService !! "conn-c" = None ∧
  Hub.connected "carol"
    (Hub.HandleWebSocket Hub.sample_marshal "conn-c" "carol" Hub.NewWebSocketService).
Proof.
  split; [exact wf_empty|]. split; [reflexivity|].
  exact (proj1 (proj2 (proj2 (proj2 (proj2
           (HandleWebSocket_registers_and_greets Hub.sample_marshal "conn-c" "carol"
              Hub.NewWebSocketService wf_empty eq_refl)))))).
Defined.

(** X13. [unregister] of a registered client, on a registry that keeps
    its invariant, returns without a panic: the client leaves the
    registry, its queue is closed with its content kept, the invariant
    still holds, every other client stays registered with its queue as it
    was, and a second [unregister] of the client changes nothing. *)
Theorem unregister_removes_and_closes :
  ∀ (client : Hub.WebSocketClient) (ws : Hub.WebSocketService),
    Hub.wf ws → Hub.clients ws !! Hub.ID client = Some client →
    ∃ ch ws',
      Hub.chans ws !! Hub.Send client = Some ch ∧
      Hub.unregister client ws = Hub.Done ws' ∧
      Hub.wf ws' ∧
      Hub.clients ws' !! Hub.ID client = None ∧
      Hub.chans ws' !! Hub.Send client = Some (Hub.close ch) ∧
      (∀ key other,
          key ≠ Hub.ID client → Hub.clients ws !! key = Some other →
          Hub.clients ws' !! key = Some other ∧
          Hub.chans ws' !! Hub.Send other = Hub.chans ws !! Hub.Send other) ∧
      Hub.unregister client ws' = Hub.Done ws'.
Proof.
  intros client ws Hwf Hkey.
  pose proof Hwf as [Hreg Hinj]. destruct (Hreg _ _ Hkey) as [_ (ch & Hch & Hopen)].
  exists ch. eexists. split; [done|]. split.
  { unfold Hub.unregister. by rewrite Hkey, Hch, Hopen. }
  split; [by apply wf_evict|]. simpl. split; [apply lookup_delete_eq|].
  split; [apply lookup_insert_eq|]. split.
  - intros key other Hne Hother. split.
    + by rewrite lookup_delete_ne.
    + rewrite lookup_insert_ne; [done|].
      intros Heq. apply Hne. symmetry. by apply (Hinj _ _ _ _ Hkey Hother).
  - apply unregister_unregistered. simpl. apply lookup_delete_eq.
Qed.

(** The theorem above for Bob's connection in the sample registry. *)
Lemma unregister_removes_and_closes_witness :
  let bob := {| Hub.ID := "conn-b"; Hub.UserID := "bob"; Hub.Send := 1 |} in
  Hub.wf Hub.sample_hub ∧
  Hub.clients Hub.sample_hub !! Hub.ID bob = Some bob ∧
  ∃ ch ws',
    Hub.chans Hub.sample_hub !! Hub.Send bob = Some ch ∧
    Hub.unregister bob Hub.sample_hub = Hub.Done ws' ∧
    Hub.wf ws' ∧
    Hub.clients ws' !! Hub.ID bob = None ∧
    Hub.chans ws' !! Hub.Send bob = Some (Hub.close ch) ∧
    (∀ key other,
        key ≠ Hub.ID bob → Hub.clients Hub.sample_hub !! key = Some other →
        Hub.clients ws' !! key = Some other ∧
        Hub.chans ws' !! Hub.Send other = Hub.chans Hub.sample_hub !! Hub.Send other) ∧
    Hub.unregister bob ws' = Hub.Done ws'.
Proof.
  cbv zeta. split; [exact sample_hub_wf|].
  assert (Hub.clients Hub.sample_hub !! "conn-b"
          = Some {| Hub.ID := "conn-b"; Hub.UserID := "bob"; Hub.Send := 1 |}) as Hkey
    by (by vm_compute).
  split; [exact Hkey|].
  exact (unregister_removes_and_closes
           {| Hub.ID := "conn-b"; Hub.UserID := "bob"; Hub.Send := 1 |}
           Hub.sample_hub sample_hub_wf Hkey).
Defined.

(** ** The notification hub: sends to several users *)

Section HubSends.

Import Hub.

Variable json_Marshal : WebSocketMessage → option bytes.

Lemma userIDSet_lookup userIDs (set : gmap string bool) userID :
  default false (fold_left (λ set id, <[id := true]> set) userIDs set !! userID)
  = bool_decide (userID ∈ userIDs) || default false (set !! userID).
Proof.
  revert set. induction userIDs as [|id userIDs IH]; intros set; cbn [fold_left].
  - rewrite bool_decide_eq_false_2; [done|]. apply not_elem_of_nil.
  - rewrite IH. destruct (decide (id = userID)) as [->|Hne].
    + rewrite lookup_insert_eq. cbn [default]. rewrite orb_true_r.
      rewrite bool_decide_eq_true_2; [done|]. left.
    + rewrite lookup_insert_ne by done.
      f_equal. apply bool_decide_ext. rewrite elem_of_cons.
      split; [by right|]. intros [?|?]; [congruence|done].
Qed.

Lemma userIDSet_member userIDs userID :
  default false (fold_left (λ set id, <[id := true]> set) userIDs
                   (∅ : gmap string bool) !! userID)
  = bool_decide (userID ∈ userIDs).
Proof. by rewrite userIDSet_lookup, lookup_empty, orb_false_r. Qed.

Lemma rangeClients_ext body1 body2 order ws :
  (∀ client ws, body1 client ws = body2 client ws) →
  rangeClients body1 order ws = rangeClients body2 order ws.
Proof.
  intros Hext. revert ws. induction order as [|key order IH]; intros ws; simpl; [done|].
  destruct (clients ws !! key) as [client|]; [|apply IH].
  rewrite Hext. destruct (body2 client ws); simpl; [apply IH|done].
Qed.

Lemma SendToMultipleUsers_sent order userIDs message data ws :
  wf ws → iteration ws order → json_Marshal message = Some data →
  ∃ ws', SendToMultipleUsers json_Marshal order userIDs message ws = Done ws'
         ∧ wf ws' ∧ sent data (λ client, bool_decide (UserID client ∈ userIDs)) ws ws'.
Proof.
  intros Hwf Hiter Hdata. unfold SendToMultipleUsers. rewrite Hdata.
  destruct (send_loop_sent data
              (λ client, default false
                 (fold_left (λ set id, <[id := true]> set) userIDs
                    (∅ : gmap string bool) !! UserID client))
              order ws Hwf Hiter) as (ws' & Hrun & Hwf' & Hsent).
  exists ws'. split; [done|]. split; [done|].
  apply (sent_ext _ _ _ _ _ (λ key client _, userIDSet_member userIDs (UserID client)) Hsent).
Qed.

(** What a send does is fixed by the registry, the message and the
    recipients. *)
Lemma sent_unique data recipient ws ws1 ws2 :
  wf ws → sent data recipient ws ws1 → sent data recipient ws ws2 → ws1 = ws2.
Proof.
  intros [Hreg Hinj] (Hsent1 & Hnone1 & Hother1) (Hsent2 & Hnone2 & Hother2).
  assert (clients ws1 = clients ws2) as Hclients.
  { apply map_eq. intros key. destruct (clients ws !! key) as [client|] eqn:Hkey.
    - destruct (Hreg _ _ Hkey) as [_ (ch & Hch & _)].
      destruct (Hsent1 key client ch Hkey Hch) as [-> _].
      by destruct (Hsent2 key client ch Hkey Hch) as [-> _].
    - by rewrite Hnone1, Hnone2. }
  assert (chans ws1 = chans ws2) as Hchans.
  { apply map_eq. intros ref.
    destruct (decide (map_Forall (λ _ client, Send client ≠ ref) (clients ws)))
      as [Hall|Hsome].
    - rewrite Hother1, Hother2; [done| |]; intros key client Hkey; by apply (Hall key).
    - apply map_not_Forall in Hsome as (key & client & Hkey & Href); [|apply _].
      apply dec_stable in Href. subst ref.
      destruct (Hreg _ _ Hkey) as [_ (ch & Hch & _)].
      destruct (Hsent1 key client ch Hkey Hch) as [_ ->].
      by destruct (Hsent2 key client ch Hkey Hch) as [_ ->]. }
  destruct ws1, ws2. simpl in *. by subst.
Qed.

End HubSends.

(** X14. A disconnect after a send never panics. On a registry that
    keeps its invariant, let a client be registered while a message is
    broadcast, or sent to one user or to several. Whether or not the send
    evicted the client, the [unregister] that its read loop issues on
    exit returns without a panic (the queue is not closed twice), leaves
    the client unregistered, and keeps the invariant. *)
Theorem unregister_after_a_send_is_safe :
  ∀ (json_Marshal : Hub.WebSocketMessage → option Hub.bytes)
    (order : list string) (message : Hub.WebSocketMessage)
    (ws : Hub.WebSocketService) (client : Hub.WebSocketClient),
    Hub.wf ws → Hub.iteration ws order →
    Hub.clients ws !! Hub.ID client = Some client →
    (∃ ws' ws'',
        Hub.broadcastMessage json_Marshal order message ws = Hub.Done ws' ∧
        Hub.unregister client ws' = Hub.Done ws'' ∧
        Hub.wf ws'' ∧ Hub.clients ws'' !! Hub.ID client = None) ∧
    (∀ userID, ∃ ws' ws'',
        Hub.SendToUser json_Marshal order userID message ws = Hub.Done ws' ∧
        Hub.unregister client ws' = Hub.Done ws'' ∧
        Hub.wf ws'' ∧ Hub.clients ws'' !! Hub.ID client = None) ∧
    (∀ userIDs, ∃ ws' ws'',
        Hub.SendToMultipleUsers json_Marshal order userIDs message ws = Hub.Done ws' ∧
        Hub.unregister client ws' = Hub.Done ws'' ∧
        Hub.wf ws'' ∧ Hub.clients ws'' !! Hub.ID client = None).
Proof.
  intros json_Marshal order message ws client Hwf Hiter Hkey.
  destruct (json_Marshal message) as [data|] eqn:Hdata.
  - split; [|split].
    + destruct (broadcastMessage_sent json_Marshal order message data ws Hwf Hiter Hdata)
        as (ws' & Hrun & Hwf' & Hsent).
      destruct (unregister_after_sent _ _ _ _ _ Hwf Hwf' Hsent Hkey) as (ws'' & H).
      by exists ws', ws''.
    + intros userID.
      destruct (SendToUser_sent json_Marshal order userID message data ws Hwf Hiter Hdata)
        as (ws' & Hrun & Hwf' & Hsent).
      destruct (unregister_after_sent _ _ _ _ _ Hwf Hwf' Hsent Hkey) as (ws'' & H).
      by exists ws', ws''.
    + intros userIDs.
      destruct (SendToMultipleUsers_sent json_Marshal order userIDs message data ws
                  Hwf Hiter Hdata) as (ws' & Hrun & Hwf' & Hsent).
      destruct (unregister_after_sent _ _ _ _ _ Hwf Hwf' Hsent Hkey) as (ws'' & H).
      by exists ws', ws''.
  - destruct (wf_unregister client ws Hwf Hkey) as (ws'' & H).
    unfold Hub.broadcastMessage, Hub.SendToUser, Hub.SendToMultipleUsers.
    rewrite Hdata. split; [|split]; intros; by exists ws, ws''.
Qed.

(** The theorem above at the sample registry: the broadcast evicts
    Alice's connection, and its later [unregister] is harmless. *)
Lemma unregister_after_a_send_is_safe_witness :
  let alice := {| Hub.ID := "conn-a"; Hub.UserID := "alice"; Hub.Send := 0 |} in
  Hub.wf Hub.sample_hub ∧ Hub.iteration Hub.sample_hub ["conn-a"; "conn-b"] ∧
  Hub.clients Hub.sample_hub !! Hub.ID alice = Some alice ∧
  ∃ ws' ws'',
    Hub.broadcastMessage Hub.sample_marshal ["conn-a"; "conn-b"]
      Hub.sample_message Hub.sample_hub = Hub.Done ws' ∧
    Hub.unregister alice ws' = Hub.Done ws'' ∧
    Hub.wf ws'' ∧ Hub.clients ws'' !! Hub.ID alice = None.
Proof.
  cbv zeta. split; [exact sample_hub_wf|]. split; [exact sample_hub_iteration|].
  assert (Hub.clients Hub.sample_hub !! "conn-a"
          = Some {| Hub.ID := "conn-a"; Hub.UserID := "alice"; Hub.Send := 0 |}) as Hkey
    by (by vm_compute).
  split; [exact Hkey|].
  exact (proj1 (unregister_after_a_send_is_safe Hub.sample_marshal ["conn-a"; "conn-b"]
                  Hub.sample_message Hub.sample_hub
                  {| Hub.ID := "conn-a"; Hub.UserID := "alice"; Hub.Send := 0 |}
                  sample_hub_wf sample_hub_iteration Hkey)).
Defined.

Section HubSendFacts.

Import Hub.

Lemma sent_subseteq data recipient ws ws' :
  wf ws → sent data recipient ws ws' → clients ws' ⊆ clients ws.
Proof.
  intros Hwf Hsent. apply map_subseteq_spec. intros key client.
  by apply (sent_registered data recipient).
Qed.

Lemma sent_none data recipient ws :
  (∀ key client, clients ws !! key = Some client → recipient client = false) →
  sent data recipient ws ws.
Proof.
  intros Hnone. split; [|done].
  intros key client ch Hkey Hch. unfold after_send. by rewrite (Hnone key client Hkey).
Qed.

Lemma rangeClients_nobody order ws :
  rangeClients (λ _ ws, Done ws) order ws = Done ws.
Proof.
  induction order as [|key order IH]; simpl; [done|].
  by destruct (clients ws !! key).
Qed.

End HubSendFacts.

(** X15. [broadcastMessage], on a registry that keeps its invariant and
    in whatever order Go visits it, returns without a panic and keeps the
    invariant. A message that serialises is appended to the queue of
    every registered connection with room, every registered connection
    whose queue is full is removed and its queue closed, and no other
    queue is touched; a message that does not serialise changes nothing.
    A broadcast never adds a connection. *)
Theorem broadcastMessage_reaches_every_connection :
  ∀ (json_Marshal : Hub.WebSocketMessage → option Hub.bytes)
    (order : list string) (message : Hub.WebSocketMessage) (ws : Hub.WebSocketService),
    Hub.wf ws → Hub.iteration ws order →
    ∃ ws',
      Hub.broadcastMessage json_Marshal order message ws = Hub.Done ws'
      ∧ Hub.wf ws'
      ∧ Hub.clients ws' ⊆ Hub.clients ws
      ∧ match json_Marshal message with
        | Some data => Hub.sent data (λ _, true) ws ws'
        | None => ws' = ws
        end.
Proof.
  intros json_Marshal order message ws Hwf Hiter.
  destruct (json_Marshal message) as [data|] eqn:Hdata.
  - destruct (broadcastMessage_sent json_Marshal order message data ws Hwf Hiter Hdata)
      as (ws' & Hrun & Hwf' & Hsent).
    exists ws'. split; [done|]. split; [done|]. split; [|done].
    by apply (sent_subseteq data (λ _, true)).
  - exists ws. unfold Hub.broadcastMessage. by rewrite Hdata.
Qed.

(** The theorem above at the sample registry. *)
Lemma broadcastMessage_reaches_every_connection_witness :
  Hub.wf Hub.sample_hub ∧ Hub.iteration Hub.sample_hub ["conn-a"; "conn-b"] ∧
  ∃ ws',
    Hub.broadcastMessage Hub.sample_marshal ["conn-a"; "conn-b"]
      Hub.sample_message Hub.sample_hub = Hub.Done ws'
    ∧ Hub.wf ws'
    ∧ Hub.clients ws' ⊆ Hub.clients Hub.sample_hub
    ∧ match Hub.sample_marshal Hub.sample_message with
      | Some data => Hub.sent data (λ _, true) Hub.sample_hub ws'
      | None => ws' = Hub.sample_hub
      end.
Proof.
  split; [exact sample_hub_wf|]. split; [exact sample_hub_iteration|].
  exact (broadcastMessage_reaches_every_connection Hub.sample_marshal
           ["conn-a"; "conn-b"] Hub.sample_message Hub.sample_hub
           sample_hub_wf sample_hub_iteration).
Defined.

(** X16. [SendToMultipleUsers], on a registry that keeps its invariant
    and in whatever order Go visits it, returns without a panic and keeps
    the invariant. A message that serialises is appended to the queue of
    every registered connection with room whose user is in the list, a
    listed user's connection whose queue is full is removed and its queue
    closed, and every other connection and queue is left as it was. If
    the message does not serialise, or no listed user owns a registered
    connection, nothing changes. *)
Theorem SendToMultipleUsers_sends_to_the_listed_users :
  ∀ (json_Marshal : Hub.WebSocketMessage → option Hub.bytes)
    (order : list string) (userIDs : list string)
    (message : Hub.WebSocketMessage) (ws : Hub.WebSocketService),
    Hub.wf ws → Hub.iteration ws order →
    ∃ ws',
      Hub.SendToMultipleUsers json_Marshal order userIDs message ws = Hub.Done ws'
      ∧ Hub.wf ws'
      ∧ match json_Marshal message with
        | Some data =>
            Hub.sent data (λ client, bool_decide (Hub.UserID client ∈ userIDs)) ws ws'
        | None => ws' = ws
        end
      ∧ ((∀ userID, userID ∈ userIDs → ¬ Hub.connected userID ws) → ws' = ws).
Proof.
  intros json_Marshal order userIDs message ws Hwf Hiter.
  destruct (json_Marshal message) as [data|] eqn:Hdata.
  - destruct (SendToMultipleUsers_sent json_Marshal order userIDs message data ws
                Hwf Hiter Hdata) as (ws' & Hrun & Hwf' & Hsent).
    exists ws'. split; [done|]. split; [done|]. split; [done|].
    intros Hnot. apply (sent_nobody data _ ws ws' Hwf Hsent).
    intros key client Hkey. apply bool_decide_eq_false_2. intros Hin.
    apply (Hnot _ Hin). by exists key, client.
  - exists ws. unfold Hub.SendToMultipleUsers. by rewrite Hdata.
Qed.

(** The theorem above at the sample registry, for Bob and a user who is
    not connected. *)
Lemma SendToMultipleUsers_sends_to_the_listed_users_witness :
  Hub.wf Hub.sample_hub ∧ Hub.iteration Hub.sample_hub ["conn-a"; "conn-b"] ∧
  ∃ ws',
    Hub.SendToMultipleUsers Hub.sample_marshal ["conn-a"; "conn-b"] ["bob"; "carol"]
      Hub.sample_message Hub.sample_hub = Hub.Done ws'
    ∧ Hub.wf ws'
    ∧ match Hub.sample_marshal Hub.sample_message with
      | Some data =>
          Hub.sent data (λ client, bool_decide (Hub.UserID client ∈ ["bob"; "carol"]))
            Hub.sample_hub ws'
      | None => ws' = Hub.sample_hub
      end
    ∧ ((∀ userID, userID ∈ ["bob"; "carol"] → ¬ Hub.connected userID Hub.sample_hub) →
       ws' = Hub.sample_hub).
Proof.
  split; [exact sample_hub_wf|]. split; [exact sample_hub_iteration|].
  exact (SendToMultipleUsers_sends_to_the_listed_users Hub.sample_marshal
           ["conn-a"; "conn-b"] ["bob"; "carol"] Hub.sample_message Hub.sample_hub
           sample_hub_wf sample_hub_iteration).
Defined.

(** X17. [SendToMultipleUsers] treats its list as a set: two lists with
    the same members give the same result, whatever their order and
    repetitions; the empty list changes nothing; and the list of one user
    does what [SendToUser] does for that user. This holds of every
    registry and every order of the visit. *)
Theorem SendToMultipleUsers_treats_the_list_as_a_set :
  ∀ (json_Marshal : Hub.WebSocketMessage → option Hub.bytes)
    (order : list string) (message : Hub.WebSocketMessage) (ws : Hub.WebSocketService),
    (∀ userIDs1 userIDs2,
        (∀ userID, userID ∈ userIDs1 ↔ userID ∈ userIDs2) →
        Hub.SendToMultipleUsers json_Marshal order userIDs1 message ws
        = Hub.SendToMultipleUsers json_Marshal order userIDs2 message ws) ∧
    Hub.SendToMultipleUsers json_Marshal order [] message ws = Hub.Done ws ∧
    (∀ userID,
        Hub.SendToMultipleUsers json_Marshal order [userID] message ws
        = Hub.SendToUser json_Marshal order userID message ws).
Proof.
  intros json_Marshal order message ws.
  unfold Hub.SendToMultipleUsers, Hub.SendToUser.
  destruct (json_Marshal message) as [data|]; [|done].
  split; [|split].
  - intros userIDs1 userIDs2 Hsame. apply rangeClients_ext. intros client ws0.
    rewrite !userIDSet_member. by rewrite (bool_decide_ext _ _ (Hsame _)).
  - rewrite <- (rangeClients_nobody order ws).
    apply rangeClients_ext. intros client ws0.
    rewrite userIDSet_member.
    rewrite bool_decide_eq_false_2; [done|]. apply not_elem_of_nil.
  - intros userID. apply rangeClients_ext. intros client ws0.
    rewrite userIDSet_member.
    destruct (String.eqb (Hub.UserID client) userID) eqn:Heq.
    + apply String.eqb_eq in Heq. rewrite bool_decide_eq_true_2; [done|].
      rewrite Heq. left.
    + apply String.eqb_neq in Heq. rewrite bool_decide_eq_false_2; [done|].
      intros Hin. apply list_elem_of_singleton in Hin. done.
Qed.

(** The theorem above at the sample registry, for a list and the same
    list reversed with a repetition. *)
Lemma SendToMultipleUsers_treats_the_list_as_a_set_witness :
  (∀ userID, userID ∈ ["alice"; "bob"] ↔ userID ∈ ["bob"; "alice"; "bob"]) ∧
  Hub.SendToMultipleUsers Hub.sample_marshal ["conn-a"; "conn-b"] ["alice"; "bob"]
    Hub.sample_message Hub.sample_hub
  = Hub.SendToMultipleUsers Hub.sample_marshal ["conn-a"; "conn-b"] ["bob"; "alice"; "bob"]
      Hub.sample_message Hub.sample_hub.
Proof.
  assert (∀ userID : string,
            userID ∈ ["alice"; "bob"] ↔ userID ∈ ["bob"; "alice"; "bob"]) as Hsame.
  { intros userID. rewrite !elem_of_cons, !elem_of_nil. tauto. }
  split; [exact Hsame|].
  exact (proj1 (SendToMultipleUsers_treats_the_list_as_a_set Hub.sample_marshal
                  ["conn-a"; "conn-b"] Hub.sample_message Hub.sample_hub)
               ["alice"; "bob"] ["bob"; "alice"; "bob"] Hsame).
Defined.

(** X18. What a send does to the hub does not depend on the order in
    which Go visits the registry: on a registry that keeps its invariant,
    any two orders give the same registry and the same queues, for a
    broadcast, for a send to one user and for a send to several. *)
Theorem sends_do_not_depend_on_the_visiting_order :
  ∀ (json_Marshal : Hub.WebSocketMessage → option Hub.bytes)
    (order1 order2 : list string) (message : Hub.WebSocketMessage)
    (ws : Hub.WebSocketService),
    Hub.wf ws → Hub.iteration ws order1 → Hub.iteration ws order2 →
    Hub.broadcastMessage json_Marshal order1 message ws
    = Hub.broadcastMessage json_Marshal order2 message ws ∧
    (∀ userID,
        Hub.SendToUser json_Marshal order1 userID message ws
        = Hub.SendToUser json_Marshal order2 userID message ws) ∧
    (∀ userIDs,
        Hub.SendToMultipleUsers json_Marshal order1 userIDs message ws
        = Hub.SendToMultipleUsers json_Marshal order2 userIDs message ws).
Proof.
  intros json_Marshal order1 order2 message ws Hwf Hiter1 Hiter2.
  destruct (json_Marshal message) as [data|] eqn:Hdata.
  - split; [|split].
    + destruct (broadcastMessage_sent json_Marshal order1 message data ws Hwf Hiter1 Hdata)
        as (ws1 & -> & _ & Hsent1).
      destruct (broadcastMessage_sent json_Marshal order2 message data ws Hwf Hiter2 Hdata)
        as (ws2 & -> & _ & Hsent2).
      f_equal. by apply (sent_unique data (λ _, true) ws).
    + intros userID.
      destruct (SendToUser_sent json_Marshal order1 userID message data ws Hwf Hiter1 Hdata)
        as (ws1 & -> & _ & Hsent1).
      destruct (SendToUser_sent json_Marshal order2 userID message data ws Hwf Hiter2 Hdata)
        as (ws2 & -> & _ & Hsent2).
      f_equal. by apply (sent_unique data _ ws _ _ Hwf Hsent1).
    + intros userIDs.
      destruct (SendToMultipleUsers_sent json_Marshal order1 userIDs message data ws
                  Hwf Hiter1 Hdata) as (ws1 & -> & _ & Hsent1).
      destruct (SendToMultipleUsers_sent json_Marshal order2 userIDs message data ws
                  Hwf Hiter2 Hdata) as (ws2 & -> & _ & Hsent2).
      f_equal. by apply (sent_unique data _ ws _ _ Hwf Hsent1).
  - unfold Hub.broadcastMessage, Hub.SendToUser, Hub.SendToMultipleUsers.
    by rewrite Hdata.
Qed.

(** The theorem above at the sample registry, visited in both orders. *)
Lemma sends_do_not_depend_on_the_visiting_order_witness :
  Hub.wf Hub.sample_hub ∧
  Hub.iteration Hub.sample_hub ["conn-a"; "conn-b"] ∧
  Hub.iteration Hub.sample_hub ["conn-b"; "conn-a"] ∧
  Hub.broadcastMessage Hub.sample_marshal ["conn-a"; "conn-b"]
    Hub.sample_message Hub.sample_hub
  = Hub.broadcastMessage Hub.sample_marshal ["conn-b"; "conn-a"]
      Hub.sample_message Hub.sample_hub.
Proof.
  assert (Hub.iteration Hub.sample_hub ["conn-b"; "conn-a"]) as Hiter2.
  { unfold Hub.iteration. rewrite <- sample_hub_iteration. apply Permutation_swap. }
  split; [exact sample_hub_wf|]. split; [exact sample_hub_iteration|].
  split; [exact Hiter2|].
  exact (proj1 (sends_do_not_depend_on_the_visiting_order Hub.sample_marshal
                  ["conn-a"; "conn-b"] ["conn-b"; "conn-a"] Hub.sample_message
                  Hub.sample_hub sample_hub_wf sample_hub_iteration Hiter2)).
Defined.

Section HubSteps.

Import Hub.

Variable json_Marshal : WebSocketMessage → option bytes.




End HubSteps.



(** ** The need handler: who is told of a new need *)

Lemma topMatches_length_le limit ms :
  (0 ≤ limit)%Z → (Z.of_nat (length (Matching.topMatches limit ms)) ≤ limit)%Z.
Proof.
  intros Hpos. unfold Matching.topMatches.
  destruct (_ >? _)%Z eqn:H; [rewrite length_take|]; lia.
Qed.

Lemma ranking_backed_by_volunteer math srt now need volunteers limit m :
  sort_Slice_spec srt →
  m ∈ Matching.topMatches limit
        (srt Matching.byScoreDesc (Matching.keptVolunteers math now need volunteers)) →
  ∃ volunteer, volunteer ∈ volunteers ∧ backed_by_volunteer math need m volunteer.
Proof.
  intros Hsrt Hm.
  pose proof (elem_of_submseteq _ _ _ Hm (topMatches_submseteq _ Hsrt _ _)) as Hkept.
  apply list_elem_of_lookup in Hkept as [i Hi].
  destruct (Forall2_lookup_l _ _ _ _ _ (keptVolunteers_backed math now need volunteers) Hi)
    as (v & Hv & Hbacked).
  exists v. split; [|done].
  apply list_elem_of_lookup_2 in Hv.
  apply (elem_of_submseteq _ _ _ Hv), sublist_submseteq, filter_sublist.
Qed.

(** X20. [CreateNeed] picks the recipients of [new_need] by profile
    identifier. With the hub keeping its invariant and a [sort.Slice]
    that keeps its contract, the end of [CreateNeed] never panics and
    keeps the invariant. If the fetch of the pool fails, the response
    carries no matches and the hub is left as it was. Otherwise the
    response carries the ranking for limit 5, at most five Matches, each
    naming a volunteer of the pool by the identifier of the volunteer's
    profile ([Volunteer.ID], not [Volunteer.UserID]); the hub treats as
    recipients exactly the registered connections whose user identifier
    is the hexadecimal form of the [VolunteerID] of one of these Matches
    (with room: the message is appended; queue full: removed); and a
    connection whose user identifier is not the hexadecimal form of the
    profile identifier of any volunteer of the pool stays registered with
    its queue as it was, also when its user is a ranked volunteer. *)
Theorem CreateNeed_notifies_by_profile_identifier :
  ∀ (math : MathLib) (srt : sorter) (now : nat → Time)
    (json_Marshal : Hub.WebSocketMessage → option Hub.bytes)
    (ObjectID_Hex : ObjectID → string)
    (order : list string) (need : Need) (ws : Hub.WebSocketService),
    sort_Slice_spec srt → Hub.wf ws → Hub.iteration ws order →
    (∀ err,
        Handlers.CreateNeed_notify math srt now json_Marshal ObjectID_Hex
          (Err err) order need ws = ([], Hub.Done ws)) ∧
    (∀ volunteers, ∃ matches ws',
        Handlers.CreateNeed_notify math srt now json_Marshal ObjectID_Hex
          (Ok volunteers) order need ws = (matches, Hub.Done ws')
        ∧ Matching.FindMatchesForNeed math srt now (Ok volunteers) need 5 = Ok matches
        ∧ length matches ≤ 5
        ∧ Hub.wf ws'
        ∧ (∀ m, m ∈ matches →
             ∃ volunteer, volunteer ∈ volunteers ∧ VolunteerID m = vol_ID volunteer)
        ∧ match json_Marshal (Hub.newNeedMessage ObjectID_Hex need) with
          | Some data =>
              Hub.sent data
                (λ client,
                   bool_decide
                     (Hub.UserID client
                      ∈ map (λ m, ObjectID_Hex (VolunteerID m)) matches))
                ws ws'
          | None => ws' = ws
          end
        ∧ (∀ key client ch,
             Hub.clients ws !! key = Some client →
             Hub.chans ws !! Hub.Send client = Some ch →
             (∀ volunteer, volunteer ∈ volunteers →
                Hub.UserID client ≠ ObjectID_Hex (vol_ID volunteer)) →
             Hub.clients ws' !! key = Some client ∧
             Hub.chans ws' !! Hub.Send client = Some ch)).
Proof.
  intros math srt now json_Marshal ObjectID_Hex order need ws Hsrt Hwf Hiter.
  split; [done|]. intros volunteers.
  unfold Handlers.CreateNeed_notify, Matching.FindMatchesForNeed.
  change (Matching.effectiveLimit 5) with 5%Z.
  set (matches := Matching.topMatches 5 _).
  assert (length matches ≤ 5) as Hlen.
  { pose proof (topMatches_length_le 5
                  (srt Matching.byScoreDesc (Matching.keptVolunteers math now need volunteers))
                  ltac:(lia)) as H. fold matches in H. lia. }
  assert (∀ m, m ∈ matches →
            ∃ volunteer, volunteer ∈ volunteers ∧ VolunteerID m = vol_ID volunteer) as Hpool.
  { intros m Hm.
    destruct (ranking_backed_by_volunteer math srt now need volunteers 5 m Hsrt Hm)
      as (v & Hv & _ & Hid & _).
    by exists v. }
  assert (∀ client,
            (∀ volunteer, volunteer ∈ volunteers →
               Hub.UserID client ≠ ObjectID_Hex (vol_ID volunteer)) →
            bool_decide (Hub.UserID client
                         ∈ map (λ m, ObjectID_Hex (VolunteerID m)) matches) = false)
    as Hmiss.
  { intros client Hother. apply bool_decide_eq_false_2. intros Hin.
    apply list_elem_of_In, in_map_iff in Hin as (m & Hhex & Hm).
    apply list_elem_of_In, Hpool in Hm as (v & Hv & Hid).
    apply (Hother v Hv). by rewrite <- Hid. }
  destruct (0 <? length matches)%nat eqn:Hsome.
  - unfold Hub.NotifyNewNeed.
    destruct (json_Marshal (Hub.newNeedMessage ObjectID_Hex need)) as [data|] eqn:Hdata.
    + destruct (SendToMultipleUsers_sent json_Marshal order
                  (map (λ m, ObjectID_Hex (VolunteerID m)) matches)
                  (Hub.newNeedMessage ObjectID_Hex need) data ws Hwf Hiter Hdata)
        as (ws' & Hrun & Hwf' & Hsent).
      exists matches, ws'. rewrite Hrun. do 6 (split; [done|]).
      intros key client ch Hkey Hch Hother.
      destruct Hsent as (Hcl & _). destruct (Hcl key client ch Hkey Hch) as [H1 H2].
      unfold Hub.after_send in H1, H2. by rewrite (Hmiss client Hother) in H1, H2.
    + exists matches, ws. unfold Hub.SendToMultipleUsers. rewrite Hdata.
      by repeat (split; [done|]).
  - exists matches, ws. do 5 (split; [done|]). split; [|done].
    destruct (json_Marshal _) as [data|]; [|done].
    apply sent_none. intros key client _.
    apply Nat.ltb_ge in Hsome. destruct matches; [|simpl in Hsome; lia].
    apply bool_decide_eq_false_2, not_elem_of_nil.
Qed.

Lemma volunteer_hub_wf : Hub.wf volunteer_hub.
Proof. apply wfb_wf. by vm_compute. Qed.

Lemma volunteer_hub_iteration : Hub.iteration volunteer_hub ["conn-u"; "conn-p"].
Proof. unfold Hub.iteration. by vm_compute. Qed.

(** The theorem above for a need that the volunteer with profile
    identifier 2 and user identifier 7 matches: the message goes to the
    connection registered under the hexadecimal form of 2, and the
    connection of the volunteer's user gets nothing. *)
Lemma CreateNeed_notifies_by_profile_identifier_witness :
  let need := sample_need 100 [1%float] in
  let run :=
    Handlers.CreateNeed_notify first_order_math insertionSort_func Z.of_nat
      Hub.sample_marshal ObjectID_Hex (Ok [profiled_volunteer]) ["conn-u"; "conn-p"] need
      volunteer_hub in
  sort_Slice_spec insertionSort_func ∧
  Hub.wf volunteer_hub ∧ Hub.iteration volunteer_hub ["conn-u"; "conn-p"] ∧
  (∃ matches ws',
      run = (matches, Hub.Done ws')
      ∧ Matching.FindMatchesForNeed first_order_math insertionSort_func Z.of_nat
          (Ok [profiled_volunteer]) need 5 = Ok matches
      ∧ length matches ≤ 5
      ∧ Hub.wf ws'
      ∧ (∀ m, m ∈ matches →
           ∃ volunteer, volunteer ∈ [profiled_volunteer]
                        ∧ VolunteerID m = vol_ID volunteer)
      ∧ match Hub.sample_marshal (Hub.newNeedMessage ObjectID_Hex need) with
        | Some data =>
            Hub.sent data
              (λ client,
                 bool_decide
                   (Hub.UserID client ∈ map (λ m, ObjectID_Hex (VolunteerID m)) matches))
              volunteer_hub ws'
        | None => ws' = volunteer_hub
        end
      ∧ (∀ key client ch,
           Hub.clients volunteer_hub !! key = Some client →
           Hub.chans volunteer_hub !! Hub.Send client = Some ch →
           (∀ volunteer, volunteer ∈ [profiled_volunteer] →
              Hub.UserID client ≠ ObjectID_Hex (vol_ID volunteer)) →
           Hub.clients ws' !! key = Some client ∧
           Hub.chans ws' !! Hub.Send client = Some ch)) ∧
  VolunteerID <$> run.1 = [2%N] ∧
  match run.2 with
  | Hub.Done ws' =>
      Hub.queue <$> Hub.chans ws' !! 1 = Some [String.list_byte_of_string "new_need"] ∧
      Hub.queue <$> Hub.chans ws' !! 0 = Some []
  | Hub.Panic _ => False
  end.
Proof.
  cbv zeta.
  split; [exact insertionSort_func_spec|].
  split; [exact volunteer_hub_wf|]. split; [exact volunteer_hub_iteration|].
  split.
  - exact (proj2 (CreateNeed_notifies_by_profile_identifier
                    first_order_math insertionSort_func Z.of_nat Hub.sample_marshal
                    ObjectID_Hex ["conn-u"; "conn-p"] (sample_need 100 [1%float])
                    volunteer_hub insertionSort_func_spec volunteer_hub_wf
                    volunteer_hub_iteration)
                 [profiled_volunteer]).
  - split; by vm_compute.
Defined.

(** ** The embedding service: what is sent to the provider *)

Section EmbeddingRequests.

Import EmbeddingClient.

Lemma length_substring_0 n s :
  String.length (String.substring 0 n s) = Nat.min n (String.length s).
Proof.
  revert n. induction s as [|a s IH]; intros [|n]; simpl; try done.
  by rewrite IH.
Qed.

Lemma prefix_substring_0 n s : String.prefix (String.substring 0 n s) s = true.
Proof.
  revert n. induction s as [|a s IH]; intros [|n]; simpl; try done.
  destruct (Ascii.ascii_dec a a); [apply IH|done].
Qed.

Lemma prefix_refl s : String.prefix s s = true.
Proof.
  induction s as [|a s IH]; simpl; [done|].
  by destruct (Ascii.ascii_dec a a).
Qed.

Lemma truncate_length text : (Z.of_nat (String.length (truncate text)) ≤ 8000)%Z.
Proof.
  unfold truncate. destruct (8000 <? _)%Z eqn:H.
  - rewrite length_substring_0. lia.
  - apply Z.ltb_ge in H. lia.
Qed.

Lemma truncate_prefix text : String.prefix (truncate text) text = true.
Proof.
  unfold truncate. destruct (8000 <? _)%Z; [apply prefix_substring_0|apply prefix_refl].
Qed.

Lemma truncate_nonempty text : text ≠ "" → truncate text ≠ "".
Proof.
  intros Htext. unfold truncate. destruct (8000 <? _)%Z eqn:H; [|done].
  intros Hempty. apply (f_equal String.length) in Hempty.
  rewrite length_substring_0 in Hempty. apply Z.ltb_lt in H.
  change (String.length "") with 0 in Hempty. lia.
Qed.

End EmbeddingRequests.

(** X21. What [GenerateEmbedding] asks of the provider. Without a client
    it fails for every text, and a text that is empty once trimmed is
    refused whatever the provider would answer. When it returns an
    embedding, that embedding is the first one the provider gave for a
    request of a single input, and the input is non-empty, at most 8000
    bytes long, and a prefix of the trimmed text. *)
Theorem GenerateEmbedding_sends_one_bounded_text :
  ∀ (strings_TrimSpace : string → string),
    (∀ text,
        EmbeddingClient.GenerateEmbedding strings_TrimSpace None text
        = Err (ErrorString "OpenAI client not initialized")) ∧
    (∀ createEmbeddings text,
        strings_TrimSpace text = "" →
        EmbeddingClient.GenerateEmbedding strings_TrimSpace (Some createEmbeddings) text
        = Err (ErrorString "text cannot be empty")) ∧
    (∀ createEmbeddings text embedding,
        EmbeddingClient.GenerateEmbedding strings_TrimSpace (Some createEmbeddings) text
        = Ok embedding →
        ∃ input rest,
          createEmbeddings [input] = Ok (embedding :: rest) ∧
          input ≠ "" ∧
          (Z.of_nat (String.length input) ≤ 8000)%Z ∧
          String.prefix input (strings_TrimSpace text) = true).
Proof.
  intros strings_TrimSpace. split; [done|]. split.
  - intros createEmbeddings text Hempty.
    unfold EmbeddingClient.GenerateEmbedding. by rewrite Hempty.
  - intros createEmbeddings text embedding.
    unfold EmbeddingClient.GenerateEmbedding.
    destruct (String.eqb (strings_TrimSpace text) "") eqn:Hempty; [done|].
    apply String.eqb_neq in Hempty.
    destruct (createEmbeddings _) as [[|first rest]|err] eqn:Hresp; try done.
    intros [= ->]. exists (EmbeddingClient.truncate (strings_TrimSpace text)), rest.
    split; [done|]. split; [by apply truncate_nonempty|].
    split; [apply truncate_length|apply truncate_prefix].
Qed.

(** The theorem above for a provider that answers every input with the
    same one-component embedding, and a trimming that does nothing. *)
Lemma GenerateEmbedding_sends_one_bounded_text_witness :
  let createEmbeddings : EmbeddingClient.provider :=
    λ inputs, Ok (map (λ _, [1%float]) inputs) in
  EmbeddingClient.GenerateEmbedding (λ text, text) (Some createEmbeddings) "groceries"
  = Ok [1%float] ∧
  ∃ input rest,
    createEmbeddings [input] = Ok ([1%float] :: rest) ∧
    input ≠ "" ∧
    (Z.of_nat (String.length input) ≤ 8000)%Z ∧
    String.prefix input "groceries" = true.
Proof.
  cbv zeta. split; [reflexivity|].
  exact (proj2 (proj2 (GenerateEmbedding_sends_one_bounded_text (λ text, text)))
               (λ inputs, Ok (map (λ _, [1%float]) inputs)) "groceries" [1%float]
               eq_refl).
Defined.

(** X22. What [BatchGenerateEmbeddings] asks of the provider. Without a
    client, or for no texts, it fails. When it returns, it returns what
    the provider gave for a single request with one input per text, in
    order, each input at most 8000 bytes long and a prefix of its trimmed
    text; unlike [GenerateEmbedding] it does not refuse a text that is
    empty once trimmed. *)
Theorem BatchGenerateEmbeddings_sends_bounded_texts :
  ∀ (strings_TrimSpace : string → string),
    (∀ texts,
        EmbeddingClient.BatchGenerateEmbeddings strings_TrimSpace None texts
        = Err (ErrorString "OpenAI client not initialized")) ∧
    (∀ createEmbeddings,
        EmbeddingClient.BatchGenerateEmbeddings strings_TrimSpace (Some createEmbeddings) []
        = Err (ErrorString "no texts provided")) ∧
    (∀ createEmbeddings texts embeddings,
        EmbeddingClient.BatchGenerateEmbeddings strings_TrimSpace (Some createEmbeddings) texts
        = Ok embeddings →
        texts ≠ [] ∧
        ∃ inputs,
          createEmbeddings inputs = Ok embeddings ∧
          Forall2
            (λ input text,
               (Z.of_nat (String.length input) ≤ 8000)%Z ∧
               String.prefix input (strings_TrimSpace text) = true)
            inputs texts) ∧
    (∀ createEmbeddings texts text,
        text ∈ texts → strings_TrimSpace text = "" →
        EmbeddingClient.BatchGenerateEmbeddings strings_TrimSpace (Some createEmbeddings) texts
        = match createEmbeddings
                  (map (λ text, EmbeddingClient.truncate (strings_TrimSpace text)) texts) with
          | Ok embeddings => Ok embeddings
          | Err err => Err (Wrapped "failed to generate batch embeddings" err)
          end).
Proof.
  intros strings_TrimSpace. split; [done|]. split; [done|]. split.
  - intros createEmbeddings texts embeddings.
    unfold EmbeddingClient.BatchGenerateEmbeddings.
    destruct texts as [|text texts]; [done|].
    change (length (text :: texts) =? 0)%nat with false. cbv iota.
    destruct (createEmbeddings _) as [data|err] eqn:Hresp; [|done].
    intros [= ->]. split; [done|].
    eexists. split; [exact Hresp|].
    generalize (text :: texts). intros l. induction l as [|t l IH]; simpl; constructor.
    + split; [apply truncate_length|apply truncate_prefix].
    + apply IH.
  - intros createEmbeddings texts text Hin _.
    unfold EmbeddingClient.BatchGenerateEmbeddings.
    destruct texts as [|t texts]; [by apply elem_of_nil in Hin|].
    change (length (t :: texts) =? 0)%nat with false. cbv iota.
    by destruct (createEmbeddings _).
Qed.

(** The theorem above for a provider that answers every input with the
    same one-component embedding, and a trimming that does nothing. *)
Lemma BatchGenerateEmbeddings_sends_bounded_texts_witness :
  let createEmbeddings : EmbeddingClient.provider :=
    λ inputs, Ok (map (λ _, [1%float]) inputs) in
  EmbeddingClient.BatchGenerateEmbeddings (λ text, text) (Some createEmbeddings)
    ["groceries"; ""] = Ok [[1%float]; [1%float]] ∧
  ∃ inputs,
    createEmbeddings inputs = Ok [[1%float]; [1%float]] ∧
    Forall2
      (λ input text,
         (Z.of_nat (String.length input) ≤ 8000)%Z ∧ String.prefix input text = true)
      inputs ["groceries"; ""].
Proof.
  cbv zeta. split; [reflexivity|].
  exact (proj2 (proj1 (proj2 (proj2 (BatchGenerateEmbeddings_sends_bounded_texts
                                     (λ text, text))))
                  (λ inputs, Ok (map (λ _, [1%float]) inputs)) ["groceries"; ""]
                  [[1%float]; [1%float]] eq_refl)).
Defined.

(** X23. The emptiness check never fires for a need or a volunteer. For
    a [strings.TrimSpace] that removes white space only, the text that
    [GenerateNeedEmbedding] and [GenerateVolunteerEmbedding] build starts
    with a letter of the format, so it is never empty once trimmed: with
    a client, a request goes to the provider even when every field is
    empty, and the result is the provider's first embedding, the
    provider's error wrapped, or the error for an answer without data,
    never the error for an empty text. *)
Theorem labelled_texts_are_never_empty :
  ∀ (strings_TrimSpace : string → string),
    keeps_letters strings_TrimSpace →
    (∀ createEmbeddings title description category, ∃ input,
        input ≠ "" ∧
        EmbeddingClient.GenerateNeedEmbedding strings_TrimSpace (Some createEmbeddings)
          title description category
        = match createEmbeddings [input] with
          | Err err => Err (Wrapped "failed to generate embedding" err)
          | Ok [] => Err (ErrorString "no embedding data returned")
          | Ok (embedding :: _) => Ok embedding
          end) ∧
    (∀ createEmbeddings skills interests description, ∃ input,
        input ≠ "" ∧
        EmbeddingClient.GenerateVolunteerEmbedding strings_TrimSpace (Some createEmbeddings)
          skills interests description
        = match createEmbeddings [input] with
          | Err err => Err (Wrapped "failed to generate embedding" err)
          | Ok [] => Err (ErrorString "no embedding data returned")
          | Ok (embedding :: _) => Ok embedding
          end).
Proof.
  intros strings_TrimSpace Htrim.
  assert (∀ createEmbeddings a text, is_letter a = true →
            ∃ input,
              input ≠ "" ∧
              EmbeddingClient.GenerateEmbedding strings_TrimSpace (Some createEmbeddings)
                (String a text)
              = match createEmbeddings [input] with
                | Err err => Err (Wrapped "failed to generate embedding" err)
                | Ok [] => Err (ErrorString "no embedding data returned")
                | Ok (embedding :: _) => Ok embedding
                end) as Hgen.
  { intros createEmbeddings a text Ha.
    exists (EmbeddingClient.truncate (strings_TrimSpace (String a text))).
    split; [by apply truncate_nonempty, Htrim|].
    unfold EmbeddingClient.GenerateEmbedding.
    destruct (String.eqb _ "") eqn:Hempty; [|done].
    apply String.eqb_eq in Hempty. by apply Htrim in Hempty. }
  split.
  - intros createEmbeddings title description category.
    unfold EmbeddingClient.GenerateNeedEmbedding. cbn [String.append].
    by apply Hgen.
  - intros createEmbeddings skills interests description.
    unfold EmbeddingClient.GenerateVolunteerEmbedding. cbn [String.append].
    by apply Hgen.
Qed.

(** The theorem above for a need whose fields are all empty, a trimming
    that does nothing, and a provider that answers every input with the
    same one-component embedding. *)
Lemma labelled_texts_are_never_empty_witness :
  let createEmbeddings : EmbeddingClient.provider :=
    λ inputs, Ok (map (λ _, [1%float]) inputs) in
  keeps_letters (λ text, text) ∧
  ∃ input,
    input ≠ "" ∧
    EmbeddingClient.GenerateNeedEmbedding (λ text, text) (Some createEmbeddings) "" "" ""
    = match createEmbeddings [input] with
      | Err err => Err (Wrapped "failed to generate embedding" err)
      | Ok [] => Err (ErrorString "no embedding data returned")
      | Ok (embedding :: _) => Ok embedding
      end.
Proof.
  cbv zeta.
  assert (keeps_letters (λ text, text)) as Htrim by (by intros a text _).
  split; [exact Htrim|].
  exact (proj1 (labelled_texts_are_never_empty (λ text, text) Htrim)
               (λ inputs, Ok (map (λ _, [1%float]) inputs)) "" "" "").
Defined.


